(** * Document index resolution and mutation sequencing of google-docs-mcp

    A shallow embedding of [src/googleDocsApiHelpers.ts]: the text locator
    ([findTextRange]), the table-cell locator ([getTableCellRange],
    [findTableAtIndex]), the list-marker detector and the two-phase list
    conversion ([detectAndFormatLists]), table population
    ([createTableWithData]), cell editing ([editTableCell]), the style
    request builders and the batch submitter ([executeBatchUpdate]); then
    the paragraph locator ([getParagraphRange]), [createTable] and the
    tab helpers ([getAllTabs], [findTabById], [getTabTextLength]).

    Conventions of the embedding.
    - A JavaScript string is the list of its UTF-16 code units; [length] is
      then the JavaScript [length], which is also the unit of the document
      indices of the remote service.
    - A JavaScript number that holds an index or a counter is a [Z]; the
      sentinel [-1] of the source is the integer [-1].
    - A property that may be absent ([undefined]) is an [option]. A
      property that holds an array is a list, and the empty list stands for
      the absent property; an array that is present and empty is not told
      apart from it. The loops of the source treat the two alike. Its two
      presence tests ([!tableRows] and [!tableCells] in
      [getTableCellRange]) are tests for the empty list, so the lookup
      yields null there for every index, as the source does for the absent
      property (for a present empty array and a negative index the source
      would go on to the read of [undefined]).
    - A structural element is one of paragraph, table, section break and
      table of contents: the remote schema makes these a union.
    - Remote calls thread an explicit [World]: the remote document and the
      trace of calls issued so far; the behaviour of the remote service and
      the colour helper of [types.ts] are parameters ([Collaborators]).

    The file has three parts: the embedding of the source, the vocabulary
    of the properties (well-formed trees, match positions, traces), and the
    properties with their proofs. *)

From Stdlib Require Import List ZArith Lia Bool Arith Ascii.
From Stdlib Require String.
From Stdlib Require Import Sorted Permutation.
Import ListNotations.
Import String.StringSyntax.
Delimit Scope string_scope with string.
Bind Scope string_scope with String.string.

Local Open Scope Z_scope.

(** ** JavaScript strings *)

Definition char16 := Z.
Definition jsstring := list char16.

Definition str (s : String.string) : jsstring :=
  map (fun a => Z.of_nat (nat_of_ascii a)) (String.list_ascii_of_string s).
Arguments str s%_string_scope.

Definition strlen (s : jsstring) : Z := Z.of_nat (length s).

(** The newline code unit, and the bullet glyph U+2022. *)
Definition LF : char16 := 10.
Definition BULLET : char16 := 8226.

(** [\s] of a JavaScript regular expression, which is also the set that
    [trim] and [trimStart] strip: WhiteSpace and LineTerminator. *)
Definition isWhitespace (c : char16) : bool :=
  ((9 <=? c) && (c <=? 13)) || (c =? 32) || (c =? 160) || (c =? 5760)
  || ((8192 <=? c) && (c <=? 8202)) || (c =? 8232) || (c =? 8233)
  || (c =? 8239) || (c =? 8287) || (c =? 12288) || (c =? 65279).

(** [\d]. *)
Definition isDigit (c : char16) : bool := (48 <=? c) && (c <=? 57).

(** [[a-zA-Z]]. *)
Definition isLetter (c : char16) : bool :=
  ((97 <=? c) && (c <=? 122)) || ((65 <=? c) && (c <=? 90)).

(** [[-*•]]. *)
Definition isBulletGlyph (c : char16) : bool :=
  (c =? 45) || (c =? 42) || (c =? BULLET).

(** [[.)]]. *)
Definition isDotOrParen (c : char16) : bool := (c =? 46) || (c =? 41).

Fixpoint takeWhile {A} (p : A -> bool) (l : list A) : list A :=
  match l with
  | [] => []
  | x :: t => if p x then x :: takeWhile p t else []
  end.

Fixpoint dropWhile {A} (p : A -> bool) (l : list A) : list A :=
  match l with
  | [] => []
  | x :: t => if p x then dropWhile p t else l
  end.

Definition trimStart (s : jsstring) : jsstring := dropWhile isWhitespace s.

(** [s.trim()] is used by the source only for its truthiness: the trimmed
    string is non-empty exactly when some code unit is not whitespace. *)
Definition trimIsNonEmpty (s : jsstring) : bool :=
  existsb (fun c => negb (isWhitespace c)) s.

Fixpoint isPrefix (p s : jsstring) : bool :=
  match p, s with
  | [], _ => true
  | _ :: _, [] => false
  | a :: p', b :: s' => (a =? b) && isPrefix p' s'
  end.

(** [text.indexOf(needle, from)]: scanning of the suffix that starts at
    position [i]. *)
Fixpoint indexOfAux (s needle : jsstring) (i : nat) : option nat :=
  if isPrefix needle s then Some i
  else match s with
       | [] => None
       | _ :: s' => indexOfAux s' needle (S i)
       end.

Definition indexOf (text needle : jsstring) (from : nat) : option nat :=
  indexOfAux (skipn from text) needle (Nat.min from (length text)).

(** [text.includes(needle)]. *)
Definition includes (text needle : jsstring) : bool :=
  match indexOf text needle 0 with Some _ => true | None => false end.

(** [toLowerCase], on the code units A–Z; the other code units are kept. *)
Definition toLowerCase (s : jsstring) : jsstring :=
  map (fun c => if (65 <=? c) && (c <=? 90) then c + 32 else c) s.

(** ** The document tree *)

Record ParagraphElement := mkPE {
  pe_startIndex : option Z;
  pe_endIndex : option Z;
  (** [textRun.content]; [None] when the element is no text run. *)
  pe_content : option jsstring
}.

Inductive StructuralElement : Type :=
| Paragraph (startIndex endIndex : option Z) (elements : list ParagraphElement)
| Table (startIndex endIndex : option Z) (tableRows : list TableRow)
| SectionBreak (startIndex endIndex : option Z)
| TableOfContents (startIndex endIndex : option Z)
with TableRow : Type :=
| mkRow (tableCells : list TableCell)
with TableCell : Type :=
| mkCell (startIndex endIndex : option Z) (content : list StructuralElement).

Definition el_startIndex (el : StructuralElement) : option Z :=
  match el with
  | Paragraph s _ _ | Table s _ _ | SectionBreak s _ | TableOfContents s _ => s
  end.

Definition el_endIndex (el : StructuralElement) : option Z :=
  match el with
  | Paragraph _ e _ | Table _ e _ | SectionBreak _ e | TableOfContents _ e => e
  end.

Definition tableCells (r : TableRow) : list TableCell :=
  match r with mkRow cs => cs end.

Definition cell_startIndex (c : TableCell) : option Z :=
  match c with mkCell s _ _ => s end.

Definition cell_endIndex (c : TableCell) : option Z :=
  match c with mkCell _ e _ => e end.

Definition cell_content (c : TableCell) : list StructuralElement :=
  match c with mkCell _ _ ct => ct end.

(** [res.data.body?.content]: the body may be absent. *)
Record Document := mkDocument {
  body_content : option (list StructuralElement)
}.

(** ** Structural tree walker (findTextRange, lines 67-108) *)

Record Segment := mkSegment {
  seg_text : jsstring;
  seg_start : Z;
  seg_end : Z
}.

(** The inner [forEach] over [element.paragraph.elements]: a run is kept
    when its content is a non-empty string and both indices are defined. *)
Definition collectRun (pe : ParagraphElement) : list Segment :=
  match pe_content pe, pe_startIndex pe, pe_endIndex pe with
  | Some (c :: cs), Some s, Some e => [mkSegment (c :: cs) s e]
  | _, _, _ => []
  end.

Fixpoint collectElement (el : StructuralElement) : list Segment :=
  match el with
  | Paragraph _ _ elements => flat_map collectRun elements
  | Table _ _ rows =>
      flat_map (fun row =>
        match row with
        | mkRow cells =>
            flat_map (fun cell =>
              match cell with
              | mkCell _ _ content => flat_map collectElement content
              end) cells
        end) rows
  | SectionBreak _ _ => []
  | TableOfContents _ _ => []
  end.

Definition collectTextFromContent (content : list StructuralElement)
  : list Segment :=
  flat_map collectElement content.

(** [fullText] is appended to in traversal order, before the sort. *)
Definition fullTextOf (segs : list Segment) : jsstring :=
  flat_map seg_text segs.

(** [Array.prototype.sort(cmp)]: a stable sort; [cmp a b <= 0] keeps [a]
    before [b]. *)
Section Sort.
Context {A : Type} (cmp : A -> A -> Z).

Fixpoint insertSorted (x : A) (l : list A) : list A :=
  match l with
  | [] => [x]
  | y :: t => if cmp x y <=? 0 then x :: l else y :: insertSorted x t
  end.

Fixpoint sortBy (l : list A) : list A :=
  match l with
  | [] => []
  | x :: t => insertSorted x (sortBy t)
  end.

End Sort.

(** [segments.sort((a, b) => a.start - b.start)]. *)
Definition sortSegments (segs : list Segment) : list Segment :=
  sortBy (fun a b => seg_start a - seg_start b) segs.

Definition flatten (content : list StructuralElement) : list Segment :=
  sortSegments (collectTextFromContent content).

(** ** Text locator (findTextRange, lines 112-174) *)

Record Range := mkRange { startIndex : Z; endIndex : Z }.

(** The loop [for (const seg of segments)] of lines 135-153, with its
    [break]; [startIndex] and [endIndex] enter as [-1]. *)
Fixpoint mapToDocument (segs : list Segment) (targetStart targetEnd : Z)
    (startIdx endIdx currentPos : Z) : Z * Z :=
  match segs with
  | [] => (startIdx, endIdx)
  | seg :: rest =>
      let segStart := currentPos in
      let segEnd := segStart + strlen (seg_text seg) in
      let startIdx' :=
        if (startIdx =? -1) && (segStart <=? targetStart)
           && (targetStart <? segEnd)
        then seg_start seg + (targetStart - segStart)
        else startIdx in
      if (segStart <? targetEnd) && (targetEnd <=? segEnd)
      then (startIdx', seg_start seg + (targetEnd - segStart))
      else mapToDocument rest targetStart targetEnd startIdx' endIdx segEnd
  end.

(** What the [while] loop produces: a returned value ([null] is [None]),
    or no value within the given number of iterations. *)
Inductive Outcome :=
| Returned (r : option Range)
| OutOfFuel.

(** The loop [while (foundCount < instance)]: one unit of fuel per
    iteration. *)
Fixpoint searchLoop (fuel : nat) (fullText : jsstring) (segs : list Segment)
    (textToFind : jsstring) (instance foundCount : Z) (searchStartIndex : nat)
  : Outcome :=
  match fuel with
  | O => OutOfFuel
  | S fuel' =>
      if foundCount <? instance then
        match indexOf fullText textToFind searchStartIndex with
        | None => Returned None
        | Some currentIndex =>
            let foundCount := foundCount + 1 in
            if foundCount =? instance then
              let targetStart := Z.of_nat currentIndex in
              let targetEnd := targetStart + strlen textToFind in
              let '(startIdx, endIdx) :=
                mapToDocument segs targetStart targetEnd (-1) (-1) 0 in
              if (startIdx =? -1) || (endIdx =? -1)
              then searchLoop fuel' fullText segs textToFind instance
                     (foundCount - 1) (S currentIndex)
              else Returned (Some (mkRange startIdx endIdx))
            else searchLoop fuel' fullText segs textToFind instance
                   foundCount (S currentIndex)
        end
      else Returned None
  end.

(** The search over given segments whose texts were appended to [fullText]
    in traversal order. For a non-empty needle every iteration moves
    [searchStartIndex] forward, so the fuel below is never used up (lemma
    [searchLoop_total]). *)
Definition locateIn (fullText : jsstring) (segs : list Segment)
    (textToFind : jsstring) (instance : Z) : Outcome :=
  searchLoop (S (length fullText)) fullText segs textToFind instance 0 0.

(** [findTextRange] on a fetched body. *)
Definition findTextRangeIn (content : list StructuralElement)
    (textToFind : jsstring) (instance : Z) : Outcome :=
  let collected := collectTextFromContent content in
  locateIn (fullTextOf collected) (sortSegments collected) textToFind instance.

(** The text locator over a segment sequence that is already in ascending
    order: the full text is the concatenation of the segment texts. *)
Definition findText (segs : list Segment) (needle : jsstring) (occurrence : Z)
  : Outcome :=
  locateIn (fullTextOf segs) segs needle occurrence.

(** ** Table and cell locator (lines 919-1087) *)

(** An error of the remote service: its [code] and [message]. *)
Record ApiError := mkApiError { err_code : Z; err_message : jsstring }.

(** What a function of this file can throw: a [UserError], a plain
    [Error], or an error of the remote service passed on as it came. *)
Inductive Exception :=
| UserError (message : String.string)
| JsError (message : String.string)
| ApiFailure (e : ApiError).

Inductive Res (A : Type) :=
| Ok (a : A)
| Throw (e : Exception).
Arguments Ok {A} a.
Arguments Throw {A} e.

(** [arr[i]] for a number [i]: [undefined] outside [0 .. length-1]. *)
Definition arrayGet {A} (arr : list A) (i : Z) : option A :=
  if i <? 0 then None else nth_error arr (Z.to_nat i).

Definition arrayLength {A} (arr : list A) : Z := Z.of_nat (length arr).

(** [!arr] for an array property [arr]: the absent array is the empty
    list. *)
Definition isAbsent {A} (arr : list A) : bool :=
  match arr with
  | [] => true
  | _ :: _ => false
  end.

Record TableCellRange := mkTableCellRange {
  cellStartIndex : option Z;
  cellEndIndex : option Z;
  contentStartIndex : option Z;
  contentEndIndex : option Z;
  hasContent : bool
}.

Record FoundTable := mkFoundTable {
  ft_table : list TableRow;
  ft_startIndex : Z;
  ft_endIndex : Z
}.

(** The first loop of [findTableAtIndex] (lines 935-956). The second test,
    [startIdx === tableStartIndex], is subsumed by the first. *)
Fixpoint findTableNear (content : list StructuralElement)
    (tableStartIndex : Z) : option FoundTable :=
  match content with
  | [] => None
  | el :: rest =>
      match el with
      | Table (Some startIdx) (Some endIdx) rows =>
          if (tableStartIndex - 10 <=? startIdx)
             && (startIdx <=? tableStartIndex + 10)
          then Some (mkFoundTable rows startIdx endIdx)
          else if startIdx =? tableStartIndex
          then Some (mkFoundTable rows startIdx endIdx)
          else findTableNear rest tableStartIndex
      | _ => findTableNear rest tableStartIndex
      end
  end.

(** The second loop of [findTableAtIndex] (lines 959-971). *)
Fixpoint findTableAfter (content : list StructuralElement)
    (tableStartIndex : Z) : option FoundTable :=
  match content with
  | [] => None
  | el :: rest =>
      match el with
      | Table (Some startIdx) (Some endIdx) rows =>
          if tableStartIndex <=? startIdx
          then Some (mkFoundTable rows startIdx endIdx)
          else findTableAfter rest tableStartIndex
      | _ => findTableAfter rest tableStartIndex
      end
  end.

Definition findTableAtIndexIn (content : list StructuralElement)
    (tableStartIndex : Z) : option FoundTable :=
  match findTableNear content tableStartIndex with
  | Some t => Some t
  | None => findTableAfter content tableStartIndex
  end.

(** The table search of [getTableCellRange] (lines 1009-1019): the
    tolerance window only. *)
Fixpoint findTargetTable (content : list StructuralElement)
    (tableStartIndex : Z) : option (list TableRow) :=
  match content with
  | [] => None
  | el :: rest =>
      match el with
      | Table (Some startIdx) _ rows =>
          if Z.abs (startIdx - tableStartIndex) <=? 10
          then Some rows
          else findTargetTable rest tableStartIndex
      | _ => findTargetTable rest tableStartIndex
      end
  end.

(** [elem.textRun?.content && elem.textRun.content.trim()]. *)
Definition runHasText (pe : ParagraphElement) : bool :=
  match pe_content pe with
  | Some c => trimIsNonEmpty c
  | None => false
  end.

(** The inner loops of lines 1056-1065: paragraphs of the cell's own
    content list. *)
Definition elementHasText (el : StructuralElement) : bool :=
  match el with
  | Paragraph _ _ elements => existsb runHasText elements
  | _ => false
  end.

Definition orElse {A} (o d : option A) : option A :=
  match o with Some _ => o | None => d end.

(** Lines 1040-1082. *)
Definition cellRangeOf (cell : TableCell) : TableCellRange :=
  let cellStart := cell_startIndex cell in
  let cellEnd := cell_endIndex cell in
  match cell_content cell with
  | [] => mkTableCellRange cellStart cellEnd cellStart cellEnd false
  | firstContent :: _ =>
      let lastContent := last (cell_content cell) firstContent in
      mkTableCellRange cellStart cellEnd
        (orElse (el_startIndex firstContent) cellStart)
        (orElse (el_endIndex lastContent) cellEnd)
        (existsb elementHasText (cell_content cell))
  end.

(** Reading a property of [undefined] raises a TypeError, which the
    [catch] of [getTableCellRange] rethrows under this message. *)
Definition cellRangeFailure : Exception :=
  JsError "Failed to get table cell range"%string.

(** [getTableCellRange] on a fetched body (lines 1008-1082). The two
    bound tests are [!tableRows || rowIndex >= tableRows.length] and
    [!tableCells || columnIndex >= tableCells.length]: an absent array
    yields null for every index, a present one lets a negative index
    through to the read of [undefined]. *)
Definition getTableCellRangeIn (content : list StructuralElement)
    (tableStartIndex rowIndex columnIndex : Z)
  : Res (option TableCellRange) :=
  match findTargetTable content tableStartIndex with
  | None => Ok None
  | Some tableRows =>
      if isAbsent tableRows || (arrayLength tableRows <=? rowIndex)
      then Ok None
      else
        match arrayGet tableRows rowIndex with
        | None => Throw cellRangeFailure
        | Some row =>
            if isAbsent (tableCells row)
               || (arrayLength (tableCells row) <=? columnIndex)
            then Ok None
            else
              match arrayGet (tableCells row) columnIndex with
              | None => Throw cellRangeFailure
              | Some cell => Ok (Some (cellRangeOf cell))
              end
        end
  end.

(** ** List-pattern detector (detectAndFormatLists, lines 461-488) *)

Inductive BulletPreset :=
| BULLET_DISC_CIRCLE_SQUARE
| NUMBERED_DECIMAL_NESTED
| NUMBERED_UPPERALPHA_ALPHA_ROMAN.

(** [/^[-*•]\s/.test(t)]. *)
Definition testBullet (t : jsstring) : bool :=
  match t with
  | g :: w :: _ => isBulletGlyph g && isWhitespace w
  | _ => false
  end.

(** [/^\d+[.)]\s/.test(t)]: the digits are taken greedily, and no shorter
    run of digits can be followed by [.] or [)]. *)
Definition testNumbered (t : jsstring) : bool :=
  match takeWhile isDigit t, dropWhile isDigit t with
  | _ :: _, p :: w :: _ => isDotOrParen p && isWhitespace w
  | _, _ => false
  end.

(** [/^[a-zA-Z][.)]\s/.test(t)]. *)
Definition testLettered (t : jsstring) : bool :=
  match t with
  | l :: p :: w :: _ => isLetter l && isDotOrParen p && isWhitespace w
  | _ => false
  end.

(** [t.match(/^[-*•]\s*/)?.[0].length]. *)
Definition matchBullet (t : jsstring) : option Z :=
  match t with
  | g :: rest =>
      if isBulletGlyph g
      then Some (1 + strlen (takeWhile isWhitespace rest))
      else None
  | [] => None
  end.

(** [t.match(/^\d+[.)]\s*/)?.[0].length]. *)
Definition matchNumbered (t : jsstring) : option Z :=
  match takeWhile isDigit t, dropWhile isDigit t with
  | d :: ds, p :: rest =>
      if isDotOrParen p
      then Some (strlen (d :: ds) + 1 + strlen (takeWhile isWhitespace rest))
      else None
  | _, _ => None
  end.

(** [t.match(/^[a-zA-Z][.)]\s*/)?.[0].length]. *)
Definition matchLettered (t : jsstring) : option Z :=
  match t with
  | l :: p :: rest =>
      if isLetter l && isDotOrParen p
      then Some (2 + strlen (takeWhile isWhitespace rest))
      else None
  | _ => None
  end.

(** [m?.[0].length || 0]. *)
Definition lengthOrZero (m : option Z) : Z :=
  match m with Some n => n | None => 0 end.

(** Phase 1: the text of a paragraph (lines 462-467). *)
Definition paragraphTextOf (elements : list ParagraphElement) : jsstring :=
  flat_map (fun pe => match pe_content pe with
                      | Some c => c
                      | None => []
                      end) elements.

(** Lines 470-488: [bulletPreset] and [markerLength]. *)
Definition classifyMarker (paragraphText : jsstring)
  : option BulletPreset * Z :=
  let trimmedText := trimStart paragraphText in
  if testBullet trimmedText
  then (Some BULLET_DISC_CIRCLE_SQUARE, lengthOrZero (matchBullet trimmedText))
  else if testNumbered trimmedText
  then (Some NUMBERED_DECIMAL_NESTED, lengthOrZero (matchNumbered trimmedText))
  else if testLettered trimmedText
  then (Some NUMBERED_UPPERALPHA_ALPHA_ROMAN,
        lengthOrZero (matchLettered trimmedText))
  else (None, 0).

(** ** Mutation requests and style builders (lines 263-380) *)

(** The schema's RgbColor, declared outside this file; components in
    units of 1/255. *)
Record RgbColor := mkRgbColor { red : Z; green : Z; blue : Z }.

(** The argument records of [types.ts], as the builders read them. *)
Record TextStyleArgs := mkTextStyleArgs {
  bold : option bool;
  italic : option bool;
  underline : option bool;
  strikethrough : option bool;
  fontSize : option Z;
  fontFamily : option jsstring;
  foregroundColor : option jsstring;
  backgroundColor : option jsstring;
  linkUrl : option jsstring
}.

Record ParagraphStyleArgs := mkParagraphStyleArgs {
  alignment : option jsstring;
  indentStart : option Z;
  indentEnd : option Z;
  spaceAbove : option Z;
  spaceBelow : option Z;
  namedStyleType : option jsstring;
  keepWithNext : option bool
}.

(** A style object under construction is the list of the properties set
    so far, in the order they were set. *)
Inductive TextStyleField :=
| TsBold (b : bool)
| TsItalic (b : bool)
| TsUnderline (b : bool)
| TsStrikethrough (b : bool)
| TsFontSize (magnitude : Z)
| TsWeightedFontFamily (family : jsstring)
| TsForegroundColor (c : RgbColor)
| TsBackgroundColor (c : RgbColor)
| TsLink (url : jsstring).

Inductive ParagraphStyleField :=
| PsAlignment (a : jsstring)
| PsIndentStart (magnitude : Z)
| PsIndentEnd (magnitude : Z)
| PsSpaceAbove (magnitude : Z)
| PsSpaceBelow (magnitude : Z)
| PsNamedStyleType (n : jsstring)
| PsKeepWithNext (b : bool).

Definition textFieldName (f : TextStyleField) : String.string :=
  match f with
  | TsBold _ => "bold"
  | TsItalic _ => "italic"
  | TsUnderline _ => "underline"
  | TsStrikethrough _ => "strikethrough"
  | TsFontSize _ => "fontSize"
  | TsWeightedFontFamily _ => "weightedFontFamily"
  | TsForegroundColor _ => "foregroundColor"
  | TsBackgroundColor _ => "backgroundColor"
  | TsLink _ => "link"
  end%string.

Definition paragraphFieldName (f : ParagraphStyleField) : String.string :=
  match f with
  | PsAlignment _ => "alignment"
  | PsIndentStart _ => "indentStart"
  | PsIndentEnd _ => "indentEnd"
  | PsSpaceAbove _ => "spaceAbove"
  | PsSpaceBelow _ => "spaceBelow"
  | PsNamedStyleType _ => "namedStyleType"
  | PsKeepWithNext _ => "keepWithNext"
  end%string.

(** The requests this file builds. An index that the source copies from a
    possibly absent property is an [option]. *)
Inductive Request :=
| InsertText (index : option Z) (text : jsstring)
| DeleteContentRange (startIndex endIndex : Z)
| InsertTable (rows columns index : Z)
| CreateParagraphBullets (startIndex endIndex : Z) (preset : BulletPreset)
| DeleteParagraphBullets (startIndex endIndex : Z)
| UpdateTextStyle (startIndex endIndex : option Z)
    (textStyle : list TextStyleField) (fields : list String.string)
| UpdateParagraphStyle (startIndex endIndex : option Z)
    (paragraphStyle : list ParagraphStyleField) (fields : list String.string).

(** [if (x !== undefined) { style.f = ...; fieldsToUpdate.push(...) }]. *)
Definition whenDefined {A B} (x : option A) (f : A -> B) : list B :=
  match x with
  | Some a => [f a]
  | None => []
  end.

(** The colour steps of lines 277-286, which may throw. *)
Definition colorField (hexToRgbColor : jsstring -> option RgbColor)
    (x : option jsstring) (f : RgbColor -> TextStyleField)
    (failure : String.string) : Res (list TextStyleField) :=
  match x with
  | None => Ok []
  | Some hex =>
      match hexToRgbColor hex with
      | Some rgb => Ok [f rgb]
      | None => Throw (UserError failure)
      end
  end.

Definition buildUpdateTextStyleRequest
    (hexToRgbColor : jsstring -> option RgbColor)
    (startIndex endIndex : option Z) (style : TextStyleArgs)
  : Res (option (Request * list String.string)) :=
  let plain :=
    whenDefined (bold style) TsBold
    ++ whenDefined (italic style) TsItalic
    ++ whenDefined (underline style) TsUnderline
    ++ whenDefined (strikethrough style) TsStrikethrough
    ++ whenDefined (fontSize style) TsFontSize
    ++ whenDefined (fontFamily style) TsWeightedFontFamily in
  match colorField hexToRgbColor (foregroundColor style) TsForegroundColor
          "Invalid foreground hex color format" with
  | Throw e => Throw e
  | Ok fg =>
      match colorField hexToRgbColor (backgroundColor style) TsBackgroundColor
              "Invalid background hex color format" with
      | Throw e => Throw e
      | Ok bg =>
          let textStyle :=
            plain ++ fg ++ bg ++ whenDefined (linkUrl style) TsLink in
          let fieldsToUpdate := map textFieldName textStyle in
          match fieldsToUpdate with
          | [] => Ok None
          | _ :: _ =>
              Ok (Some (UpdateTextStyle startIndex endIndex textStyle
                          fieldsToUpdate, fieldsToUpdate))
          end
      end
  end.

Definition buildUpdateParagraphStyleRequest
    (startIndex endIndex : option Z) (style : ParagraphStyleArgs)
  : option (Request * list String.string) :=
  let paragraphStyle :=
    whenDefined (alignment style) PsAlignment
    ++ whenDefined (indentStart style) PsIndentStart
    ++ whenDefined (indentEnd style) PsIndentEnd
    ++ whenDefined (spaceAbove style) PsSpaceAbove
    ++ whenDefined (spaceBelow style) PsSpaceBelow
    ++ whenDefined (namedStyleType style) PsNamedStyleType
    ++ whenDefined (keepWithNext style) PsKeepWithNext in
  let fieldsToUpdate := map paragraphFieldName paragraphStyle in
  match fieldsToUpdate with
  | [] => None
  | _ :: _ =>
      Some (UpdateParagraphStyle startIndex endIndex paragraphStyle
              fieldsToUpdate, fieldsToUpdate)
  end.

(** ** List conversion: the two request lists (lines 444-567) *)

(** Phase 1, lines 448-510, over the fetched body. *)
Fixpoint bulletRequests (content : list StructuralElement)
    (startIndex endIndex : option Z) : list Request :=
  match content with
  | [] => []
  | el :: rest =>
      let others := bulletRequests rest startIndex endIndex in
      match el with
      | Paragraph (Some paragraphStart) (Some paragraphEnd) elements =>
          let before :=
            match startIndex with
            | Some s => paragraphEnd <=? s
            | None => false
            end in
          let after :=
            match endIndex with
            | Some e => e <=? paragraphStart
            | None => false
            end in
          if before || after then others
          else
            match fst (classifyMarker (paragraphTextOf elements)) with
            | Some bulletPreset =>
                CreateParagraphBullets paragraphStart paragraphEnd bulletPreset
                :: others
            | None => others
            end
      | _ => others
      end
  end.

(** Phase 2, lines 539-546: the text of the runs that carry a start index,
    and the start index of the first of them. *)
Definition markerScanStep (acc : jsstring * Z) (pe : ParagraphElement)
  : jsstring * Z :=
  let '(paragraphText, textStartIndex) := acc in
  match pe_content pe, pe_startIndex pe with
  | Some (c :: cs), Some s =>
      (paragraphText ++ c :: cs,
       match paragraphText with [] => s | _ :: _ => textStartIndex end)
  | _, _ => acc
  end.

Definition markerScan (elementStart : Z) (elements : list ParagraphElement)
  : jsstring * Z :=
  fold_left markerScanStep elements ([], elementStart).

(** The [match] of line 551 against the alternation of the three marker
    patterns, each followed by [\s*]: the alternatives are tried in
    order. *)
Definition markerMatch (t : jsstring) : option Z :=
  match matchBullet t with
  | Some n => Some n
  | None =>
      match matchNumbered t with
      | Some n => Some n
      | None => matchLettered t
      end
  end.

(** Lines 533-566: the delete requests, in document order. *)
Fixpoint markerDeletes (content : list StructuralElement) : list Request :=
  match content with
  | [] => []
  | el :: rest =>
      match el with
      | Paragraph (Some elementStart) _ elements =>
          let '(paragraphText, textStartIndex) :=
            markerScan elementStart elements in
          let trimmedText := trimStart paragraphText in
          let leadingSpaces := strlen paragraphText - strlen trimmedText in
          match markerMatch trimmedText with
          | Some markerLength =>
              let deleteStart := textStartIndex + leadingSpaces in
              let deleteEnd := deleteStart + markerLength in
              DeleteContentRange deleteStart deleteEnd :: markerDeletes rest
          | None => markerDeletes rest
          end
      | _ => markerDeletes rest
      end
  end.

(** Lines 570-572: [deleteRequests.reverse()], the list then submitted. *)
Definition markerDeleteBatchOf (deleteRequests : list Request)
  : list Request :=
  rev deleteRequests.

Definition markerDeleteBatch (content : list StructuralElement)
  : list Request :=
  markerDeleteBatchOf (markerDeletes content).

(** ** Table population: the insertion list (createTableWithData) *)

Record CellInsertion := mkCellInsertion {
  ci_index : Z;
  ci_text : jsstring;
  ci_isBold : bool
}.

(** Lines 1249-1260: the first table at or after [insertIndex - 5]. *)
Fixpoint findInsertedTable (content : list StructuralElement)
    (insertIndex : Z) : option (list TableRow * Z) :=
  match content with
  | [] => None
  | el :: rest =>
      match el with
      | Table (Some startIdx) _ rows =>
          if insertIndex - 5 <=? startIdx then Some (rows, startIdx)
          else findInsertedTable rest insertIndex
      | _ => findInsertedTable rest insertIndex
      end
  end.

(** Lines 1281-1286: where the text of a cell is inserted. *)
Definition cellInsertionIndex (firstContent : StructuralElement) : option Z :=
  match firstContent with
  | Paragraph s _ (pe :: _) => orElse (pe_startIndex pe) s
  | _ => el_startIndex firstContent
  end.

(** [rows[dataRowIdx] && rows[dataRowIdx][0] &&
    rows[dataRowIdx][0].toLowerCase().includes('total')]. *)
Definition isTotalRow (rows : list (list jsstring)) (dataRowIdx : nat) : bool :=
  match nth_error rows dataRowIdx with
  | Some ((c :: cs) :: _) => includes (toLowerCase (c :: cs)) (str "total")
  | _ => false
  end.

(** Lines 1288-1307: the text and the bold flag of the cell at
    ([rowIdx], [colIdx]). *)
Definition cellTextAndBold (headers : list jsstring)
    (rows : list (list jsstring)) (boldHeaders boldTotalRow : bool)
    (rowIdx colIdx : nat) : jsstring * bool :=
  match rowIdx with
  | O => (nth colIdx headers [], boldHeaders)
  | S dataRowIdx =>
      (nth colIdx (nth dataRowIdx rows []) [],
       boldTotalRow && isTotalRow rows dataRowIdx)
  end.

(** The body of the inner loop, lines 1275-1316. *)
Definition cellInsertionOf (headers : list jsstring)
    (rows : list (list jsstring)) (boldHeaders boldTotalRow : bool)
    (rowIdx colIdx : nat) (cell : TableCell) : list CellInsertion :=
  match cell_content cell with
  | [] => []
  | firstContent :: _ =>
      let '(cellText, isBold) :=
        cellTextAndBold headers rows boldHeaders boldTotalRow rowIdx colIdx in
      match cellText, cellInsertionIndex firstContent with
      | _ :: _, Some cellStartIndex =>
          [mkCellInsertion cellStartIndex cellText isBold]
      | _, _ => []
      end
  end.

(** A [for (let i = 0; i < arr.length; i++)] loop that appends what its
    body yields. *)
Fixpoint forIndexed {A B} (body : nat -> A -> list B) (i : nat) (arr : list A)
  : list B :=
  match arr with
  | [] => []
  | x :: t => body i x ++ forIndexed body (S i) t
  end.

(** Lines 1267-1318. *)
Definition collectCellInsertions (tableRows : list TableRow)
    (headers : list jsstring) (rows : list (list jsstring))
    (boldHeaders boldTotalRow : bool) : list CellInsertion :=
  forIndexed (fun rowIdx row =>
    forIndexed (fun colIdx cell =>
      cellInsertionOf headers rows boldHeaders boldTotalRow rowIdx colIdx cell)
      0%nat (tableCells row)) 0%nat tableRows.

(** Line 1321: [cellInsertions.sort((a, b) => b.index - a.index)]. *)
Definition sortCellInsertions (l : list CellInsertion) : list CellInsertion :=
  sortBy (fun a b => ci_index b - ci_index a) l.

(** Lines 1324-1329. *)
Definition textRequestsOf (cellInsertions : list CellInsertion)
  : list Request :=
  map (fun cell => InsertText (Some (ci_index cell)) (ci_text cell))
      cellInsertions.

(** The insertion batch of a table, lines 1267-1329. *)
Definition tableInsertionBatch (tableRows : list TableRow)
    (headers : list jsstring) (rows : list (list jsstring))
    (boldHeaders boldTotalRow : bool) : list Request :=
  textRequestsOf
    (sortCellInsertions
       (collectCellInsertions tableRows headers rows boldHeaders boldTotalRow)).

(** Lines 1368-1389: the bold requests of one row of the re-fetched
    table. *)
Definition boldRunRequest (pe : ParagraphElement) : list Request :=
  if runHasText pe then
    match pe_startIndex pe, pe_endIndex pe with
    | Some s, Some e =>
        if s <? e
        then [UpdateTextStyle (Some s) (Some e) [TsBold true] ["bold"%string]]
        else []
    | _, _ => []
    end
  else [].

Definition boldCellRequests (cell : TableCell) : list Request :=
  flat_map (fun para =>
    match para with
    | Paragraph _ _ elements => flat_map boldRunRequest elements
    | _ => []
    end) (cell_content cell).

(** Lines 1352-1391. *)
Definition boldRowRequests (rows : list (list jsstring))
    (boldHeaders boldTotalRow : bool) (rowIdx : nat) (row : TableRow)
  : list Request :=
  let shouldBoldRow :=
    match rowIdx with
    | O => boldHeaders
    | S dataRowIdx => boldTotalRow && isTotalRow rows dataRowIdx
    end in
  if shouldBoldRow then flat_map boldCellRequests (tableCells row) else [].

(** Lines 1347-1394: the first table within 20 of the remembered start. *)
Fixpoint boldRequestsOf (content : list StructuralElement)
    (tableStartIndex : Z) (rows : list (list jsstring))
    (boldHeaders boldTotalRow : bool) : list Request :=
  match content with
  | [] => []
  | el :: rest =>
      match el with
      | Table (Some startIdx) _ tRows =>
          if Z.abs (startIdx - tableStartIndex) <=? 20
          then forIndexed (boldRowRequests rows boldHeaders boldTotalRow)
                 0%nat tRows
          else boldRequestsOf rest tableStartIndex rows boldHeaders boldTotalRow
      | _ => boldRequestsOf rest tableStartIndex rows boldHeaders boldTotalRow
      end
  end.

(** ** Cell editing: the content batch (editTableCell, lines 1118-1151) *)

Definition editRequests (cellRange : TableCellRange)
    (textContent : option jsstring) : list Request :=
  match textContent with
  | None => []
  | Some text =>
      let deletion :=
        if hasContent cellRange then
          match contentEndIndex cellRange, contentStartIndex cellRange with
          | Some contentEnd, Some contentStart =>
              let deleteEnd := contentEnd - 1 in
              if contentStart <? deleteEnd
              then [DeleteContentRange contentStart deleteEnd]
              else []
          | _, _ => []
          end
        else [] in
      let insertion :=
        match text with
        | [] => []
        | _ :: _ => [InsertText (contentStartIndex cellRange) text]
        end in
      deletion ++ insertion
  end.

(** ** Remote collaborators and the effect monad *)

Record BatchUpdateResponse := mkResponse {
  resp_documentId : option jsstring;
  resp_replies : list jsstring
}.

(** The object [{}]. *)
Definition emptyResponse : BatchUpdateResponse := mkResponse None [].

(** The collaborators of this file: the colour helper of [types.ts], and
    the two remote calls, as functions of the remote document. A read
    returns a view of the document (a field mask may narrow it); a write
    that succeeds returns its response and the new document. *)
Record Collaborators := mkCollaborators {
  hexToRgbColor : jsstring -> option RgbColor;
  documentsGet : Document -> ApiError + Document;
  documentsBatchUpdate :
    Document -> list Request -> ApiError + (BatchUpdateResponse * Document)
}.

Inductive Event :=
| GetCall
| BatchUpdateCall (requests : list Request)
| OversizeWarning (count : Z).

Record World := mkWorld { remoteDoc : Document; trace : list Event }.

Definition M (A : Type) : Type := Collaborators -> World -> Res A * World.

Definition ret {A} (a : A) : M A := fun _ w => (Ok a, w).

Definition throw {A} (e : Exception) : M A := fun _ w => (Throw e, w).

Definition bind {A B} (m : M A) (k : A -> M B) : M B :=
  fun c w =>
    match m c w with
    | (Ok a, w') => k a c w'
    | (Throw e, w') => (Throw e, w')
    end.

Notation "x <- m ;; k" := (bind m (fun x => k))
  (at level 61, m at next level, right associativity).
Notation "m ;;; k" := (bind m (fun _ => k))
  (at level 61, right associativity).

(** [try { m } catch (error) { throw handler(error) }]. *)
Definition rethrow {A} (m : M A) (handler : Exception -> Exception) : M A :=
  fun c w =>
    match m c w with
    | (Ok a, w') => (Ok a, w')
    | (Throw e, w') => (Throw (handler e), w')
    end.

Definition liftRes {A} (r : Res A) : M A := fun _ w => (r, w).

Definition emit (ev : Event) : M unit :=
  fun _ w => (Ok tt, mkWorld (remoteDoc w) (trace w ++ [ev])).

(** [await docs.documents.get(...)]. *)
Definition getDocument : M Document :=
  emit GetCall ;;;
  fun c w =>
    match documentsGet c (remoteDoc w) with
    | inl err => (Throw (ApiFailure err), w)
    | inr view => (Ok view, w)
    end.

(** [await docs.documents.batchUpdate(...)]. *)
Definition batchUpdate (requests : list Request) : M BatchUpdateResponse :=
  emit (BatchUpdateCall requests) ;;;
  fun c w =>
    match documentsBatchUpdate c (remoteDoc w) requests with
    | inl err => (Throw (ApiFailure err), w)
    | inr (data, doc') => (Ok data, mkWorld doc' (trace w))
    end.

(** ** executeBatchUpdate (lines 10-48) *)

Definition MAX_BATCH_UPDATE_REQUESTS : Z := 50.

Definition translateBatchError (e : Exception) : Exception :=
  match e with
  | ApiFailure err =>
      if (err_code err =? 400)
         && includes (err_message err) (str "Invalid requests")
      then UserError "Invalid request sent to Google Docs API."
      else if err_code err =? 404 then UserError "Document not found."
      else if err_code err =? 403
      then UserError "Permission denied for document."
      else JsError "Google API Error"
  | _ => e
  end.

(** [requests] is [None] when the argument is missing. *)
Definition executeBatchUpdate (requests : option (list Request))
  : M BatchUpdateResponse :=
  match requests with
  | None => ret emptyResponse
  | Some [] => ret emptyResponse
  | Some (r :: rs) =>
      let requests := r :: rs in
      (if MAX_BATCH_UPDATE_REQUESTS <? arrayLength requests
       then emit (OversizeWarning (arrayLength requests))
       else ret tt) ;;;
      rethrow (batchUpdate requests) translateBatchError
  end.

(** ** insertText (lines 398-407) *)

Definition insertText (text : jsstring) (index : Z) : M BatchUpdateResponse :=
  match text with
  | [] => ret emptyResponse
  | _ :: _ => executeBatchUpdate (Some [InsertText (Some index) text])
  end.

(** [if (requests.length > 0) { await executeBatchUpdate(requests) }]. *)
Definition submitIfAny (requests : list Request) : M BatchUpdateResponse :=
  match requests with
  | [] => ret emptyResponse
  | _ :: _ => executeBatchUpdate (Some requests)
  end.

(** ** The locators as remote operations *)

Definition translateSearchError (e : Exception) : Exception :=
  match e with
  | ApiFailure err =>
      if err_code err =? 404
      then UserError "Document not found while searching text."
      else if err_code err =? 403
      then UserError "Permission denied while searching text."
      else JsError "Failed to retrieve doc for text searching"
  | _ => JsError "Failed to retrieve doc for text searching"
  end.

Definition findTextRange (textToFind : jsstring) (instance : Z) : M Outcome :=
  rethrow
    (res <- getDocument ;;
     match body_content res with
     | None => ret (Returned None)
     | Some content => ret (findTextRangeIn content textToFind instance)
     end)
    translateSearchError.

Definition findTableAtIndex (tableStartIndex : Z) : M (option FoundTable) :=
  rethrow
    (res <- getDocument ;;
     match body_content res with
     | None => ret None
     | Some content => ret (findTableAtIndexIn content tableStartIndex)
     end)
    (fun _ => JsError "Failed to find table").

Definition getTableCellRange (tableStartIndex rowIndex columnIndex : Z)
  : M (option TableCellRange) :=
  rethrow
    (res <- getDocument ;;
     match body_content res with
     | None => ret None
     | Some content =>
         liftRes (getTableCellRangeIn content tableStartIndex rowIndex
                    columnIndex)
     end)
    (fun _ => cellRangeFailure).

(** ** editTableCell (lines 1101-1200) *)

Record EditResult := mkEditResult { success : bool }.

Definition isDefined {A} (x : option A) : bool :=
  match x with Some _ => true | None => false end.

(** Truthiness of an optional string. *)
Definition isNonEmpty (x : option jsstring) : bool :=
  match x with Some (_ :: _) => true | _ => false end.

Definition addIndex (i : option Z) (n : Z) : option Z :=
  match i with Some z => Some (z + n) | None => None end.

(** Lines 1164-1188: the style requests for the re-fetched cell. *)
Definition styleRequests (hex : jsstring -> option RgbColor)
    (updated : TableCellRange) (textContent : jsstring)
    (textStyle : option TextStyleArgs)
    (paragraphStyle : option ParagraphStyleArgs) : Res (list Request) :=
  let textStart := contentStartIndex updated in
  let textEnd := addIndex textStart (strlen textContent) in
  let fromParagraph :=
    match paragraphStyle with
    | Some ps =>
        match buildUpdateParagraphStyleRequest (contentStartIndex updated)
                (contentEndIndex updated) ps with
        | Some (request, _) => [request]
        | None => []
        end
    | None => []
    end in
  match textStyle with
  | Some ts =>
      match buildUpdateTextStyleRequest hex textStart textEnd ts with
      | Throw e => Throw e
      | Ok (Some (request, _)) => Ok (request :: fromParagraph)
      | Ok None => Ok fromParagraph
      end
  | None => Ok fromParagraph
  end.

Definition editTableCell (tableStartIndex rowIndex columnIndex : Z)
    (textContent : option jsstring) (textStyle : option TextStyleArgs)
    (paragraphStyle : option ParagraphStyleArgs) : M EditResult :=
  cellRange <- getTableCellRange tableStartIndex rowIndex columnIndex ;;
  match cellRange with
  | None => throw (UserError "Could not find cell")
  | Some cellRange =>
      submitIfAny (editRequests cellRange textContent) ;;;
      (if (isDefined textStyle || isDefined paragraphStyle)
          && isNonEmpty textContent
       then
         updatedCellRange <-
           getTableCellRange tableStartIndex rowIndex columnIndex ;;
         match updatedCellRange, textContent with
         | Some updated, Some text =>
             styles <- (fun c => liftRes
                          (styleRequests (hexToRgbColor c) updated text
                             textStyle paragraphStyle) c) ;;
             submitIfAny styles
         | _, _ => ret emptyResponse
         end
       else ret emptyResponse) ;;;
      ret (mkEditResult true)
  end.

(** ** detectAndFormatLists (lines 426-577) *)

Definition detectAndFormatLists (startIndex endIndex : option Z)
  : M BatchUpdateResponse :=
  res <- getDocument ;;
  match body_content res with
  | None => throw (UserError "Document has no content to format.")
  | Some content =>
      match bulletRequests content startIndex endIndex with
      | [] => ret emptyResponse
      | r :: rs =>
          result <- executeBatchUpdate (Some (r :: rs)) ;;
          updatedDoc <- getDocument ;;
          let deleteRequests :=
            match body_content updatedDoc with
            | Some updated => markerDeletes updated
            | None => []
            end in
          match deleteRequests with
          | [] => ret emptyResponse
          | _ :: _ =>
              executeBatchUpdate (Some (markerDeleteBatchOf deleteRequests))
          end ;;;
          ret result
      end
  end.

(** ** createTableWithData (lines 1213-1407) *)

Record TableResult := mkTableResult {
  tr_success : bool;
  tr_tableStartIndex : Z
}.

Definition createTableWithData (insertIndex : Z) (headers : list jsstring)
    (rows : list (list jsstring)) (boldHeaders boldTotalRow : bool)
  : M TableResult :=
  let numRows := arrayLength rows + 1 in
  let numCols := arrayLength headers in
  if numCols =? 0 then throw (UserError "Headers array cannot be empty")
  else
    executeBatchUpdate (Some [InsertTable numRows numCols insertIndex]) ;;;
    doc <- getDocument ;;
    match body_content doc with
    | None =>
        throw (JsError "Failed to fetch document content after table insertion")
    | Some content =>
        match findInsertedTable content insertIndex with
        | None => throw (JsError "Could not find the inserted table")
        | Some (tableRows, tableStartIndex) =>
            let cellInsertions :=
              sortCellInsertions
                (collectCellInsertions tableRows headers rows boldHeaders
                   boldTotalRow) in
            submitIfAny (textRequestsOf cellInsertions) ;;;
            (if existsb ci_isBold cellInsertions then
               docAfterText <- getDocument ;;
               match body_content docAfterText with
               | Some after =>
                   submitIfAny
                     (boldRequestsOf after tableStartIndex rows
                        boldHeaders boldTotalRow)
               | None => ret emptyResponse
               end
             else ret emptyResponse) ;;;
            ret (mkTableResult true tableStartIndex)
        end
    end.

(** ** getParagraphRange (lines 185-259) *)

(** A [for] loop that returns the first result its body yields. *)
Section FirstSome.
Context {A B : Type} (f : A -> option B).

Fixpoint firstSome (l : list A) : option B :=
  match l with
  | [] => None
  | x :: t =>
      match f x with
      | Some b => Some b
      | None => firstSome t
      end
  end.

End FirstSome.

(** The body of the loop of [findParagraphInContent] (lines 204-238): an
    element that holds the index yields its own range when it is a
    paragraph and the first paragraph found in its cells when it is a
    table; otherwise the loop goes on. *)
Fixpoint findParagraphInElement (indexWithin : Z) (el : StructuralElement)
  : option Range :=
  match el with
  | Paragraph (Some s) (Some e) _ =>
      if (s <=? indexWithin) && (indexWithin <? e)
      then Some (mkRange s e)
      else None
  | Table (Some s) (Some e) rows =>
      if (s <=? indexWithin) && (indexWithin <? e)
      then
        firstSome (fun row =>
          match row with
          | mkRow cells =>
              firstSome (fun cell =>
                match cell with
                | mkCell _ _ content =>
                    firstSome (findParagraphInElement indexWithin) content
                end) cells
          end) rows
      else None
  | _ => None
  end.

Definition findParagraphInContent (indexWithin : Z)
    (content : list StructuralElement) : option Range :=
  firstSome (findParagraphInElement indexWithin) content.

Definition translateParagraphError (e : Exception) : Exception :=
  match e with
  | ApiFailure err =>
      if err_code err =? 404
      then UserError "Document not found while finding paragraph."
      else if err_code err =? 403
      then UserError "Permission denied while accessing doc."
      else JsError "Failed to find paragraph"
  | _ => JsError "Failed to find paragraph"
  end.

Definition getParagraphRange (indexWithin : Z) : M (option Range) :=
  rethrow
    (res <- getDocument ;;
     match body_content res with
     | None => ret None
     | Some content => ret (findParagraphInContent indexWithin content)
     end)
    translateParagraphError.

(** ** createTable (lines 384-396) *)

Definition createTable (rows columns index : Z) : M BatchUpdateResponse :=
  if (rows <? 1) || (columns <? 1)
  then throw (UserError "Table must have at least 1 row and 1 column.")
  else executeBatchUpdate (Some [InsertTable rows columns index]).

(** ** Tabs (lines 788-897) *)

Record TabProperties := mkTabProperties {
  tabId : option jsstring;
  tabTitle : option jsstring
}.

(** [documentTab.body?.content]. *)
Record DocumentTab := mkDocumentTab {
  dt_content : option (list StructuralElement)
}.

#[warnings="-register-all"]
Inductive Tab : Type :=
| mkTab (tabProperties : option TabProperties)
    (documentTab : option DocumentTab) (childTabs : list Tab).

Definition tabProperties (t : Tab) : option TabProperties :=
  match t with mkTab p _ _ => p end.

Definition childTabs (t : Tab) : list Tab :=
  match t with mkTab _ _ c => c end.

(** [{ ...tab, level }]. *)
Record TabWithLevel := mkTabWithLevel { twl_tab : Tab; twl_level : Z }.

(** [addCurrentAndChildTabs] (lines 820-827), as the entries it pushes. *)
Fixpoint addCurrentAndChildTabs (level : Z) (tab : Tab) : list TabWithLevel :=
  match tab with
  | mkTab _ _ children =>
      mkTabWithLevel tab level
      :: flat_map (addCurrentAndChildTabs (level + 1)) children
  end.

(** [getAllTabs] (lines 802-812), on [doc.tabs]. *)
Definition getAllTabs (tabs : list Tab) : list TabWithLevel :=
  flat_map (addCurrentAndChildTabs 0) tabs.

Fixpoint jsstring_eqb (a b : jsstring) : bool :=
  match a, b with
  | [], [] => true
  | x :: a', y :: b' => (x =? y) && jsstring_eqb a' b'
  | _, _ => false
  end.

(** [tab.tabProperties?.tabId === tabId]. *)
Definition hasTabId (wanted : jsstring) (tab : Tab) : bool :=
  match tabProperties tab with
  | Some props =>
      match tabId props with
      | Some id => jsstring_eqb id wanted
      | None => false
      end
  | None => false
  end.

(** [searchTabs] of [findTabById] (lines 882-894), on one tab. *)
Fixpoint searchTab (wanted : jsstring) (tab : Tab) : option Tab :=
  if hasTabId wanted tab then Some tab
  else
    match tab with
    | mkTab _ _ children => firstSome (searchTab wanted) children
    end.

(** [findTabById] (lines 876-897), on [doc.tabs]. *)
Definition findTabById (tabs : list Tab) (wanted : jsstring) : option Tab :=
  firstSome (searchTab wanted) tabs.

(** [getTabTextLength] (lines 834-868): the runs of the paragraphs of the
    body and of the paragraphs that lie directly in a table cell. *)
Definition runsTextLength (elements : list ParagraphElement) : Z :=
  fold_right (fun pe total =>
    match pe_content pe with
    | Some c => strlen c + total
    | None => total
    end) 0 elements.

Definition cellElementTextLength (cellElement : StructuralElement) : Z :=
  match cellElement with
  | Paragraph _ _ elements => runsTextLength elements
  | _ => 0
  end.

Definition sumOver {A} (f : A -> Z) (l : list A) : Z :=
  fold_right (fun x total => f x + total) 0 l.

Definition elementTextLength (element : StructuralElement) : Z :=
  match element with
  | Paragraph _ _ elements => runsTextLength elements
  | Table _ _ rows =>
      sumOver (fun row =>
        sumOver (fun cell => sumOver cellElementTextLength (cell_content cell))
          (tableCells row)) rows
  | _ => 0
  end.

Definition getTabTextLength (documentTab : option DocumentTab) : Z :=
  match documentTab with
  | Some dt =>
      match dt_content dt with
      | Some content => sumOver elementTextLength content
      | None => 0
      end
  | None => 0
  end.

(** * Vocabulary of the properties *)

(** ** Well-formed trees

    Sibling ranges lie in document order without overlap; a child lies
    inside its parent. A text run ends at its start plus the length of its
    text. Section breaks and tables of contents carry no text and may lack
    indices (the first element of a body has no start index). A run without
    a start index is not constrained. *)

Section All.
Context {A : Type} (P : A -> Prop).

Fixpoint All (l : list A) : Prop :=
  match l with
  | [] => True
  | x :: t => P x /\ All t
  end.

End All.

Definition runLength (pe : ParagraphElement) : Z :=
  match pe_content pe with
  | Some c => strlen c
  | None => 0
  end.

Fixpoint runsWithin (lo hi : Z) (runs : list ParagraphElement) : Prop :=
  match runs with
  | [] => lo <= hi
  | pe :: t =>
      match pe_startIndex pe with
      | Some s => lo <= s /\ runsWithin (s + runLength pe) hi t
      | None => runsWithin lo hi t
      end
  end.

Definition spanOf (s e : option Z) : option (Z * Z) :=
  match s, e with
  | Some s, Some e => Some (s, e)
  | _, _ => None
  end.

Definition el_span (el : StructuralElement) : option (Z * Z) :=
  spanOf (el_startIndex el) (el_endIndex el).

Definition cell_span (c : TableCell) : option (Z * Z) :=
  spanOf (cell_startIndex c) (cell_endIndex c).

Fixpoint spansWithin (lo hi : Z) (spans : list (option (Z * Z))) : Prop :=
  match spans with
  | [] => lo <= hi
  | Some (s, e) :: t => lo <= s /\ s <= e /\ spansWithin e hi t
  | None :: t => spansWithin lo hi t
  end.

Fixpoint wfElement (el : StructuralElement) : Prop :=
  match el with
  | Paragraph (Some s) (Some e) runs => runsWithin s e runs
  | Table (Some s) (Some e) rows =>
      spansWithin s e (map cell_span (flat_map tableCells rows))
      /\ All (fun row =>
            match row with
            | mkRow cells =>
                All (fun cell =>
                  match cell with
                  | mkCell (Some cs) (Some ce) content =>
                      spansWithin cs ce (map el_span content)
                      /\ All wfElement content
                  | mkCell _ _ _ => False
                  end) cells
            end) rows
  | Paragraph _ _ _ => False
  | Table _ _ _ => False
  | SectionBreak _ _ => True
  | TableOfContents _ _ => True
  end.

Definition wfContent (lo hi : Z) (content : list StructuralElement) : Prop :=
  spansWithin lo hi (map el_span content) /\ All wfElement content.

Definition WellFormed (content : list StructuralElement) : Prop :=
  exists hi, wfContent 0 hi content.

(** Every text run carries both of its indices. *)
Definition runIndexed (pe : ParagraphElement) : Prop :=
  match pe_content pe with
  | Some _ => pe_startIndex pe <> None /\ pe_endIndex pe <> None
  | None => True
  end.

Fixpoint indexedElement (el : StructuralElement) : Prop :=
  match el with
  | Paragraph _ _ runs => All runIndexed runs
  | Table _ _ rows =>
      All (fun row =>
        match row with
        | mkRow cells =>
            All (fun cell =>
              match cell with
              | mkCell _ _ content => All indexedElement content
              end) cells
        end) rows
  | SectionBreak _ _ => True
  | TableOfContents _ _ => True
  end.

Definition Indexed (content : list StructuralElement) : Prop :=
  All indexedElement content.

(** The text of the runs of a tree, in document order: paragraphs in
    order, and every cell of every row of a table. *)
Fixpoint elementText (el : StructuralElement) : jsstring :=
  match el with
  | Paragraph _ _ runs => paragraphTextOf runs
  | Table _ _ rows =>
      flat_map (fun row =>
        match row with
        | mkRow cells =>
            flat_map (fun cell =>
              match cell with
              | mkCell _ _ content => flat_map elementText content
              end) cells
        end) rows
  | SectionBreak _ _ => []
  | TableOfContents _ _ => []
  end.

Definition documentText (content : list StructuralElement) : jsstring :=
  flat_map elementText content.

(** ** Segment sequences *)

(** Segments in ascending order without overlap, inside [lo .. hi]: each
    starts at or after the end of the text of the one before. *)
Fixpoint segsWithin (lo hi : Z) (segs : list Segment) : Prop :=
  match segs with
  | [] => lo <= hi
  | seg :: t =>
      lo <= seg_start seg
      /\ segsWithin (seg_start seg + strlen (seg_text seg)) hi t
  end.

Definition ascendingStart (a b : Segment) : Prop := seg_start a <= seg_start b.

(** Every segment the walker emits has a non-empty text. *)
Definition nonEmptyText (seg : Segment) : Prop := seg_text seg <> [].

(** The segments of one table cell. *)
Definition cellSegments (cell : TableCell) : list Segment :=
  flat_map collectElement (cell_content cell).

(** ** Matches of a needle *)

(** Every position at which the needle occurs, overlapping occurrences
    included, in ascending order; [i] is the position of [s]. *)
Fixpoint occurrencesFrom (s needle : jsstring) (i : nat) : list nat :=
  (if isPrefix needle s then [i] else [])
  ++ match s with
     | [] => []
     | _ :: s' => occurrencesFrom s' needle (S i)
     end.

Definition occurrences (text needle : jsstring) : list nat :=
  occurrencesFrom text needle 0.

(** The non-overlapping matches, left to right: after a match the scan
    resumes behind its last character. *)
Fixpoint nonOverlappingFrom (fuel : nat) (text needle : jsstring) (from : nat)
  : list nat :=
  match fuel with
  | O => []
  | S fuel' =>
      match indexOf text needle from with
      | None => []
      | Some p =>
          p :: nonOverlappingFrom fuel' text needle (p + length needle)
      end
  end.

Definition nonOverlappingMatches (text needle : jsstring) : list nat :=
  nonOverlappingFrom (S (length text)) text needle 0.

(** The document offset of the logical position [p]: through the segment
    whose logical span holds [p]. *)
Fixpoint offsetOfStart (segs : list Segment) (p : Z) : option Z :=
  match segs with
  | [] => None
  | seg :: rest =>
      if p <? strlen (seg_text seg) then Some (seg_start seg + p)
      else offsetOfStart rest (p - strlen (seg_text seg))
  end.

(** The document offset of the logical end [p]: through the segment whose
    logical span holds [p - 1]. *)
Fixpoint offsetOfEnd (segs : list Segment) (p : Z) : option Z :=
  match segs with
  | [] => None
  | seg :: rest =>
      if p <=? strlen (seg_text seg) then Some (seg_start seg + p)
      else offsetOfEnd rest (p - strlen (seg_text seg))
  end.

(** The range of the match of [needle] at logical position [p]. *)
Definition rangeOfMatch (segs : list Segment) (needle : jsstring) (p : nat)
  : option Range :=
  match offsetOfStart segs (Z.of_nat p),
        offsetOfEnd segs (Z.of_nat p + strlen needle) with
  | Some a, Some b => Some (mkRange a b)
  | _, _ => None
  end.

(** The range of the [k]-th match, counted from 1. *)
Definition kthMatch (segs : list Segment) (needle : jsstring) (k : Z)
  : option Range :=
  match nth_error (occurrences (fullTextOf segs) needle) (Z.to_nat (k - 1)) with
  | Some p => rangeOfMatch segs needle p
  | None => None
  end.

(** Offsets that cannot collide with the sentinel [-1]. *)
Definition segStartsNonNeg (segs : list Segment) : Prop :=
  Forall (fun seg => 0 <= seg_start seg) segs.

(** The range of the match number [n] (from 0) of a list of match
    positions. *)
Definition kthFrom (segs : list Segment) (needle : jsstring)
    (occs : list nat) (n : nat) : option Range :=
  match nth_error occs n with
  | Some p => rangeOfMatch segs needle p
  | None => None
  end.

(** ** Table lookup *)

(** A table whose start lies within 10 of the anchor, as the cell lookup
    tests it. *)
Definition tableInWindow (anchor : Z) (el : StructuralElement) : bool :=
  match el with
  | Table (Some s) _ _ => Z.abs (s - anchor) <=? 10
  | _ => false
  end.

(** The same window as [findTableAtIndex] tests it: both indices of the
    table are required. *)
Definition tableNear (anchor : Z) (el : StructuralElement) : bool :=
  match el with
  | Table (Some s) (Some _) _ => (anchor - 10 <=? s) && (s <=? anchor + 10)
  | _ => false
  end.

(** A table that starts at or after the anchor. *)
Definition tableAtOrAfter (anchor : Z) (el : StructuralElement) : bool :=
  match el with
  | Table (Some s) (Some _) _ => anchor <=? s
  | _ => false
  end.

Definition rowsOf (el : StructuralElement) : list TableRow :=
  match el with
  | Table _ _ rows => rows
  | _ => []
  end.

Definition foundTableOf (el : StructuralElement) : option FoundTable :=
  match el with
  | Table (Some s) (Some e) rows => Some (mkFoundTable rows s e)
  | _ => None
  end.

Definition bind_option {A B} (o : option A) (f : A -> option B) : option B :=
  match o with Some a => f a | None => None end.

(** The last element of a list, if any. *)
Definition lastOf {A} (l : list A) : option A :=
  match l with
  | [] => None
  | x :: t => Some (last t x)
  end.

(** ** Marker grammars *)

(** The three marker grammars of the list detector, on a text whose
    leading whitespace is trimmed; the marker runs to the end of the
    whitespace that follows it. *)
Inductive ListGrammar : jsstring -> BulletPreset -> Z -> Prop :=
| BulletMarker g w rest :
    isBulletGlyph g = true -> isWhitespace w = true ->
    ListGrammar (g :: w :: rest) BULLET_DISC_CIRCLE_SQUARE
      (1 + strlen (takeWhile isWhitespace (w :: rest)))
| NumberedMarker ds p w rest :
    ds <> [] -> forallb isDigit ds = true ->
    isDotOrParen p = true -> isWhitespace w = true ->
    ListGrammar (ds ++ p :: w :: rest) NUMBERED_DECIMAL_NESTED
      (strlen ds + 1 + strlen (takeWhile isWhitespace (w :: rest)))
| LetteredMarker l p w rest :
    isLetter l = true -> isDotOrParen p = true -> isWhitespace w = true ->
    ListGrammar (l :: p :: w :: rest) NUMBERED_UPPERALPHA_ALPHA_ROMAN
      (2 + strlen (takeWhile isWhitespace (w :: rest))).

(** ** Requests and traces *)

(** The start offset a request targets. *)
Definition requestOffset (r : Request) : option Z :=
  match r with
  | InsertText index _ => index
  | DeleteContentRange s _ => Some s
  | InsertTable _ _ index => Some index
  | CreateParagraphBullets s _ _ => Some s
  | DeleteParagraphBullets s _ => Some s
  | UpdateTextStyle s _ _ _ => s
  | UpdateParagraphStyle s _ _ _ => s
  end.

(** [a] targets a strictly greater start offset than [b]. *)
Definition offsetAbove (a b : Request) : Prop :=
  exists x y, requestOffset a = Some x /\ requestOffset b = Some y /\ y < x.

(** A request list in strictly descending order of start offset. *)
Definition strictlyDescending (batch : list Request) : Prop :=
  StronglySorted offsetAbove batch.

(** Requests with strictly ascending start offsets inside [lo .. hi). *)
Fixpoint ascendingOffsets (lo hi : Z) (l : list Request) : Prop :=
  match l with
  | [] => lo <= hi
  | r :: t =>
      match requestOffset r with
      | Some x => lo <= x /\ ascendingOffsets (x + 1) hi t
      | None => False
      end
  end.

(** The range an insertion or a deletion touches: an insertion touches
    its insertion point. *)
Definition targetOf (r : Request) : option (Z * Z) :=
  match r with
  | InsertText (Some index) _ => Some (index, index)
  | DeleteContentRange s e => Some (s, e)
  | _ => None
  end.

(** The start of one target lies inside the range of the other. *)
Definition overlapping (a b : Request) : Prop :=
  match targetOf a, targetOf b with
  | Some (s1, e1), Some (s2, e2) => s1 <= s2 < e1 \/ s2 <= s1 < e2
  | _, _ => False
  end.

(** Style arguments with every option undefined. *)
Definition noTextStyle : TextStyleArgs :=
  mkTextStyleArgs None None None None None None None None None.

Definition noParagraphStyle : ParagraphStyleArgs :=
  mkParagraphStyleArgs None None None None None None None.

(** The request lists of the write calls of a trace, in order. *)
Definition batchCalls (tr : list Event) : list (list Request) :=
  flat_map (fun ev => match ev with
                      | BatchUpdateCall requests => [requests]
                      | _ => []
                      end) tr.

Definition isStyleRequest (r : Request) : bool :=
  match r with
  | UpdateTextStyle _ _ _ _ => true
  | UpdateParagraphStyle _ _ _ _ => true
  | _ => false
  end.

(** A collaborator that knows no colour, reads the document as it is and
    accepts every write without changing the document. *)
Definition idleCollaborators : Collaborators :=
  mkCollaborators (fun _ => None) (fun doc => inr doc)
    (fun doc _ => inr (emptyResponse, doc)).

(** A body that a read of the collaborator can return. *)
Definition Fetched (c : Collaborators) (content : list StructuralElement)
  : Prop :=
  exists doc view,
    documentsGet c doc = inr view /\ body_content view = Some content.

(** Every request list that the operation [m] submits, from any world,
    satisfies [P]. *)
Definition Sends {A} (c : Collaborators) (P : list Request -> Prop) (m : M A)
  : Prop :=
  forall w, exists sent,
    batchCalls (trace (snd (m c w))) = batchCalls (trace w) ++ sent
    /\ Forall P sent.

(** A collaborator whose reads always return the body [content]. *)
Definition fixedReader (content : list StructuralElement) : Collaborators :=
  mkCollaborators (fun _ => None)
    (fun _ => inr (mkDocument (Some content)))
    (fun doc _ => inr (emptyResponse, doc)).

(** The offset at which a cell takes its text, if it has one. *)
Definition cellOffset (cell : TableCell) : list Z :=
  match cell_content cell with
  | firstContent :: _ =>
      match cellInsertionIndex firstContent with
      | Some index => [index]
      | None => []
      end
  | [] => []
  end.

(** The insertion offsets of the cells of a table, row by row. *)
Definition cellStartOffsets (tableRows : list TableRow) : list Z :=
  flat_map (fun row => flat_map cellOffset (tableCells row)) tableRows.

(** ** Example documents *)

(** A table of two rows and three columns that starts at offset 50. *)
Definition twoByThree : list StructuralElement :=
  let cell (s : Z) :=
    mkCell (Some s) (Some (s + 2))
      [Paragraph (Some (s + 1)) (Some (s + 2))
         [mkPE (Some (s + 1)) (Some (s + 2)) (Some [LF])]] in
  [ SectionBreak None (Some 1);
    Paragraph (Some 1) (Some 50)
      [mkPE (Some 1) (Some 50) (Some (repeat 120 48 ++ [LF]))];
    Table (Some 50) (Some 65)
      [mkRow [cell 52; cell 54; cell 56];
       mkRow [cell 59; cell 61; cell 63]] ].

(** A paragraph from 1 to 4 and a table from 4 to 11; its single cell,
    from 6 to 10, holds the text cd and its newline from 7 to 10. The
    offsets 4, 5 and 6 hold the table, row and cell boundaries. *)
Definition filledCellBody : list StructuralElement :=
  [ SectionBreak None (Some 1);
    Paragraph (Some 1) (Some 4)
      [mkPE (Some 1) (Some 4) (Some (str "ab" ++ [LF]))];
    Table (Some 4) (Some 11)
      [mkRow [mkCell (Some 6) (Some 10)
                [Paragraph (Some 7) (Some 10)
                   [mkPE (Some 7) (Some 10) (Some (str "cd" ++ [LF]))]]]] ].

(** Three paragraphs: a numbered item, plain text, a bulleted item. *)
Definition listBody : list StructuralElement :=
  [ SectionBreak None (Some 1);
    Paragraph (Some 1) (Some 15)
      [mkPE (Some 1) (Some 15) (Some (str "1. First item" ++ [LF]))];
    Paragraph (Some 15) (Some 26)
      [mkPE (Some 15) (Some 26) (Some (str "Not a list" ++ [LF]))];
    Paragraph (Some 26) (Some 30)
      [mkPE (Some 26) (Some 30) (Some (str "- x" ++ [LF]))] ].

(** The segments of the text-search scenario. *)
Definition helloSegments : list Segment :=
  [ mkSegment (str "Hello world. ") 1 14;
    mkSegment (str "Hello again.") 14 26 ].

(** The rows of the table of [twoByThree]. *)
Definition twoByThreeRows : list TableRow :=
  rowsOf (nth 2 twoByThree (SectionBreak None None)).

(** A remote document that holds [twoByThree], before any call. *)
Definition twoByThreeWorld : World :=
  mkWorld (mkDocument (Some twoByThree)) [].

Definition boldOnly : TextStyleArgs :=
  mkTextStyleArgs (Some true) None None None None None None None None.

(** ** Vocabulary of the further properties *)

(** The ranges of the paragraphs of a tree that carry both indices, at
    every depth, in document order. *)
Fixpoint paragraphRangesOf (el : StructuralElement) : list Range :=
  match el with
  | Paragraph (Some s) (Some e) _ => [mkRange s e]
  | Table _ _ rows =>
      flat_map (fun row =>
        match row with
        | mkRow cells =>
            flat_map (fun cell =>
              match cell with
              | mkCell _ _ content => flat_map paragraphRangesOf content
              end) cells
        end) rows
  | _ => []
  end.

Definition paragraphRanges (content : list StructuralElement) : list Range :=
  flat_map paragraphRangesOf content.

(** The range [r] holds the index [i]. *)
Definition holds (r : Range) (i : Z) : Prop := startIndex r <= i < endIndex r.

(** The paragraph ranges of one cell. *)
Definition cellParagraphRanges (cell : TableCell) : list Range :=
  flat_map paragraphRangesOf (cell_content cell).

(** The search of [findParagraphInContent] inside one cell. *)
Definition findParagraphInCell (indexWithin : Z) (cell : TableCell)
  : option Range :=
  firstSome (findParagraphInElement indexWithin) (cell_content cell).

(** What a chained node list may say of the ranges of its nodes. *)
Definition rangesInSpan {A} (span : A -> option (Z * Z))
    (ranges : A -> list Range) (x : A) : Prop :=
  match span x with
  | Some (s, e) =>
      forall r, In r (ranges x) -> s <= startIndex r /\ endIndex r <= e
  | None => ranges x = []
  end.

(** No cell of the table holds a table of its own. *)
Definition cellsHoldNoTable (el : StructuralElement) : Prop :=
  match el with
  | Table _ _ rows =>
      forall row cell inner,
        In row rows -> In cell (tableCells row) ->
        In inner (cell_content cell) ->
        match inner with Table _ _ _ => False | _ => True end
  | _ => True
  end.

(** The number of tabs of a forest of tabs. *)
Fixpoint tabCount (tab : Tab) : nat :=
  match tab with
  | mkTab _ _ children =>
      S (fold_right (fun c n => (tabCount c + n)%nat) 0%nat children)
  end.

(** A small forest: a tab with two children, one of which has a child,
    then a second top-level tab. [namedTab] sets the identifier only. *)
Definition namedTab (id : String.string) (children : list Tab) : Tab :=
  mkTab (Some (mkTabProperties (Some (str id)) None)) None children.

Definition tabForest : list Tab :=
  [ namedTab "a" [namedTab "b" [namedTab "c" []]; namedTab "d" []];
    namedTab "e" [] ].

(** The first [n] code units of a text: the marker that a match of
    length [n] covers. *)
Definition markerOf (t : jsstring) (n : Z) : jsstring :=
  firstn (Z.to_nat n) t.

(** A deletion of a range that is not empty. *)
Definition deletesSome (r : Request) : Prop :=
  exists s e, r = DeleteContentRange s e /\ s < e.

(** A body whose paragraphs and tables have indices but hold no text. *)
Definition textlessBody : list StructuralElement :=
  [ SectionBreak None (Some 1);
    Paragraph (Some 1) (Some 2) [mkPE (Some 1) (Some 2) None];
    Table (Some 2) (Some 6)
      [mkRow [mkCell (Some 3) (Some 5)
                [Paragraph (Some 4) (Some 5) [mkPE (Some 4) (Some 5) (Some [])]]]] ].

(** The range test of the first pass (lines 458-459): the paragraph
    [ps .. pe) is kept unless it ends at or before the start given, or
    starts at or after the end given. *)
Definition keptByRange (startIndex endIndex : option Z) (ps pe : Z) : Prop :=
  (forall s, startIndex = Some s -> s < pe)
  /\ (forall e, endIndex = Some e -> ps < e).

(** The world after one read that changed nothing. *)
Definition afterRead (w : World) : World :=
  mkWorld (remoteDoc w) (trace w ++ [GetCall]).

(** An exception made by this file, not an error of the remote service
    passed on as it came. *)
Definition translated (e : Exception) : Prop :=
  match e with
  | ApiFailure _ => False
  | _ => True
  end.

(** A collaborator whose every call fails: reads with 404, writes with
    500. *)
Definition failingCollaborators : Collaborators :=
  mkCollaborators (fun _ => None)
    (fun _ => inl (mkApiError 404 []))
    (fun _ _ => inl (mkApiError 500 [])).

(** The number of reads among the events of a trace. *)
Definition reads (tr : list Event) : nat :=
  length (filter (fun ev => match ev with GetCall => true | _ => false end) tr).

(** The number of writes among the events of a trace. *)
Definition writes (tr : list Event) : nat := length (batchCalls tr).

(** The operation [m] only adds events to the trace, among them at most
    [r] reads and at most [wr] writes, from any world. *)
Definition Budget {A} (c : Collaborators) (r wr : nat) (m : M A) : Prop :=
  forall w, exists evs,
    trace (snd (m c w)) = trace w ++ evs
    /\ (reads evs <= r)%nat /\ (writes evs <= wr)%nat.

(** A collaborator whose writes succeed and leave a document without a
    body, and whose reads fail on such a document. *)
Definition forgetfulCollaborators : Collaborators :=
  mkCollaborators (fun _ => None)
    (fun doc => match body_content doc with
                | Some _ => inr doc
                | None => inl (mkApiError 500 [])
                end)
    (fun _ _ => inr (emptyResponse, mkDocument None)).

(** A table carries its end index. *)
Definition tableHasEnd (el : StructuralElement) : Prop :=
  match el with
  | Table _ None _ => False
  | _ => True
  end.

(** The request touches the cell [cs .. ce) only: a deletion lies inside
    it and ends before its last position, an insertion of text that is
    not empty goes to one of its positions. *)
Definition insideCell (cs ce : Z) (r : Request) : Prop :=
  match r with
  | DeleteContentRange s e => cs <= s /\ s < e /\ e < ce
  | InsertText (Some i) t => cs <= i <= ce /\ t <> []
  | _ => False
  end.

(** The single cell of [filledCellBody]. *)
Definition filledCell : TableCell :=
  mkCell (Some 6) (Some 10)
    [Paragraph (Some 7) (Some 10)
       [mkPE (Some 7) (Some 10) (Some (str "cd" ++ [LF]))]].

(** A collaborator whose writes succeed and leave a document with an
    empty body, and whose reads return the document as it is. *)
Definition erasingCollaborators : Collaborators :=
  mkCollaborators (fun _ => None) (fun doc => inr doc)
    (fun _ _ => inr (emptyResponse, mkDocument (Some []))).

(** An element as the reads of the list conversion return it. Their field
    mask (lines 437 and 529) asks, of a paragraph, for the text of its
    runs only: no run carries a start index. *)
Definition runsLackStart (el : StructuralElement) : Prop :=
  match el with
  | Paragraph _ _ elements =>
      Forall (fun pe => pe_startIndex pe = None) elements
  | _ => True
  end.

(** A collaborator that honours that field mask: every body it returns is
    made of such elements. *)
Definition MaskedReads (c : Collaborators) : Prop :=
  forall doc view content,
    documentsGet c doc = inr view ->
    body_content view = Some content ->
    Forall runsLackStart content.

(** The three paragraphs of [listBody] as that field mask returns them. *)
Definition maskedListBody : list StructuralElement :=
  [ SectionBreak None (Some 1);
    Paragraph (Some 1) (Some 15)
      [mkPE None None (Some (str "1. First item" ++ [LF]))];
    Paragraph (Some 15) (Some 26)
      [mkPE None None (Some (str "Not a list" ++ [LF]))];
    Paragraph (Some 26) (Some 30)
      [mkPE None None (Some (str "- x" ++ [LF]))] ].

(** * Properties *)

(** ** Induction over trees *)

Lemma StructuralElement_nested_ind (P : StructuralElement -> Prop) :
  (forall s e runs, P (Paragraph s e runs)) ->
  (forall s e rows,
      Forall (fun row =>
        Forall (fun cell => Forall P (cell_content cell)) (tableCells row))
        rows ->
      P (Table s e rows)) ->
  (forall s e, P (SectionBreak s e)) ->
  (forall s e, P (TableOfContents s e)) ->
  forall el, P el.
Proof.
  intros HP HT HS HC.
  fix IH 1.
  intros [s e runs | s e rows | s e | s e].
  - apply HP.
  - apply HT.
    induction rows as [| [cells] rows IHrows]; constructor; [| exact IHrows].
    simpl.
    induction cells as [| [cs ce content] cells IHcells];
      constructor; [| exact IHcells].
    simpl.
    induction content as [| el content IHcontent]; constructor;
      [apply IH | exact IHcontent].
  - apply HS.
  - apply HC.
Qed.

Lemma All_Forall {A} (P : A -> Prop) (l : list A) : All P l <-> Forall P l.
Proof.
  induction l as [| x t IH]; simpl.
  - split; auto.
  - rewrite IH. split.
    + intros [Hx Ht]. constructor; assumption.
    + intros H. inversion H; subst. split; assumption.
Qed.

Lemma strlen_nonneg (s : jsstring) : 0 <= strlen s.
Proof. unfold strlen. lia. Qed.

Lemma strlen_app (s t : jsstring) : strlen (s ++ t) = strlen s + strlen t.
Proof. unfold strlen. rewrite length_app. lia. Qed.

Lemma strlen_cons (c : char16) (s : jsstring) : strlen (c :: s) = 1 + strlen s.
Proof. unfold strlen. simpl length. lia. Qed.

(** ** Segment chains *)

Lemma segsWithin_weaken lo lo' hi hi' segs :
  lo' <= lo -> hi <= hi' -> segsWithin lo hi segs -> segsWithin lo' hi' segs.
Proof.
  revert lo lo'. induction segs as [| seg t IH]; simpl; intros lo lo' Hlo Hhi H.
  - lia.
  - destruct H as [H1 H2]. split; [lia |].
    eapply IH; [| exact Hhi | exact H2]. lia.
Qed.

Lemma segsWithin_app lo mid hi l1 l2 :
  segsWithin lo mid l1 -> segsWithin mid hi l2 -> segsWithin lo hi (l1 ++ l2).
Proof.
  revert lo. induction l1 as [| seg t IH]; simpl; intros lo H1 H2.
  - eapply segsWithin_weaken; [exact H1 | apply Z.le_refl | exact H2].
  - destruct H1 as [Hlo Ht]. split; [exact Hlo |]. apply IH; assumption.
Qed.

Lemma runLength_nonneg pe : 0 <= runLength pe.
Proof.
  unfold runLength. destruct (pe_content pe); [apply strlen_nonneg | lia].
Qed.

Lemma collectRun_cases pe :
  (collectRun pe = []) \/
  (exists s e c, pe_startIndex pe = Some s /\ pe_endIndex pe = Some e
                 /\ pe_content pe = Some c /\ c <> []
                 /\ collectRun pe = [mkSegment c s e]).
Proof.
  unfold collectRun.
  destruct (pe_content pe) as [[| c cs] |]; auto.
  destruct (pe_startIndex pe) as [s |], (pe_endIndex pe) as [e |]; auto.
  right. exists s, e, (c :: cs). repeat split; congruence.
Qed.

Lemma runs_segsWithin lo hi runs :
  runsWithin lo hi runs -> segsWithin lo hi (flat_map collectRun runs).
Proof.
  revert lo. induction runs as [| pe t IH]; simpl; intros lo H.
  - exact H.
  - destruct (collectRun_cases pe) as [E | (s & e & c & Es & Ee & Ec & Hc & E)];
      rewrite E; simpl.
    + destruct (pe_startIndex pe) as [s |].
      * destruct H as [Hlo Ht]. apply IH in Ht.
        pose proof (runLength_nonneg pe).
        eapply segsWithin_weaken; [| apply Z.le_refl | exact Ht]. lia.
      * apply IH. exact H.
    + rewrite Es in H. destruct H as [Hlo Ht]. split; [exact Hlo |].
      apply IH. unfold runLength in Ht. rewrite Ec in Ht. exact Ht.
Qed.

(** A list of nodes whose spans are chained, each node yielding segments
    inside its own span, yields a chain of segments. *)
Lemma spans_segsWithin {A} (span : A -> option (Z * Z))
    (f : A -> list Segment) (l : list A) :
  Forall (fun x => match span x with
                   | Some (s, e) => s <= e -> segsWithin s e (f x)
                   | None => f x = []
                   end) l ->
  forall lo hi, spansWithin lo hi (map span l) ->
                segsWithin lo hi (flat_map f l).
Proof.
  induction 1 as [| x t Hx Ht IH]; simpl; intros lo hi H.
  - exact H.
  - destruct (span x) as [[s e] |].
    + destruct H as (Hlo & Hse & Hrest).
      apply segsWithin_app with (mid := e).
      * eapply segsWithin_weaken; [exact Hlo | apply Z.le_refl | auto].
      * apply IH. exact Hrest.
    + rewrite Hx. simpl. apply IH. exact H.
Qed.

Lemma flat_map_flat_map {A B C} (f : A -> list B) (g : B -> list C) l :
  flat_map g (flat_map f l) = flat_map (fun x => flat_map g (f x)) l.
Proof.
  induction l as [| x t IH]; simpl; [reflexivity |].
  rewrite flat_map_app, IH. reflexivity.
Qed.

Lemma collectElement_table s e rows :
  collectElement (Table s e rows)
  = flat_map cellSegments (flat_map tableCells rows).
Proof.
  rewrite flat_map_flat_map. simpl.
  apply flat_map_ext. intros [cells]. simpl.
  apply flat_map_ext. intros [cs ce content]. reflexivity.
Qed.

Lemma wfElement_segsWithin el :
  wfElement el ->
  match el_span el with
  | Some (s, e) => s <= e -> segsWithin s e (collectElement el)
  | None => collectElement el = []
  end.
Proof.
  induction el as [s e runs | s e rows IH | s e | s e]
    using StructuralElement_nested_ind; intros Hwf.
  - simpl in Hwf. destruct s as [s |], e as [e |]; try contradiction.
    simpl. intros _. apply runs_segsWithin. exact Hwf.
  - simpl in Hwf. destruct s as [s |], e as [e |]; try contradiction.
    destruct Hwf as [Hspans Hcells].
    unfold el_span. simpl el_startIndex. simpl el_endIndex. simpl spanOf.
    intros _. rewrite collectElement_table.
    apply spans_segsWithin with (span := cell_span); [| exact Hspans].
    apply Forall_flat_map.
    rewrite All_Forall in Hcells.
    rewrite Forall_forall in *. intros [cells] Hin.
    specialize (IH _ Hin). specialize (Hcells _ Hin). simpl in *.
    rewrite All_Forall in Hcells. rewrite Forall_forall in *.
    intros [cs ce content] Hin'.
    specialize (IH _ Hin'). specialize (Hcells _ Hin'). simpl in *.
    destruct cs as [cs |], ce as [ce |]; try contradiction.
    unfold cell_span. simpl. intros _. destruct Hcells as [Hsp Hall].
    unfold cellSegments. simpl.
    apply spans_segsWithin with (span := el_span); [| exact Hsp].
    rewrite All_Forall in Hall. rewrite Forall_forall in *.
    intros el Hel. apply IH; auto.
  - unfold el_span. simpl. destruct (spanOf s e) as [[a b] |]; simpl; auto.
  - unfold el_span. simpl. destruct (spanOf s e) as [[a b] |]; simpl; auto.
Qed.

Lemma wfContent_segsWithin lo hi content :
  wfContent lo hi content ->
  segsWithin lo hi (collectTextFromContent content).
Proof.
  intros [Hsp Hall]. unfold collectTextFromContent.
  apply spans_segsWithin with (span := el_span); [| exact Hsp].
  rewrite All_Forall in Hall. rewrite Forall_forall in *.
  intros el Hel. apply wfElement_segsWithin. auto.
Qed.

(** ** The stable sort *)

Section SortFacts.
Context {A : Type} (cmp : A -> A -> Z).
Let before (a b : A) : Prop := cmp a b <= 0.
Hypothesis cmp_total : forall a b, 0 < cmp a b -> cmp b a <= 0.
Hypothesis cmp_trans :
  forall a b c, cmp a b <= 0 -> cmp b c <= 0 -> cmp a c <= 0.

Lemma insertSorted_perm x l : Permutation (insertSorted cmp x l) (x :: l).
Proof.
  induction l as [| y t IH]; simpl; [reflexivity |].
  destruct (cmp x y <=? 0); [reflexivity |].
  rewrite IH. apply perm_swap.
Qed.

Lemma sortBy_perm l : Permutation (sortBy cmp l) l.
Proof.
  induction l as [| x t IH]; simpl; [reflexivity |].
  rewrite insertSorted_perm. constructor. exact IH.
Qed.

Lemma insertSorted_sorted x l :
  StronglySorted before l -> StronglySorted before (insertSorted cmp x l).
Proof.
  induction 1 as [| y t Ht IH Hy]; simpl.
  - constructor; constructor.
  - destruct (Z.leb_spec (cmp x y) 0) as [Hle | Hgt].
    + constructor; [constructor; assumption |].
      constructor; [exact Hle |].
      rewrite Forall_forall in *. intros z Hz.
      eapply cmp_trans; [exact Hle | apply Hy; exact Hz].
    + constructor; [exact IH |].
      rewrite Forall_forall in *. intros z Hz.
      apply (Permutation_in _ (insertSorted_perm x t)) in Hz.
      destruct Hz as [<- | Hz];
        [apply cmp_total; exact Hgt | apply Hy; exact Hz].
Qed.

Lemma sortBy_sorted l : StronglySorted before (sortBy cmp l).
Proof.
  induction l as [| x t IH]; simpl; [constructor |].
  apply insertSorted_sorted. exact IH.
Qed.

(** The sort leaves a list that is already in order as it is. *)
Lemma sortBy_id l : Sorted before l -> sortBy cmp l = l.
Proof.
  induction 1 as [| x t Ht IH Hx]; simpl; [reflexivity |].
  rewrite IH. destruct Hx as [| y t' Hxy]; simpl; [reflexivity |].
  unfold before in Hxy. apply Z.leb_le in Hxy. rewrite Hxy. reflexivity.
Qed.

End SortFacts.

Lemma segsWithin_Sorted lo hi segs :
  segsWithin lo hi segs ->
  Sorted (fun a b => seg_start a - seg_start b <= 0) segs.
Proof.
  revert lo. induction segs as [| seg t IH]; simpl; intros lo H.
  - constructor.
  - destruct H as [Hlo Ht]. constructor; [eapply IH; exact Ht |].
    destruct t as [| seg' t']; constructor.
    simpl in Ht. destruct Ht as [Hs _].
    pose proof (strlen_nonneg (seg_text seg)). lia.
Qed.

Lemma sortSegments_sorted segs :
  StronglySorted ascendingStart (sortSegments segs).
Proof.
  unfold sortSegments.
  eapply StronglySorted_ind with
    (P := fun l => StronglySorted ascendingStart l);
    [constructor | | apply sortBy_sorted with
                       (cmp := fun a b => seg_start a - seg_start b)].
  - intros a l Hl IH Ha. constructor; [exact IH |].
    eapply Forall_impl; [| exact Ha]. unfold ascendingStart. simpl. intros; lia.
  - intros; lia.
  - intros; lia.
Qed.

Lemma sortSegments_id lo hi segs :
  segsWithin lo hi segs -> sortSegments segs = segs.
Proof.
  intros H. apply sortBy_id. eapply segsWithin_Sorted. exact H.
Qed.

(** ** Text of the collected segments *)

Lemma fullTextOf_flat_map {A} (f : A -> list Segment) l :
  fullTextOf (flat_map f l) = flat_map (fun x => fullTextOf (f x)) l.
Proof. apply flat_map_flat_map. Qed.

Lemma fullTextOf_collectRun pe :
  runIndexed pe ->
  fullTextOf (collectRun pe)
  = match pe_content pe with Some c => c | None => [] end.
Proof.
  unfold runIndexed, collectRun.
  destruct (pe_content pe) as [[| c cs] |]; try reflexivity.
  intros [Hs He].
  destruct (pe_startIndex pe), (pe_endIndex pe); try congruence.
  simpl. rewrite app_nil_r. reflexivity.
Qed.

Lemma flat_map_ext_in {A B} (f g : A -> list B) l :
  (forall x, In x l -> f x = g x) -> flat_map f l = flat_map g l.
Proof.
  induction l as [| x t IH]; simpl; intros H; [reflexivity |].
  rewrite H by (left; reflexivity). rewrite IH; [reflexivity |].
  intros y Hy. apply H. right. exact Hy.
Qed.

Lemma indexedElement_text el :
  indexedElement el -> fullTextOf (collectElement el) = elementText el.
Proof.
  induction el as [s e runs | s e rows IH | s e | s e]
    using StructuralElement_nested_ind; intros Hix; try reflexivity.
  - simpl in *. rewrite fullTextOf_flat_map. unfold paragraphTextOf.
    apply flat_map_ext_in. intros pe Hpe.
    apply fullTextOf_collectRun.
    rewrite All_Forall, Forall_forall in Hix. auto.
  - simpl in *. rewrite fullTextOf_flat_map.
    rewrite All_Forall in Hix. rewrite Forall_forall in *.
    apply flat_map_ext_in. intros [cells] Hin.
    specialize (IH _ Hin). specialize (Hix _ Hin). simpl in *.
    rewrite fullTextOf_flat_map.
    rewrite All_Forall in Hix. rewrite Forall_forall in *.
    apply flat_map_ext_in. intros [cs ce content] Hin'.
    specialize (IH _ Hin'). specialize (Hix _ Hin'). simpl in *.
    rewrite fullTextOf_flat_map.
    rewrite All_Forall in Hix. rewrite Forall_forall in *.
    apply flat_map_ext_in. intros el Hel. apply IH; auto.
Qed.

Lemma Indexed_text content :
  Indexed content ->
  fullTextOf (collectTextFromContent content) = documentText content.
Proof.
  unfold Indexed, collectTextFromContent, documentText. intros H.
  rewrite fullTextOf_flat_map. apply flat_map_ext_in. intros el Hel.
  apply indexedElement_text.
  rewrite All_Forall, Forall_forall in H. auto.
Qed.

(** C3: for every well-formed tree whose text runs carry their indices,
    the flattened segment sequence, concatenated, is the text of the runs
    in document order, and its segments are in ascending order of start
    offset. *)
Theorem flatten_reconstructs_text content :
  WellFormed content -> Indexed content ->
  fullTextOf (flatten content) = documentText content
  /\ StronglySorted ascendingStart (flatten content).
Proof.
  intros [hi Hwf] Hix. split.
  - unfold flatten.
    rewrite (sortSegments_id 0 hi) by (apply wfContent_segsWithin; exact Hwf).
    apply Indexed_text. exact Hix.
  - apply sortSegments_sorted.
Qed.

(** ** Matches and [indexOf] *)

Lemma isPrefix_length needle s :
  isPrefix needle s = true -> (length needle <= length s)%nat.
Proof.
  revert s. induction needle as [| a p IH]; intros [| b s]; simpl; intros H;
    try lia; try discriminate.
  apply andb_true_iff in H. destruct H as [_ H]. apply IH in H. lia.
Qed.

Lemma occurrencesFrom_lower s needle i :
  Forall (fun p => (i <= p)%nat) (occurrencesFrom s needle i).
Proof.
  revert i. induction s as [| c s IH]; intros i; simpl.
  - destruct (isPrefix needle []); simpl; repeat constructor.
  - apply Forall_app. split.
    + destruct (isPrefix needle (c :: s)); repeat constructor.
    + eapply Forall_impl; [| apply IH]. simpl. intros; lia.
Qed.

Lemma occurrencesFrom_sorted s needle i :
  StronglySorted lt (occurrencesFrom s needle i).
Proof.
  revert i. induction s as [| c s IH]; intros i; simpl.
  - destruct (isPrefix needle []); simpl; repeat constructor.
  - destruct (isPrefix needle (c :: s)); simpl; [| apply IH].
    constructor; [apply IH |].
    eapply Forall_impl; [| apply occurrencesFrom_lower]. simpl. intros; lia.
Qed.

(** A position of [occurrencesFrom (skipn i text) needle i] is a match
    inside the text. *)
Lemma occurrencesFrom_skipn_bound text needle i :
  needle <> [] -> (i <= length text)%nat ->
  Forall (fun p => (p + length needle <= length text)%nat)
         (occurrencesFrom (skipn i text) needle i).
Proof.
  intros Hne. remember (skipn i text) as s eqn:Es.
  revert i Es. induction s as [| c s IH]; intros i Es Hi; simpl.
  - destruct needle; [congruence |]. simpl. constructor.
  - assert (Hlen : length (c :: s) = (length text - i)%nat)
      by (rewrite Es; apply length_skipn).
    simpl in Hlen.
    apply Forall_app. split.
    + destruct (isPrefix needle (c :: s)) eqn:Ep; repeat constructor.
      apply isPrefix_length in Ep. simpl in Ep. lia.
    + apply IH; [| lia].
      replace (S i) with (1 + i)%nat by lia.
      rewrite <- skipn_skipn, <- Es. reflexivity.
Qed.

(** One step of the scan: [indexOf] finds the head of the remaining
    matches, and the scan resumes one position after it. *)
Lemma indexOf_step text needle from :
  needle <> [] -> (from <= length text)%nat ->
  match indexOf text needle from with
  | None => occurrencesFrom (skipn from text) needle from = []
  | Some p =>
      (from <= p < length text)%nat
      /\ occurrencesFrom (skipn from text) needle from
         = p :: occurrencesFrom (skipn (S p) text) needle (S p)
  end.
Proof.
  intros Hne Hfrom. unfold indexOf.
  rewrite Nat.min_l by exact Hfrom.
  remember (skipn from text) as s eqn:Es.
  revert from Hfrom Es.
  induction s as [| c s IH]; intros from Hfrom Es.
  - simpl. destruct needle; [congruence | reflexivity].
  - assert (Hlen : length (c :: s) = (length text - from)%nat)
      by (rewrite Es; apply length_skipn).
    simpl in Hlen.
    assert (Es' : s = skipn (S from) text).
    { replace (S from) with (1 + from)%nat by lia.
      rewrite <- skipn_skipn, <- Es. reflexivity. }
    simpl. destruct (isPrefix needle (c :: s)) eqn:Ep.
    + simpl. split; [lia |]. rewrite Es'. reflexivity.
    + simpl. specialize (IH (S from) ltac:(lia) Es').
      destruct (indexOfAux s needle (S from)) as [p |].
      * destruct IH as [Hp Ho]. split; [lia | exact Ho].
      * exact IH.
Qed.

(** ** Mapping logical positions to document offsets *)

Lemma strlen_pos (s : jsstring) : s <> [] -> 0 < strlen s.
Proof.
  destruct s; [congruence |]. intros _. rewrite strlen_cons.
  pose proof (strlen_nonneg s). lia.
Qed.

Lemma strlen_fullTextOf_cons seg segs :
  strlen (fullTextOf (seg :: segs))
  = strlen (seg_text seg) + strlen (fullTextOf segs).
Proof. unfold fullTextOf. simpl. apply strlen_app. Qed.

(** Once the start is mapped, the loop only looks for the end. *)
Lemma mapToDocument_end segs : forall tS tE a e0 pos,
  Forall nonEmptyText segs -> segStartsNonNeg segs ->
  a <> -1 ->
  pos < tE <= pos + strlen (fullTextOf segs) ->
  exists b, mapToDocument segs tS tE a e0 pos = (a, b)
            /\ offsetOfEnd segs (tE - pos) = Some b /\ 0 < b.
Proof.
  induction segs as [| seg rest IH]; intros tS tE a e0 pos Hne Hnn Ha Hr.
  - unfold fullTextOf, strlen in Hr. simpl in Hr. lia.
  - inversion Hne as [| ? ? Hseg Hrest]; subst.
    inversion Hnn as [| ? ? Hs Hnn']; subst.
    rewrite strlen_fullTextOf_cons in Hr.
    pose proof (strlen_pos _ Hseg) as Hpos.
    simpl.
    replace (a =? -1) with false by (symmetry; apply Z.eqb_neq; exact Ha).
    simpl.
    destruct (Z.leb_spec tE (pos + strlen (seg_text seg))) as [Hle | Hgt].
    + replace (pos <? tE) with true by (symmetry; apply Z.ltb_lt; lia).
      simpl.
      replace (tE - pos <=? strlen (seg_text seg)) with true
        by (symmetry; apply Z.leb_le; lia).
      eexists. split; [reflexivity |]. split; [reflexivity | lia].
    + rewrite andb_false_r.
      replace (tE - pos <=? strlen (seg_text seg)) with false
        by (symmetry; apply Z.leb_gt; lia).
      destruct (IH tS tE a e0 (pos + strlen (seg_text seg)) Hrest Hnn' Ha)
        as (b & Hb & Ho & Hb0); [lia |].
      exists b. split; [exact Hb |]. split; [| exact Hb0].
      rewrite <- Ho. f_equal. lia.
Qed.

(** A non-empty logical range inside the text always maps: the start
    through the segment that holds its first position, the end through
    the segment that holds its last. *)
Lemma mapToDocument_maps segs : forall tS tE e0 pos,
  Forall nonEmptyText segs -> segStartsNonNeg segs ->
  pos <= tS -> tS < tE -> tE <= pos + strlen (fullTextOf segs) ->
  exists a b, mapToDocument segs tS tE (-1) e0 pos = (a, b)
              /\ offsetOfStart segs (tS - pos) = Some a
              /\ offsetOfEnd segs (tE - pos) = Some b
              /\ 0 <= a /\ 0 < b.
Proof.
  induction segs as [| seg rest IH]; intros tS tE e0 pos Hne Hnn H1 H2 H3.
  - unfold fullTextOf, strlen in H3. simpl in H3. lia.
  - inversion Hne as [| ? ? Hseg Hrest]; subst.
    inversion Hnn as [| ? ? Hs Hnn']; subst.
    rewrite strlen_fullTextOf_cons in H3.
    pose proof (strlen_pos _ Hseg) as Hpos.
    simpl.
    replace (pos <=? tS) with true by (symmetry; apply Z.leb_le; lia).
    simpl.
    destruct (Z.ltb_spec tS (pos + strlen (seg_text seg))) as [Hin | Hout].
    + replace (tS - pos <? strlen (seg_text seg)) with true
        by (symmetry; apply Z.ltb_lt; lia).
      replace (pos <? tE) with true by (symmetry; apply Z.ltb_lt; lia).
      simpl.
      destruct (Z.leb_spec tE (pos + strlen (seg_text seg))) as [Hle | Hgt].
      * replace (tE - pos <=? strlen (seg_text seg)) with true
          by (symmetry; apply Z.leb_le; lia).
        do 2 eexists. repeat split; lia.
      * replace (tE - pos <=? strlen (seg_text seg)) with false
          by (symmetry; apply Z.leb_gt; lia).
        destruct (mapToDocument_end rest tS tE
                    (seg_start seg + (tS - pos)) e0
                    (pos + strlen (seg_text seg)) Hrest Hnn')
          as (b & Hb & Ho & Hb0); [lia | lia |].
        exists (seg_start seg + (tS - pos)), b.
        split; [exact Hb |]. split; [reflexivity |].
        split; [| lia]. rewrite <- Ho. f_equal. lia.
    + replace (tS - pos <? strlen (seg_text seg)) with false
        by (symmetry; apply Z.ltb_ge; lia).
      replace (tE <=? pos + strlen (seg_text seg)) with false
        by (symmetry; apply Z.leb_gt; lia).
      rewrite andb_false_r.
      replace (tE - pos <=? strlen (seg_text seg)) with false
        by (symmetry; apply Z.leb_gt; lia).
      destruct (IH tS tE e0 (pos + strlen (seg_text seg)) Hrest Hnn')
        as (a & b & Hm & Ha & Hb & Ha0 & Hb0); try lia.
      exists a, b. split; [exact Hm |].
      split; [rewrite <- Ha; f_equal; lia |].
      split; [rewrite <- Hb; f_equal; lia |]. lia.
Qed.

(** The targeted match of a non-empty needle is always mapped. *)
Lemma match_maps segs needle p :
  Forall nonEmptyText segs -> segStartsNonNeg segs -> needle <> [] ->
  (p + length needle <= length (fullTextOf segs))%nat ->
  exists a b,
    mapToDocument segs (Z.of_nat p) (Z.of_nat p + strlen needle) (-1) (-1) 0
    = (a, b)
    /\ rangeOfMatch segs needle p = Some (mkRange a b)
    /\ 0 <= a /\ 0 < b.
Proof.
  intros Hne Hnn Hn Hp.
  pose proof (strlen_pos _ Hn) as Hpos.
  destruct (mapToDocument_maps segs (Z.of_nat p) (Z.of_nat p + strlen needle)
              (-1) 0 Hne Hnn) as (a & b & Hm & Ha & Hb & Ha0 & Hb0);
    try lia.
  { unfold strlen in *. lia. }
  exists a, b. split; [exact Hm |]. split; [| lia].
  unfold rangeOfMatch. rewrite Z.sub_0_r in Ha, Hb. rewrite Ha, Hb. reflexivity.
Qed.

(** ** The search loop *)

Lemma searchLoop_spec segs needle instance :
  Forall nonEmptyText segs -> segStartsNonNeg segs -> needle <> [] ->
  forall fuel foundCount from,
    (from <= length (fullTextOf segs))%nat ->
    (length (fullTextOf segs) - from < fuel)%nat ->
    0 <= foundCount < instance ->
    searchLoop fuel (fullTextOf segs) segs needle instance foundCount from
    = Returned
        (kthFrom segs needle
           (occurrencesFrom (skipn from (fullTextOf segs)) needle from)
           (Z.to_nat (instance - foundCount - 1))).
Proof.
  intros Hne Hnn Hn.
  induction fuel as [| fuel IH]; intros foundCount from Hfrom Hfuel Hfc;
    [lia |].
  simpl.
  replace (foundCount <? instance) with true by (symmetry; apply Z.ltb_lt; lia).
  pose proof (indexOf_step (fullTextOf segs) needle from Hn Hfrom) as Hstep.
  pose proof (occurrencesFrom_skipn_bound (fullTextOf segs) needle from Hn
                Hfrom) as Hbound.
  destruct (indexOf (fullTextOf segs) needle from) as [p |].
  - destruct Hstep as [Hp Hocc]. rewrite Hocc in *.
    inversion Hbound as [| ? ? Hpb _]; subst.
    destruct (Z.eqb_spec (foundCount + 1) instance) as [Heq | Hneq].
    + destruct (match_maps segs needle p Hne Hnn Hn Hpb)
        as (a & b & Hm & Hr & Ha & Hb).
      rewrite Hm.
      replace (a =? -1) with false by (symmetry; apply Z.eqb_neq; lia).
      replace (b =? -1) with false by (symmetry; apply Z.eqb_neq; lia).
      simpl.
      replace (instance - foundCount - 1) with 0 by lia.
      unfold kthFrom. simpl. rewrite Hr. reflexivity.
    + rewrite IH by lia.
      unfold kthFrom.
      replace (Z.to_nat (instance - foundCount - 1))
        with (S (Z.to_nat (instance - (foundCount + 1) - 1))) by lia.
      reflexivity.
  - rewrite Hstep. unfold kthFrom.
    destruct (Z.to_nat (instance - foundCount - 1)); reflexivity.
Qed.

(** For a non-empty needle the search returns, and what it returns is the
    range of the [k]-th match position. *)
Lemma findText_kthMatch segs needle k :
  Forall nonEmptyText segs -> segStartsNonNeg segs -> needle <> [] ->
  findText segs needle k
  = Returned (if 1 <=? k then kthMatch segs needle k else None).
Proof.
  intros Hne Hnn Hn. unfold findText, locateIn.
  destruct (Z.leb_spec 1 k) as [Hk | Hk].
  - rewrite searchLoop_spec by (auto; lia).
    unfold kthFrom, kthMatch, occurrences. simpl skipn.
    replace (k - 0 - 1) with (k - 1) by lia. reflexivity.
  - simpl. replace (0 <? k) with false by (symmetry; apply Z.ltb_ge; lia).
    reflexivity.
Qed.

(** ** Order of the mapped offsets *)

Lemma segsWithin_nonneg lo hi segs :
  0 <= lo -> segsWithin lo hi segs -> segStartsNonNeg segs.
Proof.
  revert lo. induction segs as [| seg t IH]; simpl; intros lo Hlo H.
  - constructor.
  - destruct H as [Hs Ht]. constructor; [lia |].
    eapply IH; [| exact Ht]. pose proof (strlen_nonneg (seg_text seg)). lia.
Qed.

Lemma offsetOfStart_lower segs : forall lo hi p a,
  segsWithin lo hi segs -> 0 <= p -> offsetOfStart segs p = Some a -> lo <= a.
Proof.
  induction segs as [| seg t IH]; simpl; intros lo hi p a H Hp Ho;
    [discriminate |].
  destruct H as [Hs Ht].
  destruct (Z.ltb_spec p (strlen (seg_text seg))) as [Hin | Hout].
  - inversion Ho; subst. lia.
  - apply (IH _ _ _ _ Ht) in Ho; [| lia].
    pose proof (strlen_nonneg (seg_text seg)). lia.
Qed.

Lemma offsetOfStart_mono segs : forall lo hi p q a b,
  segsWithin lo hi segs -> 0 <= p -> p < q ->
  offsetOfStart segs p = Some a -> offsetOfStart segs q = Some b -> a < b.
Proof.
  induction segs as [| seg t IH]; simpl; intros lo hi p q a b H Hp Hpq Ha Hb;
    [discriminate |].
  destruct H as [Hs Ht].
  destruct (Z.ltb_spec p (strlen (seg_text seg))) as [Hin | Hout];
    destruct (Z.ltb_spec q (strlen (seg_text seg))) as [Hin' | Hout'].
  - inversion Ha; inversion Hb; subst. lia.
  - inversion Ha; subst.
    apply (offsetOfStart_lower _ _ _ _ _ Ht) in Hb; lia.
  - lia.
  - eapply IH; [exact Ht | | | exact Ha | exact Hb]; lia.
Qed.

Lemma StronglySorted_nth_lt (l : list nat) : forall i j x y,
  StronglySorted lt l -> (i < j)%nat ->
  nth_error l i = Some x -> nth_error l j = Some y -> (x < y)%nat.
Proof.
  induction l as [| h t IH]; intros i j x y Hs Hij Hx Hy.
  - destruct i; discriminate.
  - inversion Hs as [| ? ? Ht Hh]; subst.
    destruct j as [| j]; [lia |]. simpl in Hy.
    destruct i as [| i]; simpl in Hx.
    + inversion Hx; subst. apply nth_error_In in Hy.
      rewrite Forall_forall in Hh. apply Hh. exact Hy.
    + eapply IH; [exact Ht | | exact Hx | exact Hy]. lia.
Qed.

Lemma rangeOfMatch_start segs needle p r :
  rangeOfMatch segs needle p = Some r ->
  offsetOfStart segs (Z.of_nat p) = Some (startIndex r).
Proof.
  unfold rangeOfMatch.
  destruct (offsetOfStart segs (Z.of_nat p)) as [a |]; [| discriminate].
  destruct (offsetOfEnd segs _) as [b |]; [| discriminate].
  intros H. inversion H. reflexivity.
Qed.

Lemma kthMatch_increasing segs needle lo hi k1 k2 r1 r2 :
  segsWithin lo hi segs -> 1 <= k1 -> k1 < k2 ->
  kthMatch segs needle k1 = Some r1 -> kthMatch segs needle k2 = Some r2 ->
  startIndex r1 < startIndex r2.
Proof.
  unfold kthMatch. intros Hw Hk1 Hk H1 H2.
  destruct (nth_error _ (Z.to_nat (k1 - 1))) as [p1 |] eqn:E1; [| discriminate].
  destruct (nth_error _ (Z.to_nat (k2 - 1))) as [p2 |] eqn:E2; [| discriminate].
  assert (Hp : (p1 < p2)%nat).
  { eapply StronglySorted_nth_lt;
      [apply occurrencesFrom_sorted | | exact E1 | exact E2]. lia. }
  apply rangeOfMatch_start in H1, H2.
  eapply offsetOfStart_mono; [exact Hw | | | exact H1 | exact H2]; lia.
Qed.

(** [occurrences] lists exactly the positions at which the needle
    occurs. *)
Lemma occurrencesFrom_In s needle : forall i p,
  In p (occurrencesFrom s needle i) <->
  exists j, p = (i + j)%nat /\ (j <= length s)%nat
            /\ isPrefix needle (skipn j s) = true.
Proof.
  induction s as [| c s IH]; intros i p; simpl.
  - split.
    + destruct (isPrefix needle []) eqn:E; simpl; [| tauto].
      intros [<- | []]. exists 0%nat. repeat split; auto.
    + intros (j & -> & Hj & Hp). assert (j = 0%nat) by lia. subst j.
      simpl in Hp. rewrite Hp. left. lia.
  - rewrite in_app_iff, IH. split.
    + intros [H | (j & -> & Hj & Hp)].
      * destruct (isPrefix needle (c :: s)) eqn:E; simpl in H; [| tauto].
        destruct H as [<- | []]. exists 0%nat. repeat split; auto. lia.
      * exists (S j). repeat split; [lia | lia | exact Hp].
    + intros ([| j] & -> & Hj & Hp).
      * left. simpl in Hp. rewrite Hp. left. lia.
      * right. exists j. repeat split; [lia | lia | exact Hp].
Qed.

Lemma occurrences_In text needle p :
  In p (occurrences text needle) <->
  (p <= length text)%nat /\ isPrefix needle (skipn p text) = true.
Proof.
  unfold occurrences. rewrite occurrencesFrom_In. split.
  - intros (j & -> & Hj & Hp). auto.
  - intros [Hj Hp]. exists p. auto.
Qed.

Lemma kthMatch_defined segs needle k :
  Forall nonEmptyText segs -> segStartsNonNeg segs -> needle <> [] ->
  1 <= k <= Z.of_nat (length (occurrences (fullTextOf segs) needle)) ->
  exists p r,
    nth_error (occurrences (fullTextOf segs) needle) (Z.to_nat (k - 1)) = Some p
    /\ isPrefix needle (skipn p (fullTextOf segs)) = true
    /\ kthMatch segs needle k = Some r.
Proof.
  intros Hne Hnn Hn Hk. unfold kthMatch.
  destruct (nth_error (occurrences (fullTextOf segs) needle)
              (Z.to_nat (k - 1))) as [p |] eqn:E.
  - pose proof (nth_error_In _ _ E) as Hin.
    apply occurrences_In in Hin. destruct Hin as [Hp Hpre].
    pose proof (isPrefix_length _ _ Hpre) as Hlen.
    rewrite length_skipn in Hlen.
    destruct (match_maps segs needle p Hne Hnn Hn) as (a & b & _ & Hr & _);
      [lia |].
    exists p, (mkRange a b). auto.
  - apply nth_error_None in E. lia.
Qed.

(** C2, as the code has it: over segments with non-empty texts that lie in
    ascending order without overlap from offset 0 on, and for a non-empty
    needle, the search counts a match at every position at which the needle
    occurs (overlapping matches count), 1-indexed from the left; it
    returns the range of the k-th of them for every k up to their number,
    the returned start offsets increase strictly with k, and the result is
    null for every k beyond their number. *)
Theorem findText_counts_every_match segs needle hi :
  Forall nonEmptyText segs -> segsWithin 0 hi segs -> needle <> [] ->
  let count := Z.of_nat (length (occurrences (fullTextOf segs) needle)) in
  (forall p,
      In p (occurrences (fullTextOf segs) needle)
      <-> (p <= length (fullTextOf segs))%nat
          /\ isPrefix needle (skipn p (fullTextOf segs)) = true)
  /\ StronglySorted lt (occurrences (fullTextOf segs) needle)
  /\ (forall k, 1 <= k <= count ->
     exists p r,
       nth_error (occurrences (fullTextOf segs) needle) (Z.to_nat (k - 1))
       = Some p
       /\ rangeOfMatch segs needle p = Some r
       /\ findText segs needle k = Returned (Some r))
  /\ (forall k1 k2 r1 r2, k1 < k2 ->
        findText segs needle k1 = Returned (Some r1) ->
        findText segs needle k2 = Returned (Some r2) ->
        startIndex r1 < startIndex r2)
  /\ (forall k, count < k -> findText segs needle k = Returned None).
Proof.
  intros Hne Hw Hn count.
  assert (Hnn : segStartsNonNeg segs)
    by (eapply segsWithin_nonneg; [| exact Hw]; lia).
  split; [intros p; apply occurrences_In |].
  split; [apply occurrencesFrom_sorted |].
  split; [| split].
  - intros k Hk.
    destruct (kthMatch_defined segs needle k Hne Hnn Hn Hk)
      as (p & r & Hp & _ & Hr).
    exists p, r. split; [exact Hp |].
    rewrite findText_kthMatch by assumption.
    replace (1 <=? k) with true by (symmetry; apply Z.leb_le; lia).
    rewrite Hr. split; [| reflexivity].
    unfold kthMatch in Hr. rewrite Hp in Hr. exact Hr.
  - intros k1 k2 r1 r2 Hk H1 H2.
    rewrite findText_kthMatch in H1, H2 by assumption.
    destruct (Z.leb_spec 1 k1); [| discriminate].
    destruct (Z.leb_spec 1 k2); [| discriminate].
    inversion H1 as [E1]. inversion H2 as [E2].
    eapply kthMatch_increasing; [exact Hw | | exact Hk | exact E1 | exact E2].
    lia.
  - intros k Hk. rewrite findText_kthMatch by assumption.
    destruct (Z.leb_spec 1 k); [| reflexivity].
    unfold kthMatch.
    replace (nth_error _ _) with (@None nat); [reflexivity |].
    symmetry. apply nth_error_None. unfold count in Hk. lia.
Qed.

(** C2 as stated fails: in the text aaa the needle aa has one
    non-overlapping match, and occurrence 2 is found all the same. *)
Lemma findText_counts_overlapping_matches :
  let segs := [mkSegment (str "aaa") 1 4] in
  nonOverlappingMatches (fullTextOf segs) (str "aa") = [0%nat]
  /\ findText segs (str "aa") 2 = Returned (Some (mkRange 2 4)).
Proof. split; reflexivity. Qed.

(** ** The locator on trees *)

Lemma collectElement_nonEmpty el : Forall nonEmptyText (collectElement el).
Proof.
  induction el as [s e runs | s e rows IH | s e | s e]
    using StructuralElement_nested_ind; simpl; try constructor.
  - apply Forall_flat_map. rewrite Forall_forall. intros pe _.
    destruct (collectRun_cases pe) as [E | (s0 & e0 & c & _ & _ & _ & Hc & E)];
      rewrite E; repeat constructor. exact Hc.
  - apply Forall_flat_map. rewrite Forall_forall in *. intros [cells] Hin.
    specialize (IH _ Hin). simpl in IH.
    apply Forall_flat_map. rewrite Forall_forall in *. intros [cs ce ct] Hin'.
    specialize (IH _ Hin'). simpl in IH.
    apply Forall_flat_map. exact IH.
Qed.

Lemma collect_nonEmpty content :
  Forall nonEmptyText (collectTextFromContent content).
Proof.
  apply Forall_flat_map. rewrite Forall_forall. intros el _.
  apply collectElement_nonEmpty.
Qed.

(** On a well-formed tree the sort changes nothing, and the locator is
    the search over the flattened segments. *)
Lemma findTextRangeIn_wf content needle k :
  WellFormed content ->
  findTextRangeIn content needle k = findText (flatten content) needle k.
Proof.
  intros [hi Hwf]. unfold findTextRangeIn, findText, flatten.
  rewrite (sortSegments_id 0 hi) by (apply wfContent_segsWithin; exact Hwf).
  reflexivity.
Qed.

(** On a well-formed tree whose offsets start at 0 or later, the locator
    returns the range of the k-th match position of a non-empty needle in
    the text of the flattened segments. *)
Lemma findTextRangeIn_kthMatch content needle k :
  WellFormed content -> needle <> [] ->
  findTextRangeIn content needle k
  = Returned (if 1 <=? k then kthMatch (flatten content) needle k else None).
Proof.
  intros Hwf Hn. rewrite findTextRangeIn_wf by exact Hwf.
  destruct Hwf as [hi Hwf]. apply wfContent_segsWithin in Hwf.
  unfold flatten. rewrite (sortSegments_id 0 hi) by exact Hwf.
  apply findText_kthMatch; [apply collect_nonEmpty | | exact Hn].
  eapply segsWithin_nonneg; [| exact Hwf]. lia.
Qed.

(** C4, as the code has it: a targeted match whose start or end comes out
    of the mapping as [-1] is rejected, the search resumes one position
    after its logical start and the match is not counted; but over
    segments with non-empty texts and non-negative offsets every match of
    a non-empty needle is mapped, the start through the segment that holds
    its first position and the end through the segment that holds its
    last, whatever lies between the two segments. *)
Theorem rejection_resumes_gap_is_bridged :
  (forall fuel fullText segs needle instance foundCount from p a b,
      foundCount + 1 = instance ->
      indexOf fullText needle from = Some p ->
      mapToDocument segs (Z.of_nat p) (Z.of_nat p + strlen needle) (-1) (-1) 0
      = (a, b) ->
      a = -1 \/ b = -1 ->
      searchLoop (S fuel) fullText segs needle instance foundCount from
      = searchLoop fuel fullText segs needle instance foundCount (S p))
  /\ (forall segs needle p,
        Forall nonEmptyText segs -> segStartsNonNeg segs -> needle <> [] ->
        In p (occurrences (fullTextOf segs) needle) ->
        exists a b,
          mapToDocument segs (Z.of_nat p) (Z.of_nat p + strlen needle)
            (-1) (-1) 0 = (a, b)
          /\ a <> -1 /\ b <> -1
          /\ rangeOfMatch segs needle p = Some (mkRange a b)).
Proof.
  split.
  - intros fuel fullText segs needle instance foundCount from p a b
      Hcount Hidx Hmap Hfail.
    simpl.
    replace (foundCount <? instance) with true
      by (symmetry; apply Z.ltb_lt; lia).
    rewrite Hidx.
    replace (foundCount + 1 =? instance) with true
      by (symmetry; apply Z.eqb_eq; exact Hcount).
    rewrite Hmap.
    replace ((a =? -1) || (b =? -1)) with true.
    + replace (foundCount + 1 - 1) with foundCount by lia. reflexivity.
    + symmetry. apply orb_true_iff.
      destruct Hfail as [-> | ->]; [left | right]; reflexivity.
  - intros segs needle p Hne Hnn Hn Hin.
    apply occurrences_In in Hin. destruct Hin as [Hp Hpre].
    apply isPrefix_length in Hpre. rewrite length_skipn in Hpre.
    destruct (match_maps segs needle p Hne Hnn Hn)
      as (a & b & Hm & Hr & Ha & Hb);
      [lia |].
    exists a, b. repeat split; [exact Hm | lia | lia | exact Hr].
Qed.

(** C4 as stated fails: the only match of the needle runs from the end of
    a paragraph into a table cell, over the offsets 4 to 6 of the table,
    row and cell boundaries, and it is returned. *)
Lemma gap_straddling_match_is_returned :
  WellFormed filledCellBody
  /\ flatten filledCellBody
     = [mkSegment (str "ab" ++ [LF]) 1 4; mkSegment (str "cd" ++ [LF]) 7 10]
  /\ occurrences (documentText filledCellBody) (LF :: str "c") = [2%nat]
  /\ findTextRangeIn filledCellBody (LF :: str "c") 1
     = Returned (Some (mkRange 3 8)).
Proof.
  split; [exists 11; cbv; repeat split; discriminate |].
  repeat split; reflexivity.
Qed.

(** ** Table and cell lookup *)

Lemma findTargetTable_find content anchor :
  findTargetTable content anchor
  = option_map rowsOf (find (tableInWindow anchor) content).
Proof.
  induction content as [| el rest IH]; simpl; [reflexivity |].
  destruct el as [s e runs | [s |] e rows | s e | s e]; simpl; auto.
  destruct (Z.abs (s - anchor) <=? 10); simpl; auto.
Qed.

Lemma findTableNear_find content anchor :
  findTableNear content anchor
  = bind_option (find (tableNear anchor) content) foundTableOf.
Proof.
  induction content as [| el rest IH]; simpl; [reflexivity |].
  destruct el as [s e runs | [s |] [e |] rows | s e | s e]; simpl; auto.
  destruct (Z.leb_spec (anchor - 10) s), (Z.leb_spec s (anchor + 10)); simpl;
    auto.
  all: destruct (Z.eqb_spec s anchor); auto; lia.
Qed.

Lemma findTableAfter_find content anchor :
  findTableAfter content anchor
  = bind_option (find (tableAtOrAfter anchor) content) foundTableOf.
Proof.
  induction content as [| el rest IH]; simpl; [reflexivity |].
  destruct el as [s e runs | [s |] [e |] rows | s e | s e]; simpl; auto.
  destruct (anchor <=? s); simpl; auto.
Qed.

Lemma arrayGet_Some {A} (arr : list A) i x :
  arrayGet arr i = Some x -> 0 <= i < arrayLength arr.
Proof.
  unfold arrayGet, arrayLength. destruct (Z.ltb_spec i 0); [discriminate |].
  intros Hx. assert (Hn : nth_error arr (Z.to_nat i) <> None) by congruence.
  apply nth_error_Some in Hn. lia.
Qed.

Lemma arrayGet_present {A} (arr : list A) i x :
  arrayGet arr i = Some x -> isAbsent arr = false.
Proof.
  intros H. apply arrayGet_Some in H. unfold arrayLength in H.
  destruct arr; [simpl in H; lia | reflexivity].
Qed.

(** The cell lookup, by cases. *)
Lemma getTableCellRangeIn_located content anchor rowIndex columnIndex
    rows row cell :
  findTargetTable content anchor = Some rows ->
  arrayGet rows rowIndex = Some row ->
  arrayGet (tableCells row) columnIndex = Some cell ->
  getTableCellRangeIn content anchor rowIndex columnIndex
  = Ok (Some (cellRangeOf cell)).
Proof.
  intros Ht Hr Hc. unfold getTableCellRangeIn. rewrite Ht.
  pose proof (arrayGet_Some _ _ _ Hr). pose proof (arrayGet_Some _ _ _ Hc).
  rewrite (arrayGet_present _ _ _ Hr).
  replace (arrayLength rows <=? rowIndex) with false
    by (symmetry; apply Z.leb_gt; lia).
  cbn [orb]. rewrite Hr. rewrite (arrayGet_present _ _ _ Hc).
  replace (arrayLength (tableCells row) <=? columnIndex) with false
    by (symmetry; apply Z.leb_gt; lia).
  rewrite Hc. reflexivity.
Qed.

(** C5, as the code has it: the cell lookup takes the first table whose
    start lies within 10 of the anchor and has no fallback (it yields null
    when there is none); [findTableAtIndex] takes the first table in that
    window and, failing that, the first table that starts at or after the
    anchor; a row index at or beyond the number of rows, or a column index
    at or beyond the number of cells of the row, yields null. *)
Theorem cell_lookup_window_and_bounds content anchor :
  findTargetTable content anchor
  = option_map rowsOf (find (tableInWindow anchor) content)
  /\ findTableAtIndexIn content anchor
     = match find (tableNear anchor) content with
       | Some el => foundTableOf el
       | None => bind_option (find (tableAtOrAfter anchor) content) foundTableOf
       end
  /\ (forall rowIndex columnIndex,
        find (tableInWindow anchor) content = None ->
        getTableCellRangeIn content anchor rowIndex columnIndex = Ok None)
  /\ (forall rows rowIndex columnIndex,
        findTargetTable content anchor = Some rows ->
        arrayLength rows <= rowIndex ->
        getTableCellRangeIn content anchor rowIndex columnIndex = Ok None)
  /\ (forall rows row rowIndex columnIndex,
        findTargetTable content anchor = Some rows ->
        arrayGet rows rowIndex = Some row ->
        arrayLength (tableCells row) <= columnIndex ->
        getTableCellRangeIn content anchor rowIndex columnIndex = Ok None).
Proof.
  split; [apply findTargetTable_find |].
  split.
  { unfold findTableAtIndexIn.
    rewrite findTableNear_find, findTableAfter_find.
    destruct (find (tableNear anchor) content) as [el |] eqn:E; simpl; auto.
    apply find_some in E. destruct E as [_ E].
    destruct el as [s e runs | [s |] [e |] rows | s e | s e]; simpl in *;
      try discriminate. reflexivity. }
  split.
  { intros r c H. unfold getTableCellRangeIn.
    rewrite findTargetTable_find, H. reflexivity. }
  split.
  { intros rows r c Ht Hr. unfold getTableCellRangeIn. rewrite Ht.
    replace (arrayLength rows <=? r) with true
      by (symmetry; apply Z.leb_le; lia).
    rewrite orb_true_r. reflexivity. }
  intros rows row r c Ht Hrow Hc. unfold getTableCellRangeIn. rewrite Ht.
  pose proof (arrayGet_Some _ _ _ Hrow).
  rewrite (arrayGet_present _ _ _ Hrow).
  replace (arrayLength rows <=? r) with false
    by (symmetry; apply Z.leb_gt; lia).
  rewrite Hrow.
  replace (arrayLength (tableCells row) <=? c) with true
    by (symmetry; apply Z.leb_le; lia).
  rewrite orb_true_r. reflexivity.
Qed.

(** C5 as stated fails: with the anchor 20 the first table at or after
    the anchor starts at 50 and its cell (0, 0) exists, but the cell lookup
    yields null. *)
Lemma cell_lookup_has_no_fallback :
  findTableAtIndexIn twoByThree 20
  = Some (mkFoundTable twoByThreeRows 50 65)
  /\ getTableCellRangeIn twoByThree 50 0 0
     = Ok (Some (mkTableCellRange (Some 52) (Some 54) (Some 53) (Some 54)
                   false))
  /\ getTableCellRangeIn twoByThree 20 0 0 = Ok None.
Proof. repeat split; reflexivity. Qed.

(** A negative row index passes the bound test and then reads a property
    of [undefined]: the lookup throws. *)
Lemma negative_row_index_throws :
  getTableCellRangeIn twoByThree 50 (-1) 0 = Throw cellRangeFailure.
Proof. reflexivity. Qed.

(** ** The range of a cell *)

Lemma trimIsNonEmpty_iff c :
  trimIsNonEmpty c = true <-> exists ch, In ch c /\ isWhitespace ch = false.
Proof.
  unfold trimIsNonEmpty. rewrite existsb_exists.
  split; intros (ch & Hin & H); exists ch; split; auto.
  - apply negb_true_iff. exact H.
  - apply negb_true_iff. exact H.
Qed.

Lemma elementHasText_iff el :
  elementHasText el = true <->
  exists s e runs pe c ch,
    el = Paragraph s e runs /\ In pe runs /\ pe_content pe = Some c
    /\ In ch c /\ isWhitespace ch = false.
Proof.
  split.
  - destruct el as [s e runs | | |]; simpl; try discriminate.
    rewrite existsb_exists. intros (pe & Hin & H).
    unfold runHasText in H. destruct (pe_content pe) as [c |] eqn:Ec;
      [| discriminate].
    apply trimIsNonEmpty_iff in H. destruct H as (ch & Hch & Hws).
    exists s, e, runs, pe, c, ch. auto.
  - intros (s & e & runs & pe & c & ch & -> & Hin & Hc & Hch & Hws). simpl.
    apply existsb_exists. exists pe. split; [exact Hin |].
    unfold runHasText. rewrite Hc. apply trimIsNonEmpty_iff. eauto.
Qed.

Lemma cellRangeOf_fields cell :
  cellStartIndex (cellRangeOf cell) = cell_startIndex cell
  /\ cellEndIndex (cellRangeOf cell) = cell_endIndex cell
  /\ contentStartIndex (cellRangeOf cell)
     = orElse (bind_option (hd_error (cell_content cell)) el_startIndex)
         (cell_startIndex cell)
  /\ contentEndIndex (cellRangeOf cell)
     = orElse (bind_option (lastOf (cell_content cell)) el_endIndex)
         (cell_endIndex cell)
  /\ hasContent (cellRangeOf cell) = existsb elementHasText (cell_content cell).
Proof.
  unfold cellRangeOf. destruct (cell_content cell) as [| first [| second rest]];
    simpl; repeat split; reflexivity.
Qed.

(** C6, as the code has it: for a located cell the result holds the
    range of the cell, a content range that runs from the start of the
    first content element to the end of the last one (the trailing newline
    included), each falling back to the bound of the cell, and a flag that
    is true exactly when a text run of a paragraph of the cell's content
    list holds a code unit that is not whitespace. *)
Theorem located_cell_range content anchor rowIndex columnIndex rows row cell :
  findTargetTable content anchor = Some rows ->
  arrayGet rows rowIndex = Some row ->
  arrayGet (tableCells row) columnIndex = Some cell ->
  exists r,
    getTableCellRangeIn content anchor rowIndex columnIndex = Ok (Some r)
    /\ cellStartIndex r = cell_startIndex cell
    /\ cellEndIndex r = cell_endIndex cell
    /\ contentStartIndex r
       = orElse (bind_option (hd_error (cell_content cell)) el_startIndex)
           (cell_startIndex cell)
    /\ contentEndIndex r
       = orElse (bind_option (lastOf (cell_content cell)) el_endIndex)
           (cell_endIndex cell)
    /\ (hasContent r = true <->
        exists s e runs pe c ch,
          In (Paragraph s e runs) (cell_content cell) /\ In pe runs
          /\ pe_content pe = Some c /\ In ch c /\ isWhitespace ch = false).
Proof.
  intros Ht Hr Hc. exists (cellRangeOf cell).
  split; [eapply getTableCellRangeIn_located; eassumption |].
  destruct (cellRangeOf_fields cell) as (H1 & H2 & H3 & H4 & H5).
  repeat (split; [assumption |]).
  rewrite H5, existsb_exists. split.
  - intros (el & Hin & H). apply elementHasText_iff in H.
    destruct H as (s & e & runs & pe & c & ch & -> & H).
    exists s, e, runs, pe, c, ch. tauto.
  - intros (s & e & runs & pe & c & ch & Hin & H).
    exists (Paragraph s e runs). split; [exact Hin |].
    apply elementHasText_iff. exists s, e, runs, pe, c, ch. tauto.
Qed.

(** C6 as stated fails: the content range of the cell ends at 10, the end
    of the cell, not before the trailing newline at 9. *)
Lemma content_range_keeps_trailing_newline :
  exists r,
    getTableCellRangeIn filledCellBody 4 0 0 = Ok (Some r)
    /\ cellStartIndex r = Some 6 /\ cellEndIndex r = Some 10
    /\ contentStartIndex r = Some 7 /\ contentEndIndex r = Some 10
    /\ contentEndIndex r <> Some (10 - 1)
    /\ hasContent r = true.
Proof.
  eexists. split; [reflexivity |]. simpl. repeat split; try reflexivity.
  discriminate.
Qed.

(** ** The list detector *)

Ltac charclass :=
  unfold isBulletGlyph, isDigit, isLetter, isDotOrParen, BULLET in *;
  repeat match goal with
         | H : context [?a =? ?b] |- _ => destruct (Z.eqb_spec a b)
         | H : context [?a <=? ?b] |- _ => destruct (Z.leb_spec a b)
         | |- context [?a =? ?b] => destruct (Z.eqb_spec a b)
         | |- context [?a <=? ?b] => destruct (Z.leb_spec a b)
         end;
  simpl in *; try reflexivity; try discriminate; try lia.

Lemma digit_not_glyph c : isDigit c = true -> isBulletGlyph c = false.
Proof. intros H. charclass. Qed.

Lemma letter_not_glyph c : isLetter c = true -> isBulletGlyph c = false.
Proof. intros H. charclass. Qed.

Lemma letter_not_digit c : isLetter c = true -> isDigit c = false.
Proof. intros H. charclass. Qed.

Lemma dotOrParen_not_digit c : isDotOrParen c = true -> isDigit c = false.
Proof. intros H. charclass. Qed.

Lemma takeWhile_dropWhile {A} (p : A -> bool) l :
  takeWhile p l ++ dropWhile p l = l.
Proof.
  induction l as [| x t IH]; simpl; [reflexivity |].
  destruct (p x); simpl; [rewrite IH |]; reflexivity.
Qed.

Lemma takeWhile_forallb {A} (p : A -> bool) l :
  forallb p (takeWhile p l) = true.
Proof.
  induction l as [| x t IH]; simpl; [reflexivity |].
  destruct (p x) eqn:E; simpl; [rewrite E, IH |]; reflexivity.
Qed.

Lemma takeWhile_stop {A} (p : A -> bool) ds x r :
  forallb p ds = true -> p x = false ->
  takeWhile p (ds ++ x :: r) = ds /\ dropWhile p (ds ++ x :: r) = x :: r.
Proof.
  intros Hds Hx. induction ds as [| d ds IH]; simpl in *.
  - rewrite Hx. auto.
  - apply andb_true_iff in Hds. destruct Hds as [Hd Hds]. rewrite Hd.
    destruct (IH Hds) as [-> ->]. auto.
Qed.

Lemma classifyMarker_sound text preset n :
  classifyMarker text = (Some preset, n) ->
  ListGrammar (trimStart text) preset n.
Proof.
  unfold classifyMarker. generalize (trimStart text) as t. intros t.
  destruct (testBullet t) eqn:Eb.
  - unfold testBullet in Eb. destruct t as [| g [| w rest]]; try discriminate.
    apply andb_true_iff in Eb. destruct Eb as [Hg Hw].
    unfold matchBullet. rewrite Hg. simpl lengthOrZero.
    intros H. inversion H; subst. apply BulletMarker; assumption.
  - destruct (testNumbered t) eqn:En.
    + unfold testNumbered, matchNumbered in *.
      pose proof (takeWhile_dropWhile isDigit t) as Ht.
      pose proof (takeWhile_forallb isDigit t) as Hds.
      destruct (takeWhile isDigit t) as [| d ds]; [discriminate |].
      destruct (dropWhile isDigit t) as [| p [| w rest]]; try discriminate.
      apply andb_true_iff in En. destruct En as [Hp Hw]. rewrite Hp.
      simpl lengthOrZero. intros H. inversion H; subst.
      apply NumberedMarker; auto. discriminate.
    + destruct (testLettered t) eqn:El; [| discriminate].
      unfold testLettered, matchLettered in *.
      destruct t as [| l [| p [| w rest]]]; try discriminate.
      apply andb_true_iff in El. destruct El as [El Hw].
      rewrite El. apply andb_true_iff in El. destruct El as [Hl Hp].
      simpl lengthOrZero. intros H. inversion H; subst.
      apply LetteredMarker; assumption.
Qed.

Lemma classifyMarker_complete text preset n :
  ListGrammar (trimStart text) preset n ->
  classifyMarker text = (Some preset, n).
Proof.
  unfold classifyMarker. generalize (trimStart text) as t. intros t H.
  destruct H as [g w rest Hg Hw | ds p w rest Hne Hds Hp Hw
                | l p w rest Hl Hp Hw].
  - unfold testBullet, matchBullet. rewrite Hg, Hw. reflexivity.
  - destruct ds as [| d ds]; [congruence |].
    assert (Hd : isDigit d = true)
      by (simpl in Hds; apply andb_true_iff in Hds; tauto).
    replace (testBullet ((d :: ds) ++ p :: w :: rest)) with false.
    2:{ simpl. rewrite (digit_not_glyph d Hd).
        destruct (ds ++ _); reflexivity. }
    unfold testNumbered, matchNumbered.
    destruct (takeWhile_stop isDigit (d :: ds) p (w :: rest) Hds
                (dotOrParen_not_digit p Hp)) as [-> ->].
    rewrite Hp, Hw. reflexivity.
  - unfold testBullet, testNumbered, testLettered, matchLettered.
    rewrite (letter_not_glyph l Hl). simpl.
    rewrite (letter_not_digit l Hl). rewrite Hl, Hp, Hw. reflexivity.
Qed.

Lemma classifyMarker_none text :
  fst (classifyMarker text) = None -> classifyMarker text = (None, 0).
Proof.
  unfold classifyMarker.
  destruct (testBullet _); [discriminate |].
  destruct (testNumbered _); [discriminate |].
  destruct (testLettered _); [discriminate | reflexivity].
Qed.

(** C7: the detector yields a style and a marker length exactly when
    the trimmed text of the paragraph matches one of the three grammars,
    with the style of that grammar and the length of the marker up to the
    end of its trailing whitespace, and yields no match exactly when none
    of the grammars matches; the two paragraphs of the scenario are
    classified as stated. *)
Theorem classifyMarker_grammars :
  (forall text preset n,
      classifyMarker text = (Some preset, n)
      <-> ListGrammar (trimStart text) preset n)
  /\ (forall text,
        classifyMarker text = (None, 0)
        <-> (forall preset n, ~ ListGrammar (trimStart text) preset n))
  /\ classifyMarker (str "1. First item" ++ [LF])
     = (Some NUMBERED_DECIMAL_NESTED, 3)
  /\ classifyMarker (str "Not a list" ++ [LF]) = (None, 0).
Proof.
  split; [| split; [| split; reflexivity]].
  - intros text preset n. split;
      [apply classifyMarker_sound | apply classifyMarker_complete].
  - intros text. split.
    + intros H preset n Hg. apply classifyMarker_complete in Hg. congruence.
    + intros H. apply classifyMarker_none.
      destruct (classifyMarker text) as [[preset |] n] eqn:E; [| reflexivity].
      exfalso. apply (H preset n). apply classifyMarker_sound. exact E.
Qed.

(** ** No-op elision *)

Lemma buildUpdateParagraphStyleRequest_none s e style :
  buildUpdateParagraphStyleRequest s e style = None
  <-> style = noParagraphStyle.
Proof.
  split.
  - destruct style as [[a |] [b |] [c |] [d |] [f |] [g |] [h |]];
      unfold buildUpdateParagraphStyleRequest; simpl; intros H;
      try discriminate. reflexivity.
  - intros ->. reflexivity.
Qed.

Lemma buildUpdateTextStyleRequest_none hex s e style :
  buildUpdateTextStyleRequest hex s e style = Ok None <-> style = noTextStyle.
Proof.
  split.
  - destruct style as [[a |] [b |] [c |] [d |] [f |] [g |] [h |] [i |] [j |]];
      unfold buildUpdateTextStyleRequest, colorField; simpl;
      repeat match goal with
             | |- context [hex ?x] => destruct (hex x)
             end; simpl; intros H; try discriminate; reflexivity.
  - intros ->. reflexivity.
Qed.

(** C8: a text-style or paragraph-style builder returns no request when
    no style field is defined (and only then); inserting the empty string,
    and submitting an empty or a missing request list, return the empty
    result and leave the world, the trace of remote calls included, as it
    was. *)
Theorem no_op_elision :
  (forall hex s e, buildUpdateTextStyleRequest hex s e noTextStyle = Ok None)
  /\ (forall hex s e style,
        buildUpdateTextStyleRequest hex s e style = Ok None
        <-> style = noTextStyle)
  /\ (forall s e, buildUpdateParagraphStyleRequest s e noParagraphStyle = None)
  /\ (forall s e style,
        buildUpdateParagraphStyleRequest s e style = None
        <-> style = noParagraphStyle)
  /\ (forall index c w, insertText [] index c w = (Ok emptyResponse, w))
  /\ (forall c w, executeBatchUpdate (Some []) c w = (Ok emptyResponse, w))
  /\ (forall c w, executeBatchUpdate None c w = (Ok emptyResponse, w)).
Proof.
  split; [reflexivity |].
  split; [exact buildUpdateTextStyleRequest_none |].
  split; [reflexivity |].
  split; [exact buildUpdateParagraphStyleRequest_none |].
  repeat split; reflexivity.
Qed.

(** ** Batches are submitted whole *)

Lemma batchCalls_app tr1 tr2 :
  batchCalls (tr1 ++ tr2) = batchCalls tr1 ++ batchCalls tr2.
Proof. apply flat_map_app. Qed.

(** What a non-empty submission does, in one equation. *)
Lemma executeBatchUpdate_run r rs c w :
  executeBatchUpdate (Some (r :: rs)) c w
  = (match documentsBatchUpdate c (remoteDoc w) (r :: rs) with
     | inl err => Throw (translateBatchError (ApiFailure err))
     | inr (data, _) => Ok data
     end,
     mkWorld
       (match documentsBatchUpdate c (remoteDoc w) (r :: rs) with
        | inl _ => remoteDoc w
        | inr (_, doc') => doc'
        end)
       (trace w
        ++ (if MAX_BATCH_UPDATE_REQUESTS <? arrayLength (r :: rs)
            then [OversizeWarning (arrayLength (r :: rs))] else [])
        ++ [BatchUpdateCall (r :: rs)])).
Proof.
  unfold executeBatchUpdate, bind, rethrow, batchUpdate, bind, emit, ret.
  destruct (MAX_BATCH_UPDATE_REQUESTS <? arrayLength (r :: rs));
    cbn -[translateBatchError];
    destruct (documentsBatchUpdate c (remoteDoc w) (r :: rs))
      as [err | [data doc']];
    cbn -[translateBatchError]; rewrite <- ?app_assoc; reflexivity.
Qed.

(** C10: a non-empty request list of any length is submitted as one
    write call that carries the whole list; beyond 50 requests a warning
    is emitted first and the list is sent all the same. *)
Theorem executeBatchUpdate_single_call r rs c w :
  trace (snd (executeBatchUpdate (Some (r :: rs)) c w))
  = trace w
    ++ (if MAX_BATCH_UPDATE_REQUESTS <? arrayLength (r :: rs)
        then [OversizeWarning (arrayLength (r :: rs))] else [])
    ++ [BatchUpdateCall (r :: rs)]
  /\ batchCalls (trace (snd (executeBatchUpdate (Some (r :: rs)) c w)))
     = batchCalls (trace w) ++ [r :: rs]
  /\ fst (executeBatchUpdate (Some (r :: rs)) c w)
     = match documentsBatchUpdate c (remoteDoc w) (r :: rs) with
       | inl err => Throw (translateBatchError (ApiFailure err))
       | inr (data, _) => Ok data
       end.
Proof.
  rewrite executeBatchUpdate_run. cbn [fst snd trace].
  split; [reflexivity |]. split; [| reflexivity].
  rewrite !batchCalls_app.
  destruct (MAX_BATCH_UPDATE_REQUESTS <? arrayLength (r :: rs)); simpl;
    rewrite ?app_nil_r; reflexivity.
Qed.

(** ** Cell editing *)

Lemma getTableCellRange_run tsi row col c w :
  getTableCellRange tsi row col c w
  = (match documentsGet c (remoteDoc w) with
     | inl _ => Throw cellRangeFailure
     | inr view =>
         match body_content view with
         | None => Ok None
         | Some content =>
             match getTableCellRangeIn content tsi row col with
             | Ok found => Ok found
             | Throw _ => Throw cellRangeFailure
             end
         end
     end,
     mkWorld (remoteDoc w) (trace w ++ [GetCall])).
Proof.
  unfold getTableCellRange, rethrow, bind, getDocument, bind, emit, ret,
    liftRes.
  cbn -[getTableCellRangeIn cellRangeFailure].
  destruct (documentsGet c (remoteDoc w)) as [err | view];
    cbn -[getTableCellRangeIn cellRangeFailure]; [reflexivity |].
  destruct (body_content view) as [content |];
    cbn -[getTableCellRangeIn cellRangeFailure]; [| reflexivity].
  destruct (getTableCellRangeIn content tsi row col); reflexivity.
Qed.

(** With no text content the only remote call is the read of the cell
    lookup. *)
Lemma editTableCell_without_text
    tsi row col textStyle paragraphStyle c w :
  let run := editTableCell tsi row col None textStyle paragraphStyle c w in
  trace (snd run) = trace w ++ [GetCall]
  /\ batchCalls (trace (snd run)) = batchCalls (trace w)
  /\ remoteDoc (snd run) = remoteDoc w
  /\ (forall range,
        fst (getTableCellRange tsi row col c w) = Ok (Some range) ->
        fst run = Ok (mkEditResult true))
  /\ (fst (getTableCellRange tsi row col c w) = Ok None ->
      fst run = Throw (UserError "Could not find cell"))
  /\ (forall e,
        fst (getTableCellRange tsi row col c w) = Throw e ->
        fst run = Throw e).
Proof.
  intros run. subst run. unfold editTableCell, bind.
  rewrite getTableCellRange_run.
  destruct (documentsGet c (remoteDoc w)) as [err | view];
    cbn -[getTableCellRangeIn cellRangeFailure].
  { rewrite batchCalls_app. simpl. rewrite app_nil_r.
    repeat split; try reflexivity; intros; try discriminate; congruence. }
  destruct (body_content view) as [content |];
    cbn -[getTableCellRangeIn cellRangeFailure].
  2:{ rewrite batchCalls_app. simpl. rewrite app_nil_r.
      repeat split; try reflexivity; intros; discriminate. }
  destruct (getTableCellRangeIn content tsi row col) as [[range |] | e];
    cbn -[cellRangeFailure].
  - rewrite andb_false_r. cbn.
    rewrite batchCalls_app. simpl. rewrite app_nil_r.
    repeat split; try reflexivity; intros; discriminate.
  - rewrite batchCalls_app. simpl. rewrite app_nil_r.
    repeat split; try reflexivity; intros; discriminate.
  - rewrite batchCalls_app. simpl. rewrite app_nil_r.
    repeat split; try reflexivity; intros; try discriminate; congruence.
Qed.

Lemma editRequests_empty_text range :
  Forall (fun r => isStyleRequest r = false) (editRequests range (Some [])).
Proof.
  unfold editRequests. rewrite app_nil_r.
  destruct (hasContent range); [| constructor].
  destruct (contentEndIndex range), (contentStartIndex range);
    try constructor.
  destruct (_ <? _); repeat constructor.
Qed.

Lemma submitIfAny_calls requests c w :
  batchCalls (trace (snd (submitIfAny requests c w)))
  = batchCalls (trace w)
    ++ match requests with [] => [] | _ :: _ => [requests] end.
Proof.
  destruct requests as [| r rs]; [simpl; rewrite app_nil_r; reflexivity |].
  unfold submitIfAny. rewrite executeBatchUpdate_run. cbn [snd trace].
  rewrite !batchCalls_app.
  destruct (MAX_BATCH_UPDATE_REQUESTS <? arrayLength (r :: rs)); simpl;
    rewrite ?app_nil_r; reflexivity.
Qed.

(** Without a non-empty text no style request is ever sent. *)
Lemma editTableCell_styles_need_text
    tsi row col textContent textStyle paragraphStyle c w :
  isNonEmpty textContent = false ->
  exists sent,
    batchCalls
      (trace (snd (editTableCell tsi row col textContent textStyle
                     paragraphStyle c w)))
    = batchCalls (trace w) ++ sent
    /\ Forall (Forall (fun r => isStyleRequest r = false)) sent.
Proof.
  intros Htext.
  destruct textContent as [[| ch text] |]; try discriminate.
  - unfold editTableCell, bind. rewrite getTableCellRange_run.
    destruct (match documentsGet c (remoteDoc w) with
              | inl _ => _ | inr _ => _ end) as [[range |] | e] eqn:E.
    + cbv beta iota delta [bind ret isNonEmpty]. rewrite andb_false_r.
      match goal with
      | |- context [submitIfAny ?r c ?w0] =>
          remember r as reqs eqn:Ereqs;
          pose proof (submitIfAny_calls reqs c w0) as Hs
      end.
      assert (Hreq : Forall (fun r => isStyleRequest r = false) reqs)
        by (subst reqs; apply editRequests_empty_text).
      cbn [trace] in Hs. rewrite batchCalls_app in Hs.
      cbn [batchCalls flat_map app] in Hs. rewrite app_nil_r in Hs.
      destruct (submitIfAny reqs c _) as [[resp | e] w1]; cbn [snd] in Hs;
        cbv beta iota; cbn [snd]; rewrite Hs;
        (eexists; split; [reflexivity |]);
        (destruct reqs;
         [constructor | constructor; [exact Hreq | constructor]]).
    + cbn. exists []. rewrite batchCalls_app. simpl. split; [reflexivity |].
      constructor.
    + cbn. exists []. rewrite batchCalls_app. simpl. split; [reflexivity |].
      constructor.
  - exists [].
    destruct (editTableCell_without_text tsi row col textStyle
                paragraphStyle c w) as (_ & H & _).
    simpl in H. rewrite H, app_nil_r. split; [reflexivity | constructor].
Qed.

(** C9, as the code has it: when the text content is undefined, whatever
    styles are given, the only remote call is the read of the cell
    lookup: no write call is issued and the remote document is unchanged.
    The result is [success: true] exactly in the case that the lookup
    finds the cell: when the lookup finds none the function throws its
    [UserError], and when the lookup throws the function throws the same.
    For every text content that is undefined or empty no style request
    is ever sent. *)
Theorem editTableCell_without_text_sends_nothing
    tsi row col textStyle paragraphStyle c w :
  let run := editTableCell tsi row col None textStyle paragraphStyle c w in
  trace (snd run) = trace w ++ [GetCall]
  /\ batchCalls (trace (snd run)) = batchCalls (trace w)
  /\ remoteDoc (snd run) = remoteDoc w
  /\ (forall range,
        fst (getTableCellRange tsi row col c w) = Ok (Some range) ->
        fst run = Ok (mkEditResult true))
  /\ (fst (getTableCellRange tsi row col c w) = Ok None ->
      fst run = Throw (UserError "Could not find cell"))
  /\ (forall e,
        fst (getTableCellRange tsi row col c w) = Throw e ->
        fst run = Throw e)
  /\ (forall textContent,
        isNonEmpty textContent = false ->
        exists sent,
          batchCalls
            (trace (snd (editTableCell tsi row col textContent textStyle
                           paragraphStyle c w)))
          = batchCalls (trace w) ++ sent
          /\ Forall (Forall (fun r => isStyleRequest r = false)) sent).
Proof.
  intros run.
  destruct (editTableCell_without_text tsi row col textStyle paragraphStyle
              c w) as (H1 & H2 & H3 & H4 & H5 & H6).
  repeat (split; [assumption |]).
  intros textContent Htext. apply editTableCell_styles_need_text. exact Htext.
Qed.

(** C9 as stated fails: with the text content undefined and a text style
    given, a call whose anchor lies more than 10 before the table, or
    whose row index is beyond its rows, finds no cell; it sends no
    request, but it does not return [success: true]: it throws. *)
Lemma editTableCell_without_cell_throws :
  editTableCell 20 0 0 None (Some boldOnly) None idleCollaborators
    twoByThreeWorld
  = (Throw (UserError "Could not find cell"), afterRead twoByThreeWorld)
  /\ editTableCell 50 5 0 None (Some boldOnly) None idleCollaborators
       twoByThreeWorld
     = (Throw (UserError "Could not find cell"), afterRead twoByThreeWorld).
Proof. split; reflexivity. Qed.

(** ** Descending order of the submitted batches *)

Lemma dropWhile_length {A} (p : A -> bool) l :
  (length (dropWhile p l) <= length l)%nat.
Proof.
  induction l as [| x t IH]; simpl; [lia |].
  destruct (p x); simpl; lia.
Qed.

Lemma markerMatch_nonEmpty t m : markerMatch t = Some m -> t <> [].
Proof. intros H ->. discriminate. Qed.

(** The scan of phase 2, from any state: the text grows by the runs that
    carry a start index, and the first of them on an empty text gives the
    start index. *)
Lemma markerScan_bound runs : forall lo hi acc t,
  runsWithin lo hi runs ->
  (acc <> [] -> t + strlen acc <= lo) ->
  forall text tsi,
    fold_left markerScanStep runs (acc, t) = (text, tsi) ->
    text <> [] ->
    (acc = [] -> lo <= tsi) /\ (acc <> [] -> tsi = t)
    /\ tsi + strlen text <= hi.
Proof.
  induction runs as [| pe rest IH]; intros lo hi acc t Hw Hacc text tsi Hf Hne.
  - simpl in *. inversion Hf; subst. repeat split; try congruence.
    specialize (Hacc Hne). lia.
  - cbn [fold_left] in Hf. simpl in Hw.
    change (markerScanStep (acc, t) pe)
      with (match pe_content pe, pe_startIndex pe with
            | Some (c :: cs), Some s =>
                (acc ++ c :: cs,
                 match acc with [] => s | _ :: _ => t end)
            | _, _ => (acc, t)
            end) in Hf.
    unfold runLength in Hw.
    destruct (pe_content pe) as [[| c cs] |] eqn:Ec;
      destruct (pe_startIndex pe) as [s |] eqn:Es.
    + destruct Hw as [Hlo Hw].
      assert (Hacc0 : acc <> [] -> t + strlen acc <= s + strlen [])
        by (intros H; specialize (Hacc H); unfold strlen at 2; simpl; lia).
      destruct (IH _ _ _ _ Hw Hacc0 _ _ Hf Hne) as (H1 & H2 & H3).
      repeat split; auto. intros Hnil. specialize (H1 Hnil).
      unfold strlen in H1; simpl in H1. lia.
    + eapply IH; eauto.
    + destruct Hw as [Hlo Hw].
      assert (Hne' : acc ++ c :: cs <> []) by (destruct acc; discriminate).
      assert (Hacc1 : acc ++ c :: cs <> [] ->
                      match acc with [] => s | _ :: _ => t end
                      + strlen (acc ++ c :: cs) <= s + strlen (c :: cs)).
      { intros _. rewrite strlen_app. destruct acc as [| a acc'].
        - unfold strlen at 1. simpl. lia.
        - specialize (Hacc ltac:(discriminate)). lia. }
      destruct (IH _ _ _ _ Hw Hacc1 _ _ Hf Hne) as (_ & H2 & H3).
      specialize (H2 Hne'). subst tsi.
      repeat split; auto.
      * intros ->. lia.
      * intros Hn. destruct acc; congruence.
    + eapply IH; eauto.
    + destruct Hw as [Hlo Hw].
      assert (Hacc2 : acc <> [] -> t + strlen acc <= s + 0)
        by (intros H; specialize (Hacc H); lia).
      destruct (IH _ _ _ _ Hw Hacc2 _ _ Hf Hne) as (H1 & H2 & H3).
      repeat split; auto. intros Hnil. specialize (H1 Hnil). lia.
    + eapply IH; eauto.
Qed.

Lemma ascendingOffsets_weaken l : forall lo lo' hi,
  lo' <= lo -> ascendingOffsets lo hi l -> ascendingOffsets lo' hi l.
Proof.
  destruct l as [| r t]; simpl; intros lo lo' hi Hlo H; [lia |].
  destruct (requestOffset r); [| contradiction].
  destruct H. split; [lia | assumption].
Qed.

Lemma markerDeletes_ascending content : forall lo hi,
  wfContent lo hi content -> ascendingOffsets lo hi (markerDeletes content).
Proof.
  unfold wfContent.
  induction content as [| el rest IH]; intros lo hi [Hsp Hall]; simpl in *.
  - exact Hsp.
  - destruct Hall as [Hel Hrest].
    destruct el as [[s |] [e |] runs | [s |] [e |] rows | s e | s e];
      simpl in Hel; try contradiction.
    + (* a paragraph *)
      unfold el_span in Hsp. simpl in Hsp. destruct Hsp as (Hlo & Hse & Hsp).
      specialize (IH e hi (conj Hsp Hrest)).
      unfold markerScan.
      destruct (fold_left markerScanStep runs ([], s)) as [text tsi] eqn:Ef.
      destruct (markerMatch (trimStart text)) as [m |] eqn:Em.
      * pose proof (markerMatch_nonEmpty _ _ Em) as Htrim.
        assert (Htext : text <> []).
        { intros ->. apply Htrim. reflexivity. }
        destruct (markerScan_bound runs s e [] s Hel ltac:(congruence)
                    text tsi Ef Htext) as (H1 & _ & H3).
        specialize (H1 eq_refl).
        pose proof (strlen_pos _ Htrim) as Hpos.
        pose proof (dropWhile_length isWhitespace text) as Hlen.
        assert (Hle : strlen (trimStart text) <= strlen text)
          by (unfold strlen, trimStart; lia).
        simpl. split; [lia |].
        eapply ascendingOffsets_weaken; [| exact IH]. lia.
      * eapply ascendingOffsets_weaken; [| exact IH]. lia.
    + (* a table *)
      unfold el_span in Hsp. simpl in Hsp. destruct Hsp as (Hlo & Hse & Hsp).
      eapply ascendingOffsets_weaken; [| apply (IH e hi (conj Hsp Hrest))].
      lia.
    + unfold el_span in Hsp. simpl in Hsp.
      destruct (spanOf s e) as [[a b] |]; simpl in Hsp.
      * destruct Hsp as (Hlo & Hse & Hsp).
        eapply ascendingOffsets_weaken; [| apply (IH b hi (conj Hsp Hrest))].
        lia.
      * apply IH. split; assumption.
    + unfold el_span in Hsp. simpl in Hsp.
      destruct (spanOf s e) as [[a b] |]; simpl in Hsp.
      * destruct Hsp as (Hlo & Hse & Hsp).
        eapply ascendingOffsets_weaken; [| apply (IH b hi (conj Hsp Hrest))].
        lia.
      * apply IH. split; assumption.
Qed.

Lemma ascendingOffsets_sorted l : forall lo hi,
  ascendingOffsets lo hi l ->
  StronglySorted (fun a b => offsetAbove b a) l
  /\ Forall (fun r => exists x, requestOffset r = Some x /\ lo <= x) l.
Proof.
  induction l as [| r t IH]; simpl; intros lo hi H.
  - split; constructor.
  - destruct (requestOffset r) as [x |] eqn:Er; [| contradiction].
    destruct H as [Hlo Ht]. destruct (IH _ _ Ht) as [Hs Hf].
    split.
    + constructor; [exact Hs |].
      eapply Forall_impl; [| exact Hf]. simpl.
      intros b (y & Hy & Hxy). exists y, x.
      split; [exact Hy |]. split; [exact Er | lia].
    + constructor; [exists x; split; [exact Er | lia] |].
      eapply Forall_impl; [| exact Hf]. simpl.
      intros b (y & Hy & Hxy). exists y. split; [exact Hy | lia].
Qed.

Lemma StronglySorted_app {A} (R : A -> A -> Prop) l1 l2 :
  StronglySorted R l1 -> StronglySorted R l2 ->
  (forall a b, In a l1 -> In b l2 -> R a b) ->
  StronglySorted R (l1 ++ l2).
Proof.
  induction 1 as [| x t Ht IH Hx]; simpl; intros H2 Hc; [exact H2 |].
  constructor.
  - apply IH; [exact H2 |]. intros a b Ha Hb. apply Hc; [right |]; assumption.
  - apply Forall_app. split; [exact Hx |].
    apply Forall_forall. intros b Hb. apply Hc; [left; reflexivity | exact Hb].
Qed.

Lemma StronglySorted_rev {A} (R : A -> A -> Prop) l :
  StronglySorted R l -> StronglySorted (fun a b => R b a) (rev l).
Proof.
  induction 1 as [| x t Ht IH Hx]; simpl; [constructor |].
  apply StronglySorted_app; [exact IH | repeat constructor |].
  intros a b Ha [<- | []]. apply in_rev in Ha.
  rewrite Forall_forall in Hx. apply Hx. exact Ha.
Qed.

Lemma markerDeleteBatch_descending content :
  WellFormed content -> strictlyDescending (markerDeleteBatch content).
Proof.
  intros [hi Hwf]. unfold strictlyDescending, markerDeleteBatch,
    markerDeleteBatchOf.
  apply markerDeletes_ascending in Hwf.
  apply ascendingOffsets_sorted in Hwf. destruct Hwf as [Hs _].
  apply StronglySorted_rev in Hs. exact Hs.
Qed.

Lemma StronglySorted_strict {A} (key : A -> Z) l :
  StronglySorted (fun a b => key b - key a <= 0) l ->
  NoDup (map key l) ->
  StronglySorted (fun a b => key b < key a) l.
Proof.
  induction 1 as [| x t Ht IH Hx]; simpl; intros Hnd; [constructor |].
  inversion Hnd as [| ? ? Hnotin Hnd']; subst.
  constructor; [apply IH; exact Hnd' |].
  rewrite Forall_forall in *. intros b Hb. specialize (Hx b Hb).
  assert (key b <> key x).
  { intros E. apply Hnotin. rewrite <- E. apply in_map. exact Hb. }
  lia.
Qed.

Lemma StronglySorted_map {A B} (f : A -> B) (R : A -> A -> Prop)
    (S : B -> B -> Prop) l :
  (forall a b, R a b -> S (f a) (f b)) ->
  StronglySorted R l -> StronglySorted S (map f l).
Proof.
  intros HRS. induction 1 as [| x t Ht IH Hx]; simpl; constructor; auto.
  rewrite Forall_forall in *. intros b Hb.
  apply in_map_iff in Hb. destruct Hb as (a & <- & Ha). auto.
Qed.

(** ** Distinct insertion offsets *)

Lemma NoDup_app_parts {A} (a b : list A) :
  NoDup (a ++ b) ->
  NoDup a /\ NoDup b /\ (forall x, In x a -> ~ In x b).
Proof.
  intros H. split; [eapply NoDup_app_remove_r; exact H |].
  split; [eapply NoDup_app_remove_l; exact H |].
  induction a as [| y a IH]; simpl in *; [tauto |].
  inversion H as [| ? ? Hy Ha]; subst.
  intros x [<- | Hx] Hb.
  - apply Hy. apply in_or_app. right. exact Hb.
  - exact (IH Ha x Hx Hb).
Qed.

Lemma forIndexed_incl {A B} (body : nat -> A -> list B) (full : A -> list B) l :
  (forall i x, incl (body i x) (full x)) ->
  forall i, incl (forIndexed body i l) (flat_map full l).
Proof.
  intros Hb. induction l as [| x t IH]; intros i; simpl.
  - apply incl_refl.
  - apply incl_app_app; [apply Hb | apply IH].
Qed.

Lemma forIndexed_NoDup {A B} (body : nat -> A -> list B)
    (full : A -> list B) l :
  (forall i x, incl (body i x) (full x)) ->
  (forall i x, NoDup (full x) -> NoDup (body i x)) ->
  NoDup (flat_map full l) -> forall i, NoDup (forIndexed body i l).
Proof.
  intros Hincl Hnd. induction l as [| x t IH]; intros Hfull i; simpl.
  - constructor.
  - simpl in Hfull. apply NoDup_app_parts in Hfull.
    destruct Hfull as (Hx & Ht & Hdisj).
    apply NoDup_app; [apply Hnd; exact Hx | apply IH; exact Ht |].
    intros a Ha Hin. apply (Hdisj a).
    + apply (Hincl i x). exact Ha.
    + apply (forIndexed_incl body full t Hincl (S i)). exact Hin.
Qed.

Lemma map_forIndexed {A B C} (f : B -> C) (body : nat -> A -> list B) l :
  forall i, map f (forIndexed body i l)
            = forIndexed (fun i x => map f (body i x)) i l.
Proof.
  induction l as [| x t IH]; intros i; simpl; [reflexivity |].
  rewrite map_app, IH. reflexivity.
Qed.

Lemma cellInsertionOf_offset headers rows bh bt rowIdx colIdx cell :
  map ci_index (cellInsertionOf headers rows bh bt rowIdx colIdx cell) = []
  \/ map ci_index (cellInsertionOf headers rows bh bt rowIdx colIdx cell)
     = cellOffset cell.
Proof.
  unfold cellInsertionOf, cellOffset.
  destruct (cell_content cell) as [| firstContent rest]; [left; reflexivity |].
  destruct (cellTextAndBold headers rows bh bt rowIdx colIdx)
    as [[| ch text] isBold]; [left; reflexivity |].
  destruct (cellInsertionIndex firstContent); [right | left]; reflexivity.
Qed.

Lemma collectCellInsertions_NoDup tableRows headers rows bh bt :
  NoDup (cellStartOffsets tableRows) ->
  NoDup (map ci_index (collectCellInsertions tableRows headers rows bh bt)).
Proof.
  intros H. unfold collectCellInsertions. rewrite map_forIndexed.
  assert (Hcell_incl : forall rowIdx colIdx cell,
             incl (map ci_index
                     (cellInsertionOf headers rows bh bt rowIdx colIdx cell))
                  (cellOffset cell)).
  { intros r c cell.
    destruct (cellInsertionOf_offset headers rows bh bt r c cell) as [-> | ->];
      [apply incl_nil_l | apply incl_refl]. }
  assert (Hcell_nd : forall rowIdx colIdx cell,
             NoDup (cellOffset cell) ->
             NoDup (map ci_index
                      (cellInsertionOf headers rows bh bt rowIdx colIdx cell))).
  { intros r c cell Hnd.
    destruct (cellInsertionOf_offset headers rows bh bt r c cell) as [-> | ->];
      [constructor | exact Hnd]. }
  apply forIndexed_NoDup
    with (full := fun row => flat_map cellOffset (tableCells row));
    [| | exact H].
  - intros rowIdx row. rewrite map_forIndexed.
    apply forIndexed_incl. intros colIdx cell. apply Hcell_incl.
  - intros rowIdx row Hrow. rewrite map_forIndexed.
    apply forIndexed_NoDup with (full := cellOffset);
      [intros; apply Hcell_incl | intros; apply Hcell_nd; assumption
      | exact Hrow].
Qed.

Lemma tableInsertionBatch_descending tableRows headers rows bh bt :
  NoDup (cellStartOffsets tableRows) ->
  strictlyDescending (tableInsertionBatch tableRows headers rows bh bt).
Proof.
  intros Hnd.
  apply (collectCellInsertions_NoDup tableRows headers rows bh bt) in Hnd.
  unfold strictlyDescending, tableInsertionBatch, textRequestsOf.
  set (cells := collectCellInsertions tableRows headers rows bh bt) in *.
  apply StronglySorted_map with (R := fun a b => ci_index b < ci_index a).
  - intros a b Hab. exists (ci_index a), (ci_index b). simpl. auto.
  - apply StronglySorted_strict.
    + unfold sortCellInsertions.
      apply sortBy_sorted with (cmp := fun a b => ci_index b - ci_index a);
        intros; lia.
    + eapply Permutation_NoDup; [| exact Hnd].
      apply Permutation_map. symmetry. apply sortBy_perm.
Qed.

Lemma editRequests_pair cellRange textContent a b rest :
  editRequests cellRange textContent = a :: b :: rest ->
  rest = [] /\ overlapping a b.
Proof.
  unfold editRequests. destruct textContent as [text |]; [| discriminate].
  destruct (hasContent cellRange); simpl.
  2:{ destruct text; discriminate. }
  destruct (contentEndIndex cellRange) as [ce |],
           (contentStartIndex cellRange) as [cs |]; simpl;
    try (destruct text; discriminate).
  destruct (Z.ltb_spec cs (ce - 1)); simpl; [| destruct text; discriminate].
  destruct text as [| ch text]; simpl; [discriminate |].
  intros Heq. inversion Heq; subst. split; [reflexivity |].
  unfold overlapping. simpl. left. lia.
Qed.

(** ** What the operations submit *)

Lemma Sends_ret {A} c P (a : A) : Sends c P (ret a).
Proof. intros w. exists []. simpl. rewrite app_nil_r. auto. Qed.

Lemma Sends_throw {A} c P e : Sends c P (@throw A e).
Proof. intros w. exists []. simpl. rewrite app_nil_r. auto. Qed.

Lemma Sends_bind {A B} c P (m : M A) (k : A -> M B) :
  Sends c P m -> (forall a, Sends c P (k a)) -> Sends c P (bind m k).
Proof.
  intros Hm Hk w. unfold bind.
  destruct (Hm w) as (sent1 & E1 & F1).
  destruct (m c w) as [[a | e] w1]; simpl in E1 |- *.
  - destruct (Hk a w1) as (sent2 & E2 & F2).
    exists (sent1 ++ sent2). rewrite E2, E1, app_assoc. split; [reflexivity |].
    apply Forall_app. auto.
  - exists sent1. auto.
Qed.

Lemma Sends_bind_post {A B} c P (Q : A -> Prop) (m : M A) (k : A -> M B) :
  Sends c P m ->
  (forall w a w', m c w = (Ok a, w') -> Q a) ->
  (forall a, Q a -> Sends c P (k a)) ->
  Sends c P (bind m k).
Proof.
  intros Hm HQ Hk w. unfold bind.
  destruct (Hm w) as (sent1 & E1 & F1).
  destruct (m c w) as [[a | e] w1] eqn:Em; simpl in E1 |- *.
  - destruct (Hk a (HQ _ _ _ Em) w1) as (sent2 & E2 & F2).
    exists (sent1 ++ sent2). rewrite E2, E1, app_assoc. split; [reflexivity |].
    apply Forall_app. auto.
  - exists sent1. auto.
Qed.

Lemma Sends_rethrow {A} c P (m : M A) handler :
  Sends c P m -> Sends c P (rethrow m handler).
Proof.
  intros Hm w. unfold rethrow. destruct (Hm w) as (sent & E & F).
  destruct (m c w) as [[a | e] w1]; simpl in *; exists sent; auto.
Qed.

Lemma getDocument_run c w :
  getDocument c w
  = (match documentsGet c (remoteDoc w) with
     | inl err => Throw (ApiFailure err)
     | inr view => Ok view
     end,
     mkWorld (remoteDoc w) (trace w ++ [GetCall])).
Proof.
  unfold getDocument, bind, emit. simpl.
  destruct (documentsGet c (remoteDoc w)); reflexivity.
Qed.

(** A read submits nothing, and what it returns is a view the
    collaborator gave. *)
Lemma Sends_getDocument {B} c P (k : Document -> M B) :
  (forall doc view, documentsGet c doc = inr view -> Sends c P (k view)) ->
  Sends c P (bind getDocument k).
Proof.
  intros Hk w. unfold bind. rewrite getDocument_run.
  destruct (documentsGet c (remoteDoc w)) as [err | view] eqn:E.
  - exists []. simpl. rewrite batchCalls_app, !app_nil_r. auto.
  - destruct (Hk _ _ E (mkWorld (remoteDoc w) (trace w ++ [GetCall])))
      as (sent & Es & F).
    exists sent. rewrite Es. simpl. rewrite batchCalls_app. simpl.
    rewrite app_nil_r. auto.
Qed.

Lemma Sends_executeBatchUpdate c (P : list Request -> Prop) requests :
  (requests <> [] -> P requests) ->
  Sends c P (executeBatchUpdate (Some requests)).
Proof.
  intros HP w. destruct requests as [| r rs].
  - exists []. simpl. rewrite app_nil_r. auto.
  - exists [r :: rs]. rewrite executeBatchUpdate_run. cbn [snd trace].
    rewrite !batchCalls_app.
    split; [| constructor; [apply HP; discriminate | constructor]].
    destruct (MAX_BATCH_UPDATE_REQUESTS <? arrayLength (r :: rs)); simpl;
      rewrite ?app_nil_r; reflexivity.
Qed.

Lemma Sends_submitIfAny c (P : list Request -> Prop) requests :
  (requests <> [] -> P requests) -> Sends c P (submitIfAny requests).
Proof.
  intros HP. destruct requests as [| r rs]; [apply Sends_ret |].
  unfold submitIfAny. apply Sends_executeBatchUpdate. exact HP.
Qed.

(** The locators only read. *)
Lemma getTableCellRange_sends c P tableStartIndex rowIndex columnIndex :
  Sends c P (getTableCellRange tableStartIndex rowIndex columnIndex).
Proof.
  unfold getTableCellRange. apply Sends_rethrow.
  apply Sends_getDocument. intros doc view _.
  destruct (body_content view); [| apply Sends_ret].
  intros w. exists []. simpl. rewrite app_nil_r. auto.
Qed.

Lemma findTextRange_sends c P textToFind instance :
  Sends c P (findTextRange textToFind instance).
Proof.
  unfold findTextRange. apply Sends_rethrow.
  apply Sends_getDocument. intros doc view _.
  destruct (body_content view); apply Sends_ret.
Qed.

(** What [detectAndFormatLists] submits: the bullet requests of the body
    it fetched, then the marker deletions of the body it fetched again. *)
Lemma detectAndFormatLists_sends c startIndex endIndex :
  Sends c
    (fun requests =>
       (exists content,
           Fetched c content
           /\ requests = bulletRequests content startIndex endIndex)
       \/ (exists updated,
              Fetched c updated /\ requests = markerDeleteBatch updated))
    (detectAndFormatLists startIndex endIndex).
Proof.
  unfold detectAndFormatLists.
  apply Sends_getDocument. intros doc view Hview.
  destruct (body_content view) as [content |] eqn:Ec; [| apply Sends_throw].
  destruct (bulletRequests content startIndex endIndex) as [| r rs] eqn:Eb;
    [apply Sends_ret |].
  apply Sends_bind.
  { apply Sends_executeBatchUpdate. intros _. left. exists content.
    split; [exists doc, view; auto | symmetry; exact Eb]. }
  intros result. apply Sends_getDocument. intros doc' view' Hview'.
  apply Sends_bind; [| intros; apply Sends_ret].
  destruct (body_content view') as [updated |] eqn:Eu; [| apply Sends_ret].
  destruct (markerDeletes updated) as [| d ds] eqn:Ed; [apply Sends_ret |].
  apply Sends_executeBatchUpdate. intros _. right. exists updated.
  split; [exists doc', view'; auto |].
  unfold markerDeleteBatch. rewrite Ed. reflexivity.
Qed.

(** What [createTableWithData] submits: the table insertion, the text
    insertions of the table it found in the fetched body, and the bold
    requests. *)
Lemma createTableWithData_sends c insertIndex headers rows bh bt :
  Sends c
    (fun requests =>
       requests = [InsertTable (arrayLength rows + 1) (arrayLength headers)
                     insertIndex]
       \/ (exists content tableRows start,
              Fetched c content
              /\ findInsertedTable content insertIndex = Some (tableRows, start)
              /\ requests = tableInsertionBatch tableRows headers rows bh bt)
       \/ (exists after start,
              Fetched c after
              /\ requests = boldRequestsOf after start rows bh bt))
    (createTableWithData insertIndex headers rows bh bt).
Proof.
  unfold createTableWithData.
  destruct (arrayLength headers =? 0); [apply Sends_throw |].
  apply Sends_bind.
  { apply Sends_executeBatchUpdate. intros _. left. reflexivity. }
  intros _. apply Sends_getDocument. intros doc view Hview.
  destruct (body_content view) as [content |] eqn:Ec; [| apply Sends_throw].
  destruct (findInsertedTable content insertIndex) as [[tableRows start] |]
    eqn:Ef; [| apply Sends_throw].
  apply Sends_bind.
  { apply Sends_submitIfAny. intros _. right. left.
    exists content, tableRows, start.
    split; [exists doc, view; auto |]. split; [exact Ef | reflexivity]. }
  intros _. apply Sends_bind; [| intros; apply Sends_ret].
  destruct (existsb ci_isBold _); [| apply Sends_ret].
  apply Sends_getDocument. intros doc' view' Hview'.
  destruct (body_content view') as [after |] eqn:Ea; [| apply Sends_ret].
  apply Sends_submitIfAny. intros _. right. right. exists after, start.
  split; [exists doc', view'; auto | reflexivity].
Qed.

Lemma buildUpdateTextStyleRequest_style hex s e style request fields :
  buildUpdateTextStyleRequest hex s e style = Ok (Some (request, fields)) ->
  isStyleRequest request = true.
Proof.
  unfold buildUpdateTextStyleRequest.
  destruct (colorField hex (foregroundColor style) _ _); [| discriminate].
  destruct (colorField hex (backgroundColor style) _ _); [| discriminate].
  destruct (map textFieldName _); [discriminate |].
  intros H. inversion H. reflexivity.
Qed.

Lemma buildUpdateParagraphStyleRequest_style s e style request fields :
  buildUpdateParagraphStyleRequest s e style = Some (request, fields) ->
  isStyleRequest request = true.
Proof.
  unfold buildUpdateParagraphStyleRequest.
  destruct (map paragraphFieldName _); [discriminate |].
  intros H. inversion H. reflexivity.
Qed.

Lemma styleRequests_styles hex updated text textStyle paragraphStyle l :
  styleRequests hex updated text textStyle paragraphStyle = Ok l ->
  Forall (fun r => isStyleRequest r = true) l.
Proof.
  unfold styleRequests.
  set (fromParagraph :=
         match paragraphStyle with
         | Some ps =>
             match buildUpdateParagraphStyleRequest _ _ ps with
             | Some (request, _) => [request]
             | None => []
             end
         | None => []
         end).
  assert (Hp : Forall (fun r => isStyleRequest r = true) fromParagraph).
  { subst fromParagraph. destruct paragraphStyle as [ps |]; [| constructor].
    destruct (buildUpdateParagraphStyleRequest _ _ ps) as [[request fields] |]
      eqn:E; [| constructor].
    apply buildUpdateParagraphStyleRequest_style in E. repeat constructor.
    exact E. }
  destruct textStyle as [ts |].
  - destruct (buildUpdateTextStyleRequest hex _ _ ts)
      as [[[request fields] |] | e] eqn:E; intros H; inversion H; subst.
    + apply buildUpdateTextStyleRequest_style in E. constructor; assumption.
    + exact Hp.
  - intros H. inversion H; subst. exact Hp.
Qed.

(** The content batch of a cell edit has at most two requests, and two
    only as a deletion followed by an insertion at its start. *)
Lemma editRequests_shape cellRange textContent :
  (length (editRequests cellRange textContent) <= 1)%nat
  \/ exists a b,
       editRequests cellRange textContent = [a; b] /\ overlapping a b.
Proof.
  destruct (editRequests cellRange textContent) as [| a [| b rest]] eqn:E;
    [left; simpl; lia | left; simpl; lia |].
  right. apply editRequests_pair in E as Hp. destruct Hp as [-> Ho].
  exists a, b. auto.
Qed.

(** What [editTableCell] submits: the content batch of the located cell,
    then style requests. *)
Lemma editTableCell_sends c tsi row col textContent textStyle paragraphStyle :
  Sends c
    (fun requests =>
       (exists cellRange, requests = editRequests cellRange textContent)
       \/ Forall (fun r => isStyleRequest r = true) requests)
    (editTableCell tsi row col textContent textStyle paragraphStyle).
Proof.
  unfold editTableCell.
  apply Sends_bind; [apply getTableCellRange_sends |].
  intros [cellRange |]; [| apply Sends_throw].
  apply Sends_bind.
  { apply Sends_submitIfAny. intros _. left. exists cellRange. reflexivity. }
  intros _. apply Sends_bind; [| intros; apply Sends_ret].
  destruct (_ && _); [| apply Sends_ret].
  apply Sends_bind; [apply getTableCellRange_sends |].
  intros [updated |]; [| apply Sends_ret].
  destruct textContent as [text |]; [| apply Sends_ret].
  apply Sends_bind_post
    with (Q := fun styles => Forall (fun r => isStyleRequest r = true) styles).
  - intros w. exists []. unfold liftRes. simpl. rewrite app_nil_r. auto.
  - intros w styles w' H. unfold liftRes in H. inversion H.
    eapply styleRequests_styles. eassumption.
  - intros styles Hs. apply Sends_submitIfAny. intros _. right. exact Hs.
Qed.

(** [insertText] submits one request at most. *)
Lemma insertText_sends c text index :
  Sends c (fun requests => length requests = 1%nat) (insertText text index).
Proof.
  unfold insertText. destruct text; [apply Sends_ret |].
  apply Sends_executeBatchUpdate. reflexivity.
Qed.

Lemma Sends_weaken {A} c (P Q : list Request -> Prop) (m : M A) :
  (forall requests, P requests -> Q requests) -> Sends c P m -> Sends c Q m.
Proof.
  intros HPQ Hm w. destruct (Hm w) as (sent & E & F).
  exists sent. split; [exact E |]. eapply Forall_impl; [| exact F]. exact HPQ.
Qed.

Lemma boldRunRequest_styles pe :
  Forall (fun r => isStyleRequest r = true) (boldRunRequest pe).
Proof.
  unfold boldRunRequest. destruct (runHasText pe); [| constructor].
  destruct (pe_startIndex pe), (pe_endIndex pe); try constructor.
  destruct (_ <? _); repeat constructor.
Qed.

Lemma forIndexed_Forall {A B} (P : B -> Prop) (body : nat -> A -> list B) l :
  (forall i x, Forall P (body i x)) -> forall i, Forall P (forIndexed body i l).
Proof.
  intros Hb. induction l as [| x t IH]; intros i; simpl; [constructor |].
  apply Forall_app. auto.
Qed.

Lemma boldRequestsOf_styles content start rows bh bt :
  Forall (fun r => isStyleRequest r = true)
         (boldRequestsOf content start rows bh bt).
Proof.
  induction content as [| el rest IH]; simpl; [constructor |].
  destruct el as [s e runs | [s |] e tRows | s e | s e]; auto.
  destruct (Z.abs (s - start) <=? 20); [| exact IH].
  apply forIndexed_Forall. intros i row. unfold boldRowRequests.
  destruct (match i with O => bh | S d => bt && isTotalRow rows d end);
    [| constructor].
  apply Forall_flat_map. apply Forall_forall. intros cell _.
  unfold boldCellRequests. apply Forall_flat_map. apply Forall_forall.
  intros para _. destruct para; try constructor.
  apply Forall_flat_map. apply Forall_forall. intros pe _.
  apply boldRunRequest_styles.
Qed.

Lemma Fetched_fixedReader content content' :
  Fetched (fixedReader content) content' -> content' = content.
Proof.
  intros (doc & view & Hv & Hb). simpl in Hv. inversion Hv; subst.
  simpl in Hb. inversion Hb. reflexivity.
Qed.

(** C1: the marker-deletion batch of a well-formed tree and the
    cell-text insertion batch of a table whose cells take their text at
    distinct offsets are in strictly descending order of start offset;
    these are the lists that list conversion and table population submit,
    next to the bullet requests, the table insertion and the bold
    requests; the one other batch of two insertions or deletions, the
    content batch of [editTableCell], deletes from the very offset it then
    inserts at, so its two requests overlap; what else [editTableCell]
    submits are style requests, and [insertText] submits single
    requests. *)
Theorem batches_in_descending_order :
  (forall content,
      WellFormed content -> strictlyDescending (markerDeleteBatch content))
  /\ (forall tableRows headers rows boldHeaders boldTotalRow,
        NoDup (cellStartOffsets tableRows) ->
        strictlyDescending
          (tableInsertionBatch tableRows headers rows boldHeaders
             boldTotalRow))
  /\ (forall c startIndex endIndex,
        (forall content, Fetched c content -> WellFormed content) ->
        Sends c
          (fun requests =>
             (exists content,
                 requests = bulletRequests content startIndex endIndex)
             \/ strictlyDescending requests)
          (detectAndFormatLists startIndex endIndex))
  /\ (forall c insertIndex headers rows boldHeaders boldTotalRow,
        (forall content tableRows start,
            Fetched c content ->
            findInsertedTable content insertIndex = Some (tableRows, start) ->
            NoDup (cellStartOffsets tableRows)) ->
        Sends c
          (fun requests =>
             requests = [InsertTable (arrayLength rows + 1)
                           (arrayLength headers) insertIndex]
             \/ strictlyDescending requests
             \/ Forall (fun r => isStyleRequest r = true) requests)
          (createTableWithData insertIndex headers rows boldHeaders
             boldTotalRow))
  /\ (forall c tableStartIndex rowIndex columnIndex textContent textStyle
             paragraphStyle,
        Sends c
          (fun requests =>
             (length requests <= 1)%nat
             \/ (exists a b, requests = [a; b] /\ overlapping a b)
             \/ Forall (fun r => isStyleRequest r = true) requests)
          (editTableCell tableStartIndex rowIndex columnIndex textContent
             textStyle paragraphStyle))
  /\ (forall c text index,
        Sends c (fun requests => length requests = 1%nat)
          (insertText text index)).
Proof.
  split; [exact markerDeleteBatch_descending |].
  split; [exact tableInsertionBatch_descending |].
  split; [| split; [| split; [| exact insertText_sends]]].
  3:{ intros c tsi row col textContent textStyle paragraphStyle.
      eapply Sends_weaken; [| apply editTableCell_sends].
      intros requests [(cellRange & ->) | Hs]; [| right; right; exact Hs].
      destruct (editRequests_shape cellRange textContent) as [H | H];
        [left; exact H | right; left; exact H]. }
  - intros c s e Hwf.
    eapply Sends_weaken; [| apply detectAndFormatLists_sends].
    intros requests [(content & _ & ->) | (updated & Hf & ->)].
    + left. exists content. reflexivity.
    + right. apply markerDeleteBatch_descending. apply Hwf. exact Hf.
  - intros c insertIndex headers rows bh bt Hnd.
    eapply Sends_weaken; [| apply createTableWithData_sends].
    intros requests
      [-> | [(content & tableRows & start & Hf & Ht & ->)
            | (after & start & _ & ->)]].
    + left. reflexivity.
    + right. left. apply tableInsertionBatch_descending.
      eapply Hnd; eassumption.
    + right. right. apply boldRequestsOf_styles.
Qed.

(** ** Witnesses *)

Lemma flatten_reconstructs_text_witness :
  WellFormed filledCellBody /\ Indexed filledCellBody
  /\ fullTextOf (flatten filledCellBody) = documentText filledCellBody
  /\ StronglySorted ascendingStart (flatten filledCellBody).
Proof.
  assert (Hwf : WellFormed filledCellBody)
    by (exists 11; cbv; repeat split; discriminate).
  assert (Hix : Indexed filledCellBody) by (cbv; repeat split; discriminate).
  split; [exact Hwf |]. split; [exact Hix |].
  exact (flatten_reconstructs_text filledCellBody Hwf Hix).
Defined.

Lemma findText_counts_every_match_witness :
  findText helloSegments (str "Hello") 2 = Returned (Some (mkRange 14 19))
  /\ findText helloSegments (str "Hello") 3 = Returned None.
Proof.
  split; [reflexivity |].
  assert (Hne : Forall nonEmptyText helloSegments)
    by (repeat constructor; discriminate).
  assert (Hw : segsWithin 0 26 helloSegments)
    by (cbv; repeat split; discriminate).
  assert (Hn : str "Hello" <> []) by discriminate.
  destruct (findText_counts_every_match helloSegments (str "Hello") 26
              Hne Hw Hn) as (_ & _ & _ & _ & H).
  apply H. vm_compute. reflexivity.
Defined.

Lemma rejection_resumes_gap_is_bridged_witness :
  searchLoop 3 (str "ab") [mkSegment (str "ab") (-1) 1] (str "a") 1 0 0
  = searchLoop 2 (str "ab") [mkSegment (str "ab") (-1) 1] (str "a") 1 0 1
  /\ exists a b,
       mapToDocument (flatten filledCellBody) 2 (2 + strlen (LF :: str "c"))
         (-1) (-1) 0 = (a, b)
       /\ a <> -1 /\ b <> -1
       /\ rangeOfMatch (flatten filledCellBody) (LF :: str "c") 2
          = Some (mkRange a b).
Proof.
  destruct rejection_resumes_gap_is_bridged as (H1 & H2).
  split.
  - apply (H1 2%nat (str "ab") [mkSegment (str "ab") (-1) 1] (str "a")
              1 0 0%nat 0%nat (-1) 0).
    + reflexivity.
    + reflexivity.
    + reflexivity.
    + left. reflexivity.
  - apply (H2 (flatten filledCellBody) (LF :: str "c") 2%nat).
    + repeat constructor; discriminate.
    + repeat constructor; discriminate.
    + discriminate.
    + vm_compute. left. reflexivity.
Defined.

Lemma cell_lookup_window_and_bounds_witness :
  getTableCellRangeIn twoByThree 35 0 0 = Ok None
  /\ getTableCellRangeIn twoByThree 50 5 0 = Ok None
  /\ getTableCellRangeIn twoByThree 48 1 3 = Ok None.
Proof.
  destruct (cell_lookup_window_and_bounds twoByThree 35) as (_ & _ & H1 & _).
  destruct (cell_lookup_window_and_bounds twoByThree 50)
    as (_ & _ & _ & H2 & _).
  destruct (cell_lookup_window_and_bounds twoByThree 48)
    as (_ & _ & _ & _ & H3).
  split; [| split].
  - apply H1. reflexivity.
  - apply (H2 twoByThreeRows); [reflexivity | vm_compute; discriminate].
  - apply (H3 twoByThreeRows (nth 1 twoByThreeRows (mkRow [])));
      [reflexivity | reflexivity | vm_compute; discriminate].
Defined.

Lemma located_cell_range_witness :
  exists r,
    getTableCellRangeIn twoByThree 48 1 2 = Ok (Some r)
    /\ cellStartIndex r = Some 63 /\ cellEndIndex r = Some 65
    /\ contentStartIndex r = Some 64 /\ contentEndIndex r = Some 65
    /\ hasContent r = false.
Proof.
  destruct (located_cell_range twoByThree 48 1 2 twoByThreeRows
              (nth 1 twoByThreeRows (mkRow []))
              (nth 2 (tableCells (nth 1 twoByThreeRows (mkRow [])))
                 (mkCell None None []))
              eq_refl eq_refl eq_refl)
    as (r & Hr & H1 & H2 & H3 & H4 & H5).
  exists r. split; [exact Hr |].
  split; [exact H1 |]. split; [exact H2 |].
  split; [exact H3 |]. split; [exact H4 |].
  vm_compute in Hr. inversion Hr. reflexivity.
Defined.

Lemma editTableCell_without_text_sends_nothing_witness :
  fst (editTableCell 50 0 0 None (Some boldOnly) None idleCollaborators
         twoByThreeWorld)
  = Ok (mkEditResult true).
Proof.
  destruct (editTableCell_without_text_sends_nothing 50 0 0 (Some boldOnly)
              None idleCollaborators twoByThreeWorld) as (_ & _ & _ & H & _).
  eapply H. vm_compute. reflexivity.
Defined.

Lemma batches_in_descending_order_witness :
  strictlyDescending (markerDeleteBatch listBody)
  /\ strictlyDescending
       (tableInsertionBatch twoByThreeRows [str "A"; str "B"; str "C"]
          [[str "x"; str "y"; str "z"]] true true)
  /\ Sends (fixedReader listBody)
       (fun requests =>
          (exists content, requests = bulletRequests content None None)
          \/ strictlyDescending requests)
       (detectAndFormatLists None None)
  /\ Sends (fixedReader twoByThree)
       (fun requests =>
          requests = [InsertTable 2 3 50]
          \/ strictlyDescending requests
          \/ Forall (fun r => isStyleRequest r = true) requests)
       (createTableWithData 50 [str "A"; str "B"; str "C"]
          [[str "x"; str "y"; str "z"]] true true)
  /\ Sends (fixedReader filledCellBody)
       (fun requests =>
          (length requests <= 1)%nat
          \/ (exists a b, requests = [a; b] /\ overlapping a b)
          \/ Forall (fun r => isStyleRequest r = true) requests)
       (editTableCell 4 0 0 (Some (str "new")) None None).
Proof.
  destruct batches_in_descending_order as (H1 & H2 & H3 & H4 & H5 & _).
  assert (Hwf : WellFormed listBody)
    by (exists 30; cbv; repeat split; discriminate).
  split; [apply H1; exact Hwf |].
  split; [| split; [| split]].
  - apply H2. vm_compute.
    repeat constructor; simpl; intuition discriminate.
  - apply H3. intros content Hf.
    apply Fetched_fixedReader in Hf. subst content. exact Hwf.
  - apply (H4 (fixedReader twoByThree) 50 [str "A"; str "B"; str "C"]
              [[str "x"; str "y"; str "z"]] true true).
    intros content tableRows start Hf Ht.
    apply Fetched_fixedReader in Hf. subst content.
    vm_compute in Ht. inversion Ht; subst.
    vm_compute. repeat constructor; simpl; intuition discriminate.
  - apply H5.
Defined.

(** * Further properties of the code *)

(** ** The paragraph locator *)

Lemma firstSome_flat_map {A B C} (f : A -> list B) (g : B -> option C) l :
  firstSome g (flat_map f l) = firstSome (fun x => firstSome g (f x)) l.
Proof.
  induction l as [| x t IH]; simpl; [reflexivity |].
  induction (f x) as [| y u IHu]; simpl; [exact IH |].
  destruct (g y); [reflexivity | exact IHu].
Qed.

Lemma firstSome_ext {A B} (f g : A -> option B) l :
  (forall x, In x l -> f x = g x) -> firstSome f l = firstSome g l.
Proof.
  induction l as [| x t IH]; simpl; intros H; [reflexivity |].
  rewrite (H x) by (left; reflexivity).
  destruct (g x); [reflexivity |]. apply IH. intros y Hy. apply H. right.
  exact Hy.
Qed.

Lemma firstSome_Some {A B} (f : A -> option B) l b :
  firstSome f l = Some b -> exists x, In x l /\ f x = Some b.
Proof.
  induction l as [| x t IH]; simpl; [discriminate |].
  destruct (f x) as [b' |] eqn:E.
  - intros H. inversion H; subst. exists x. auto.
  - intros H. destruct (IH H) as (y & Hy & Hf). exists y. auto.
Qed.

Lemma paragraphRangesOf_table s e rows :
  paragraphRangesOf (Table s e rows)
  = flat_map cellParagraphRanges (flat_map tableCells rows).
Proof.
  rewrite flat_map_flat_map. simpl.
  apply flat_map_ext. intros [cells]. simpl.
  apply flat_map_ext. intros [cs ce content]. reflexivity.
Qed.

Lemma findParagraphInElement_table i s e rows :
  findParagraphInElement i (Table (Some s) (Some e) rows)
  = if (s <=? i) && (i <? e)
    then firstSome (findParagraphInCell i) (flat_map tableCells rows)
    else None.
Proof.
  simpl. destruct ((s <=? i) && (i <? e)); [| reflexivity].
  rewrite firstSome_flat_map.
  apply firstSome_ext. intros [cells] _. simpl.
  apply firstSome_ext. intros [cs ce content] _. reflexivity.
Qed.

(** What the search returns is the range of a paragraph of the tree, and
    it holds the index. *)
Lemma findParagraphInElement_sound i el : forall r,
  findParagraphInElement i el = Some r ->
  In r (paragraphRangesOf el) /\ holds r i.
Proof.
  induction el as [s e runs | s e rows IH | s e | s e]
    using StructuralElement_nested_ind; intros r H; try discriminate.
  - simpl in H. destruct s as [s |], e as [e |]; try discriminate.
    destruct (Z.leb_spec s i), (Z.ltb_spec i e); try discriminate.
    inversion H; subst. simpl. unfold holds. simpl. split; [auto | lia].
  - destruct s as [s |], e as [e |]; try discriminate.
    rewrite findParagraphInElement_table in H.
    destruct ((s <=? i) && (i <? e)); [| discriminate].
    rewrite paragraphRangesOf_table.
    apply firstSome_Some in H. destruct H as (cell & Hcell & Hf).
    apply in_flat_map in Hcell as Hrow. destruct Hrow as (row & Hrow & Hin).
    rewrite Forall_forall in IH. specialize (IH _ Hrow).
    rewrite Forall_forall in IH. specialize (IH _ Hin).
    unfold findParagraphInCell in Hf.
    apply firstSome_Some in Hf. destruct Hf as (el & Hel & Hf).
    rewrite Forall_forall in IH. destruct (IH _ Hel _ Hf) as [Hr Hh].
    split; [| exact Hh].
    apply in_flat_map. exists cell. split; [exact Hcell |].
    unfold cellParagraphRanges. apply in_flat_map. exists el. auto.
Qed.

Lemma findParagraphInContent_sound_aux i content r :
  firstSome (findParagraphInElement i) content = Some r ->
  In r (flat_map paragraphRangesOf content) /\ holds r i.
Proof.
  intros H. apply firstSome_Some in H. destruct H as (el & Hel & Hf).
  apply findParagraphInElement_sound in Hf. destruct Hf as [Hr Hh].
  split; [| exact Hh]. apply in_flat_map. exists el. auto.
Qed.

Lemma spansWithin_le spans : forall lo hi, spansWithin lo hi spans -> lo <= hi.
Proof.
  induction spans as [| [[s e] |] t IH]; simpl; intros lo hi H.
  - exact H.
  - destruct H as (H1 & H2 & H3). apply IH in H3. lia.
  - apply IH. exact H.
Qed.

Lemma spans_ranges_within {A} (span : A -> option (Z * Z))
    (ranges : A -> list Range) (l : list A) :
  Forall (rangesInSpan span ranges) l ->
  forall lo hi, spansWithin lo hi (map span l) ->
  forall r, In r (flat_map ranges l) ->
            lo <= startIndex r /\ endIndex r <= hi.
Proof.
  induction 1 as [| x t Hx Ht IH]; simpl; intros lo hi Hsp r Hr;
    [contradiction |].
  unfold rangesInSpan in Hx. apply in_app_or in Hr.
  destruct (span x) as [[s e] |].
  - destruct Hsp as (H1 & H2 & H3).
    pose proof (spansWithin_le _ _ _ H3) as Hle.
    destruct Hr as [Hr | Hr].
    + destruct (Hx r Hr). lia.
    + destruct (IH _ _ H3 r Hr). lia.
  - destruct Hr as [Hr | Hr]; [rewrite Hx in Hr; contradiction |].
    apply (IH _ _ Hsp r Hr).
Qed.

Lemma wfElement_ranges_within el :
  wfElement el -> rangesInSpan el_span paragraphRangesOf el.
Proof.
  unfold rangesInSpan.
  induction el as [s e runs | s e rows IH | s e | s e]
    using StructuralElement_nested_ind; intros Hwf.
  - simpl in Hwf. destruct s as [s |], e as [e |]; try contradiction.
    unfold el_span. simpl. intros r [<- | []]. simpl. lia.
  - simpl in Hwf. destruct s as [s |], e as [e |]; try contradiction.
    destruct Hwf as [Hspans Hcells].
    unfold el_span. simpl el_startIndex. simpl el_endIndex. simpl spanOf.
    rewrite paragraphRangesOf_table.
    apply spans_ranges_within with (span := cell_span); [| exact Hspans].
    apply Forall_flat_map.
    rewrite All_Forall in Hcells.
    rewrite Forall_forall in *. intros [cells] Hin.
    specialize (IH _ Hin). specialize (Hcells _ Hin). simpl in *.
    rewrite All_Forall in Hcells. rewrite Forall_forall in *.
    intros [cs ce content] Hin'.
    specialize (IH _ Hin'). specialize (Hcells _ Hin'). simpl in *.
    destruct cs as [cs |], ce as [ce |]; try contradiction.
    unfold rangesInSpan, cell_span. simpl. destruct Hcells as [Hsp Hall].
    unfold cellParagraphRanges. simpl.
    apply spans_ranges_within with (span := el_span); [| exact Hsp].
    rewrite All_Forall in Hall. rewrite Forall_forall in *.
    intros el Hel. apply IH; auto.
  - unfold el_span. simpl. destruct (spanOf s e) as [[a b] |]; simpl; auto.
    intros r [].
  - unfold el_span. simpl. destruct (spanOf s e) as [[a b] |]; simpl; auto.
    intros r [].
Qed.

(** In a chained node list the first node that yields a range is the one
    that holds the index. *)
Lemma chain_firstSome {A} (span : A -> option (Z * Z))
    (ranges : A -> list Range) (f : A -> option Range) (i : Z) (l : list A) :
  Forall (rangesInSpan span ranges) l ->
  Forall (fun x => forall r, In r (ranges x) -> holds r i -> f x = Some r) l ->
  Forall (fun x => forall r, f x = Some r -> In r (ranges x) /\ holds r i) l ->
  forall lo hi, spansWithin lo hi (map span l) ->
  forall r, In r (flat_map ranges l) -> holds r i -> firstSome f l = Some r.
Proof.
  induction l as [| x t IH]; intros Hb Hc Hs lo hi Hsp r Hr Hh;
    [contradiction |].
  inversion Hb as [| ? ? Hbx Hbt]; subst.
  inversion Hc as [| ? ? Hcx Hct]; subst.
  inversion Hs as [| ? ? Hsx Hst]; subst.
  simpl in *. apply in_app_or in Hr. destruct Hr as [Hr | Hr].
  - rewrite (Hcx r Hr Hh). reflexivity.
  - destruct (f x) as [r' |] eqn:Ef.
    + exfalso. destruct (Hsx r' eq_refl) as [Hr' Hh'].
      unfold rangesInSpan in Hbx.
      destruct (span x) as [[s e] |].
      * destruct Hsp as (H1 & H2 & H3).
        destruct (Hbx r' Hr') as [_ Hend].
        destruct (spans_ranges_within span ranges t Hbt _ _ H3 r Hr)
          as [Hstart _].
        unfold holds in *. lia.
      * rewrite Hbx in Hr'. contradiction.
    + destruct (span x) as [[s e] |].
      * destruct Hsp as (H1 & H2 & H3). eapply IH; eauto.
      * eapply IH; eauto.
Qed.

Lemma findParagraphInElement_complete i el :
  wfElement el -> forall r,
  In r (paragraphRangesOf el) -> holds r i ->
  findParagraphInElement i el = Some r.
Proof.
  induction el as [s e runs | s e rows IH | s e | s e]
    using StructuralElement_nested_ind; intros Hwf r Hr Hh.
  - simpl in Hwf. destruct s as [s |], e as [e |]; try contradiction.
    simpl in Hr. destruct Hr as [<- | []]. unfold holds in Hh. simpl in *.
    replace (s <=? i) with true by (symmetry; apply Z.leb_le; lia).
    replace (i <? e) with true by (symmetry; apply Z.ltb_lt; lia).
    reflexivity.
  - pose proof (wfElement_ranges_within _ Hwf) as Hbound.
    simpl in Hwf. destruct s as [s |], e as [e |]; try contradiction.
    unfold rangesInSpan, el_span in Hbound. simpl in Hbound.
    destruct (Hbound r Hr) as [Hs He]. unfold holds in Hh.
    rewrite findParagraphInElement_table.
    replace (s <=? i) with true by (symmetry; apply Z.leb_le; lia).
    replace (i <? e) with true by (symmetry; apply Z.ltb_lt; lia).
    simpl andb. cbv iota.
    rewrite paragraphRangesOf_table in Hr.
    destruct Hwf as [Hspans Hcells].
    assert (Hcell : forall cell,
               In cell (flat_map tableCells rows) ->
               exists cs ce,
                 cell_span cell = Some (cs, ce)
                 /\ spansWithin cs ce (map el_span (cell_content cell))
                 /\ Forall wfElement (cell_content cell)
                 /\ Forall (fun el => forall r0,
                              wfElement el ->
                              In r0 (paragraphRangesOf el) -> holds r0 i ->
                              findParagraphInElement i el = Some r0)
                      (cell_content cell)).
    { intros cell Hin. apply in_flat_map in Hin.
      destruct Hin as ([cells] & Hrow & Hin).
      rewrite All_Forall in Hcells. rewrite Forall_forall in IH, Hcells.
      specialize (IH _ Hrow). specialize (Hcells _ Hrow). simpl in *.
      rewrite All_Forall in Hcells. rewrite Forall_forall in IH, Hcells.
      specialize (IH _ Hin). specialize (Hcells _ Hin).
      destruct cell as [[cs |] [ce |] content]; simpl in *; try contradiction.
      destruct Hcells as [Hsp Hall]. rewrite All_Forall in Hall.
      exists cs, ce. repeat split; auto.
      rewrite Forall_forall in *. intros el Hel r0 Hw. apply IH; auto. }
    eapply chain_firstSome with (span := cell_span)
      (ranges := cellParagraphRanges); [| | | exact Hspans | exact Hr | exact Hh].
    + rewrite Forall_forall. intros cell Hin.
      destruct (Hcell cell Hin) as (cs & ce & Hspan & Hsp & Hall & _).
      unfold rangesInSpan. rewrite Hspan. unfold cellParagraphRanges.
      apply spans_ranges_within with (span := el_span); [| exact Hsp].
      rewrite Forall_forall in *. intros el Hel.
      apply wfElement_ranges_within. auto.
    + rewrite Forall_forall. intros cell Hin r0 Hr0 Hh0.
      destruct (Hcell cell Hin) as (cs & ce & Hspan & Hsp & Hall & Hih).
      unfold findParagraphInCell.
      eapply chain_firstSome with (span := el_span)
        (ranges := paragraphRangesOf); [| | | exact Hsp | exact Hr0 | exact Hh0].
      * rewrite Forall_forall in *. intros el Hel.
        apply wfElement_ranges_within. auto.
      * rewrite Forall_forall in *. intros el Hel r1 Hr1 Hh1.
        apply Hih; auto.
      * rewrite Forall_forall. intros el Hel r1.
        apply findParagraphInElement_sound.
    + rewrite Forall_forall. intros cell Hin r0.
      unfold findParagraphInCell, cellParagraphRanges.
      apply findParagraphInContent_sound_aux.
  - simpl in Hr. contradiction.
  - simpl in Hr. contradiction.
Qed.

(** X1: whatever tree is fetched, a range returned by the paragraph
    locator is the range of a paragraph of that tree (at any depth) and
    holds the index asked for. *)
Theorem findParagraphInContent_sound i content r :
  findParagraphInContent i content = Some r ->
  In r (paragraphRanges content) /\ startIndex r <= i < endIndex r.
Proof. apply findParagraphInContent_sound_aux. Qed.

(** X2: on a well-formed tree the paragraph locator returns a range
    exactly when it is the range of a paragraph, at any depth, that holds
    the index; so an index inside a section break or a structural gap
    yields null. *)
Theorem findParagraphInContent_wf i content r :
  WellFormed content ->
  (findParagraphInContent i content = Some r
   <-> In r (paragraphRanges content) /\ startIndex r <= i < endIndex r).
Proof.
  intros (hi & Hsp & Hall). split; [apply findParagraphInContent_sound_aux |].
  intros [Hr Hh]. unfold findParagraphInContent.
  rewrite All_Forall in Hall.
  eapply chain_firstSome with (span := el_span) (ranges := paragraphRangesOf);
    [| | | exact Hsp | exact Hr | exact Hh].
  - rewrite Forall_forall in *. intros el Hel.
    apply wfElement_ranges_within. auto.
  - rewrite Forall_forall in *. intros el Hel r0.
    apply findParagraphInElement_complete. auto.
  - rewrite Forall_forall. intros el Hel r0.
    apply findParagraphInElement_sound.
Qed.

Lemma findParagraphInContent_sound_witness :
  In (mkRange 7 10) (paragraphRanges filledCellBody) /\ 7 <= 8 < 10.
Proof.
  apply (findParagraphInContent_sound 8 filledCellBody (mkRange 7 10)).
  reflexivity.
Defined.

Lemma findParagraphInContent_wf_witness :
  findParagraphInContent 8 filledCellBody = Some (mkRange 7 10)
  /\ findParagraphInContent 5 filledCellBody = None.
Proof.
  assert (Hwf : WellFormed filledCellBody)
    by (exists 11; cbv; repeat split; discriminate).
  split.
  - apply (findParagraphInContent_wf 8 filledCellBody (mkRange 7 10) Hwf).
    split; [simpl; auto | simpl; lia].
  - destruct (findParagraphInContent 5 filledCellBody) as [r |] eqn:E;
      [| reflexivity].
    apply (findParagraphInContent_wf 5 filledCellBody r Hwf) in E.
    destruct E as [Hin Hh]. simpl in Hin.
    destruct Hin as [<- | [<- | []]]; simpl in Hh; lia.
Defined.

(** ** Text length of a tab *)

Lemma strlen_flat_map {A} (f : A -> jsstring) l :
  strlen (flat_map f l) = sumOver (fun x => strlen (f x)) l.
Proof.
  induction l as [| x t IH]; simpl; [reflexivity |].
  rewrite strlen_app, IH. reflexivity.
Qed.

Lemma sumOver_le {A} (f g : A -> Z) l :
  (forall x, In x l -> f x <= g x) -> sumOver f l <= sumOver g l.
Proof.
  induction l as [| x t IH]; simpl; intros H; [lia |].
  pose proof (H x (or_introl eq_refl)).
  assert (sumOver f t <= sumOver g t) by (apply IH; intros; apply H; auto).
  unfold sumOver in *. lia.
Qed.

Lemma sumOver_ext {A} (f g : A -> Z) l :
  (forall x, In x l -> f x = g x) -> sumOver f l = sumOver g l.
Proof.
  induction l as [| x t IH]; simpl; intros H; [reflexivity |].
  rewrite (H x (or_introl eq_refl)), IH; [reflexivity |].
  intros; apply H; auto.
Qed.

Lemma runsTextLength_text elements :
  runsTextLength elements = strlen (paragraphTextOf elements).
Proof.
  unfold paragraphTextOf. rewrite strlen_flat_map.
  induction elements as [| pe t IH]; simpl; [reflexivity |].
  unfold sumOver in *. simpl. rewrite <- IH.
  destruct (pe_content pe); [reflexivity |].
  unfold strlen at 1. simpl. lia.
Qed.

Lemma elementText_table s e rows :
  strlen (elementText (Table s e rows))
  = sumOver (fun row =>
      sumOver (fun cell =>
        sumOver (fun inner => strlen (elementText inner)) (cell_content cell))
        (tableCells row)) rows.
Proof.
  simpl. rewrite strlen_flat_map.
  apply sumOver_ext. intros [cells] _. simpl. rewrite strlen_flat_map.
  apply sumOver_ext. intros [cs ce content] _. simpl.
  apply strlen_flat_map.
Qed.

Lemma cellElementTextLength_le inner :
  cellElementTextLength inner <= strlen (elementText inner).
Proof.
  destruct inner; simpl; try apply strlen_nonneg.
  rewrite runsTextLength_text. lia.
Qed.

Lemma cellElementTextLength_eq inner :
  match inner with Table _ _ _ => False | _ => True end ->
  cellElementTextLength inner = strlen (elementText inner).
Proof.
  destruct inner; simpl; try contradiction; intros _; try reflexivity.
  apply runsTextLength_text.
Qed.

Lemma elementTextLength_le el :
  elementTextLength el <= strlen (elementText el).
Proof.
  destruct el as [s e runs | s e rows | s e | s e];
    try (simpl; apply strlen_nonneg).
  - simpl. rewrite runsTextLength_text. lia.
  - rewrite elementText_table. simpl elementTextLength.
    apply sumOver_le. intros row _. apply sumOver_le. intros cell _.
    apply sumOver_le. intros inner _. apply cellElementTextLength_le.
Qed.

Lemma elementTextLength_eq el :
  cellsHoldNoTable el -> elementTextLength el = strlen (elementText el).
Proof.
  destruct el as [s e runs | s e rows | s e | s e]; intros H;
    try reflexivity.
  - simpl. apply runsTextLength_text.
  - rewrite elementText_table. simpl elementTextLength.
    apply sumOver_ext. intros row Hrow. apply sumOver_ext. intros cell Hcell.
    apply sumOver_ext. intros inner Hinner.
    apply cellElementTextLength_eq. exact (H row cell inner Hrow Hcell Hinner).
Qed.

Lemma sumOver_nonneg {A} (f : A -> Z) l :
  (forall x, In x l -> 0 <= f x) -> 0 <= sumOver f l.
Proof.
  induction l as [| x t IH]; simpl; intros H; [lia |].
  pose proof (H x (or_introl eq_refl)).
  assert (0 <= sumOver f t) by (apply IH; intros; apply H; auto).
  unfold sumOver in *. lia.
Qed.

Lemma elementTextLength_nonneg el : 0 <= elementTextLength el.
Proof.
  destruct el as [s e runs | s e rows | s e | s e]; simpl; try lia.
  - rewrite runsTextLength_text. apply strlen_nonneg.
  - apply sumOver_nonneg. intros row _. apply sumOver_nonneg. intros cell _.
    apply sumOver_nonneg. intros inner _.
    destruct inner; simpl; try lia.
    rewrite runsTextLength_text. apply strlen_nonneg.
Qed.

(** X3: the text length of a tab is never negative and never more than
    the length of the text of its body; the two are equal when no table
    cell of the body holds a table of its own (the text of nested tables
    is not counted); a missing tab or body counts 0. *)
Theorem getTabTextLength_documentText content :
  0 <= getTabTextLength (Some (mkDocumentTab (Some content)))
       <= strlen (documentText content)
  /\ (Forall cellsHoldNoTable content ->
      getTabTextLength (Some (mkDocumentTab (Some content)))
      = strlen (documentText content))
  /\ getTabTextLength None = 0
  /\ getTabTextLength (Some (mkDocumentTab None)) = 0.
Proof.
  unfold getTabTextLength, documentText. simpl. rewrite strlen_flat_map.
  split; [split |].
  - apply sumOver_nonneg. intros el _. apply elementTextLength_nonneg.
  - apply sumOver_le. intros el _. apply elementTextLength_le.
  - split; [| split; reflexivity].
    intros H. apply sumOver_ext. intros el Hel.
    apply elementTextLength_eq. rewrite Forall_forall in H. auto.
Qed.

Lemma getTabTextLength_documentText_witness :
  getTabTextLength (Some (mkDocumentTab (Some filledCellBody)))
  = strlen (documentText filledCellBody).
Proof.
  apply (getTabTextLength_documentText filledCellBody).
  repeat constructor; simpl.
  intros row cell inner [<- | []] [<- | []] [<- | []]. exact I.
Defined.

(** ** Tabs *)

Lemma Tab_nested_ind (P : Tab -> Prop) :
  (forall props dt children, Forall P children -> P (mkTab props dt children)) ->
  forall tab, P tab.
Proof.
  intros H. fix IH 1. intros [props dt children]. apply H.
  induction children as [| c children IHc]; constructor;
    [apply IH | exact IHc].
Qed.

Lemma addCurrentAndChildTabs_In level tab entry :
  In entry (addCurrentAndChildTabs level tab)
  <-> entry = mkTabWithLevel tab level
      \/ exists child,
           In child (childTabs tab)
           /\ In entry (addCurrentAndChildTabs (level + 1) child).
Proof.
  destruct tab as [props dt children]. simpl. rewrite in_flat_map.
  split; intros [H | H]; auto.
Qed.

(** An entry of the listing has every child of its tab one level
    deeper. *)
Lemma addCurrentAndChildTabs_children tab : forall level parent n child,
  In (mkTabWithLevel parent n) (addCurrentAndChildTabs level tab) ->
  In child (childTabs parent) ->
  In (mkTabWithLevel child (n + 1)) (addCurrentAndChildTabs level tab).
Proof.
  induction tab as [props dt children IH] using Tab_nested_ind.
  intros level parent n child Hp Hc.
  apply addCurrentAndChildTabs_In. right.
  apply addCurrentAndChildTabs_In in Hp. destruct Hp as [Hp | (c & Hin & Hp)].
  - inversion Hp; subst. exists child. split; [exact Hc |].
    apply addCurrentAndChildTabs_In. left. reflexivity.
  - exists c. split; [exact Hin |].
    rewrite Forall_forall in IH. eapply IH; eauto.
Qed.

(** An entry of the listing is the root at its level, or the child of a
    listed tab one level up. *)
Lemma addCurrentAndChildTabs_parent tab : forall level t n,
  In (mkTabWithLevel t n) (addCurrentAndChildTabs level tab) ->
  (t = tab /\ n = level)
  \/ exists parent,
       In (mkTabWithLevel parent (n - 1)) (addCurrentAndChildTabs level tab)
       /\ In t (childTabs parent).
Proof.
  induction tab as [props dt children IH] using Tab_nested_ind.
  intros level t n H.
  apply addCurrentAndChildTabs_In in H. destruct H as [H | (c & Hin & H)].
  - inversion H; subst. left. auto.
  - right. rewrite Forall_forall in IH.
    destruct (IH c Hin _ _ _ H) as [[-> ->] | (parent & Hp & Ht)].
    + exists (mkTab props dt children). split; [| exact Hin].
      apply addCurrentAndChildTabs_In. left. f_equal. lia.
    + exists parent. split; [| exact Ht].
      apply addCurrentAndChildTabs_In. right. exists c. auto.
Qed.

Lemma addCurrentAndChildTabs_length tab : forall level,
  length (addCurrentAndChildTabs level tab) = tabCount tab.
Proof.
  induction tab as [props dt children IH] using Tab_nested_ind.
  intros level. simpl. f_equal.
  induction children as [| c cs IHc]; simpl; [reflexivity |].
  inversion IH as [| ? ? Hc Hcs]; subst.
  rewrite length_app, Hc, IHc by exact Hcs. reflexivity.
Qed.

(** X4: [getAllTabs] lists every top-level tab at level 0 and, with every
    listed tab at level [n], each of its child tabs at level [n + 1];
    nothing else is listed: an entry is a top-level tab at level 0 or the
    child of an entry one level up. The listing has one entry per tab of
    the forest. *)
Theorem getAllTabs_levels tabs :
  (forall t, In t tabs -> In (mkTabWithLevel t 0) (getAllTabs tabs))
  /\ (forall parent n child,
        In (mkTabWithLevel parent n) (getAllTabs tabs) ->
        In child (childTabs parent) ->
        In (mkTabWithLevel child (n + 1)) (getAllTabs tabs))
  /\ (forall t n,
        In (mkTabWithLevel t n) (getAllTabs tabs) ->
        (n = 0 /\ In t tabs)
        \/ exists parent,
             In (mkTabWithLevel parent (n - 1)) (getAllTabs tabs)
             /\ In t (childTabs parent))
  /\ length (getAllTabs tabs)
     = fold_right (fun t n => (tabCount t + n)%nat) 0%nat tabs.
Proof.
  unfold getAllTabs. split; [| split; [| split]].
  - intros t Ht. apply in_flat_map. exists t. split; [exact Ht |].
    apply addCurrentAndChildTabs_In. left. reflexivity.
  - intros parent n child Hp Hc. apply in_flat_map in Hp.
    destruct Hp as (root & Hroot & Hp). apply in_flat_map. exists root.
    split; [exact Hroot |]. eapply addCurrentAndChildTabs_children; eauto.
  - intros t n H. apply in_flat_map in H. destruct H as (root & Hroot & H).
    destruct (addCurrentAndChildTabs_parent _ _ _ _ H)
      as [[-> ->] | (parent & Hp & Ht)].
    + left. auto.
    + right. exists parent. split; [| exact Ht].
      apply in_flat_map. exists root. auto.
  - induction tabs as [| t ts IH]; simpl; [reflexivity |].
    rewrite length_app, addCurrentAndChildTabs_length, IH. reflexivity.
Qed.

Lemma getAllTabs_levels_witness :
  In (mkTabWithLevel (namedTab "c" []) 2) (getAllTabs tabForest)
  /\ length (getAllTabs tabForest) = 5%nat.
Proof.
  destruct (getAllTabs_levels tabForest) as (H1 & H2 & _ & H4).
  split; [| rewrite H4; reflexivity].
  apply (H2 (namedTab "b" [namedTab "c" []]) 1 (namedTab "c" []));
    [| left; reflexivity].
  apply (H2 (namedTab "a" [namedTab "b" [namedTab "c" []]; namedTab "d" []])
            0 (namedTab "b" [namedTab "c" []])); [| left; reflexivity].
  apply H1. left. reflexivity.
Defined.

(** Lookup by identifier *)

Lemma find_flat_map {A B} (p : B -> bool) (f : A -> list B) l :
  find p (flat_map f l) = firstSome (fun x => find p (f x)) l.
Proof.
  induction l as [| x t IH]; simpl; [reflexivity |].
  induction (f x) as [| y u IHu]; simpl; [exact IH |].
  destruct (p y); [reflexivity | exact IHu].
Qed.

Lemma searchTab_find wanted tab : forall level,
  searchTab wanted tab
  = find (hasTabId wanted) (map twl_tab (addCurrentAndChildTabs level tab)).
Proof.
  induction tab as [props dt children IH] using Tab_nested_ind.
  intros level. simpl addCurrentAndChildTabs. simpl map. simpl find.
  simpl searchTab.
  destruct (hasTabId wanted (mkTab props dt children)); [reflexivity |].
  rewrite flat_map_concat_map, concat_map, map_map, <- flat_map_concat_map.
  rewrite find_flat_map. apply firstSome_ext. intros c Hc.
  rewrite Forall_forall in IH. apply IH. exact Hc.
Qed.

Lemma jsstring_eqb_eq a b : jsstring_eqb a b = true <-> a = b.
Proof.
  revert b. induction a as [| x a IH]; intros [| y b]; simpl;
    try (split; [discriminate | congruence]); [tauto |].
  rewrite andb_true_iff, Z.eqb_eq, IH. split.
  - intros [-> ->]. reflexivity.
  - intros H. inversion H. auto.
Qed.

(** X5: [findTabById] returns the first tab, in the order of
    [getAllTabs], whose identifier is the wanted one: the recursive
    search and the flat listing visit the tabs in the same order. A tab
    it returns carries the wanted identifier, and it returns nothing
    exactly when no listed tab carries it. *)
Theorem findTabById_getAllTabs tabs wanted :
  findTabById tabs wanted
  = find (hasTabId wanted) (map twl_tab (getAllTabs tabs))
  /\ (forall tab,
        findTabById tabs wanted = Some tab ->
        exists props,
          tabProperties tab = Some props /\ tabId props = Some wanted)
  /\ (findTabById tabs wanted = None
      <-> forall entry,
            In entry (getAllTabs tabs) ->
            hasTabId wanted (twl_tab entry) = false).
Proof.
  assert (E : findTabById tabs wanted
              = find (hasTabId wanted) (map twl_tab (getAllTabs tabs))).
  { unfold findTabById, getAllTabs.
    rewrite flat_map_concat_map, concat_map, map_map, <- flat_map_concat_map.
    rewrite find_flat_map. apply firstSome_ext. intros t _.
    apply searchTab_find. }
  split; [exact E |]. rewrite E. split.
  - intros tab H. apply find_some in H. destruct H as [_ H].
    unfold hasTabId in H. destruct (tabProperties tab) as [props |];
      [| discriminate].
    destruct (tabId props) as [id |] eqn:Eid; [| discriminate].
    apply jsstring_eqb_eq in H. subst id. exists props. auto.
  - split.
    + intros H entry Hin.
      apply (find_none _ _ H (twl_tab entry)). apply in_map. exact Hin.
    + intros H. destruct (find _ _) as [tab |] eqn:Ef; [| reflexivity].
      apply find_some in Ef. destruct Ef as [Hin Hid].
      apply in_map_iff in Hin. destruct Hin as (entry & <- & Hin).
      rewrite (H entry Hin) in Hid. discriminate.
Qed.

Lemma findTabById_getAllTabs_witness :
  exists props,
    tabProperties (namedTab "c" []) = Some props
    /\ tabId props = Some (str "c").
Proof.
  destruct (findTabById_getAllTabs tabForest (str "c")) as (_ & H & _).
  apply H. reflexivity.
Defined.

(** ** The two passes of the list conversion *)

Ltac notWhitespace :=
  unfold isWhitespace;
  repeat match goal with
         | |- context [?a =? ?b] =>
             replace (a =? b) with false by (symmetry; apply Z.eqb_neq; lia)
         | |- context [?a <=? ?b] =>
             first [ replace (a <=? b) with false
                       by (symmetry; apply Z.leb_gt; lia)
                   | replace (a <=? b) with true
                       by (symmetry; apply Z.leb_le; lia) ]
         end;
  reflexivity.

Lemma digit_not_whitespace c : isDigit c = true -> isWhitespace c = false.
Proof.
  unfold isDigit. intros H. apply andb_true_iff in H. destruct H as [H1 H2].
  apply Z.leb_le in H1, H2. notWhitespace.
Qed.

Lemma letter_not_whitespace c : isLetter c = true -> isWhitespace c = false.
Proof.
  unfold isLetter. intros H. apply orb_true_iff in H.
  destruct H as [H | H]; apply andb_true_iff in H; destruct H as [H1 H2];
    apply Z.leb_le in H1, H2; notWhitespace.
Qed.

Lemma glyph_not_whitespace c : isBulletGlyph c = true -> isWhitespace c = false.
Proof.
  unfold isBulletGlyph, BULLET. intros H.
  apply orb_true_iff in H. destruct H as [H | H];
    [apply orb_true_iff in H; destruct H as [H | H] |];
    apply Z.eqb_eq in H; subst c; reflexivity.
Qed.

Lemma dotOrParen_not_whitespace c :
  isDotOrParen c = true -> isWhitespace c = false.
Proof.
  unfold isDotOrParen. intros H. apply orb_true_iff in H.
  destruct H as [H | H]; apply Z.eqb_eq in H; subst c; reflexivity.
Qed.

Lemma glyph_not_digit c : isBulletGlyph c = true -> isDigit c = false.
Proof.
  intros H. destruct (isDigit c) eqn:E; [| reflexivity].
  rewrite (digit_not_glyph c E) in H. discriminate.
Qed.

Lemma glyph_not_letter c : isBulletGlyph c = true -> isLetter c = false.
Proof.
  intros H. destruct (isLetter c) eqn:E; [| reflexivity].
  rewrite (letter_not_glyph c E) in H. discriminate.
Qed.

Lemma digit_not_letter c : isDigit c = true -> isLetter c = false.
Proof.
  intros H. destruct (isLetter c) eqn:E; [| reflexivity].
  rewrite (letter_not_digit c E) in H. discriminate.
Qed.

(** The marker that a match covers: a prefix free of whitespace, then the
    whitespace that follows it. *)
Lemma markerOf_app pre rest :
  markerOf (pre ++ rest) (strlen pre + strlen (takeWhile isWhitespace rest))
  = pre ++ takeWhile isWhitespace rest.
Proof.
  unfold markerOf, strlen. rewrite <- Nat2Z.inj_add, Nat2Z.id.
  rewrite firstn_app_2. f_equal.
  induction rest as [| x t IH]; simpl; [reflexivity |].
  destruct (isWhitespace x); simpl; [rewrite IH |]; reflexivity.
Qed.

Lemma existsb_takeWhile {A} (p : A -> bool) l :
  existsb p (takeWhile p l)
  = match l with x :: _ => p x | [] => false end.
Proof.
  destruct l as [| x t]; simpl; [reflexivity |].
  destruct (p x) eqn:E; simpl; [rewrite E |]; reflexivity.
Qed.

Lemma existsb_marker pre rest :
  forallb (fun c => negb (isWhitespace c)) pre = true ->
  existsb isWhitespace (pre ++ takeWhile isWhitespace rest)
  = match rest with w :: _ => isWhitespace w | [] => false end.
Proof.
  intros H. rewrite existsb_app, existsb_takeWhile.
  replace (existsb isWhitespace pre) with false; [reflexivity |].
  symmetry. induction pre as [| x t IH]; simpl in *; [reflexivity |].
  apply andb_true_iff in H. destruct H as [Hx Ht].
  apply negb_true_iff in Hx. rewrite Hx. simpl. apply IH. exact Ht.
Qed.

Lemma strlen_takeWhile_le {A} (p : A -> bool) (l : list A) :
  (length (takeWhile p l) <= length l)%nat.
Proof.
  induction l as [| x t IH]; simpl; [lia |].
  destruct (p x); simpl; lia.
Qed.

(** What the pattern of the second pass matches, what the first pass then
    says of the same text, and the marker covered. *)
Lemma markerMatch_cases t n :
  markerMatch t = Some n ->
  exists pre rest,
    t = pre ++ rest /\ pre <> []
    /\ n = strlen pre + strlen (takeWhile isWhitespace rest)
    /\ forallb (fun c => negb (isWhitespace c)) pre = true
    /\ (testBullet t || testNumbered t || testLettered t
        = match rest with w :: _ => isWhitespace w | [] => false end).
Proof.
  unfold markerMatch. destruct (matchBullet t) as [m |] eqn:Eb.
  - intros H. inversion H; subst m. clear H.
    unfold matchBullet in Eb. destruct t as [| g rest]; [discriminate |].
    destruct (isBulletGlyph g) eqn:Hg; [| discriminate].
    inversion Eb; subst n. exists [g], rest.
    split; [reflexivity |]. split; [discriminate |].
    split; [reflexivity |]. split.
    { simpl. rewrite (glyph_not_whitespace g Hg). reflexivity. }
    unfold testBullet, testNumbered, testLettered. simpl.
    rewrite Hg, (glyph_not_digit g Hg), (glyph_not_letter g Hg). simpl.
    destruct rest as [| w [| w' rest]]; simpl;
      rewrite ?orb_false_r; reflexivity.
  - destruct (matchNumbered t) as [m |] eqn:En.
    + intros H. inversion H; subst m. clear H.
      unfold matchNumbered in En.
      pose proof (takeWhile_dropWhile isDigit t) as Ht.
      pose proof (takeWhile_forallb isDigit t) as Hds.
      unfold testNumbered.
      destruct (takeWhile isDigit t) as [| d ds] eqn:Etw; [discriminate |].
      destruct (dropWhile isDigit t) as [| p rest] eqn:Edw; [discriminate |].
      destruct (isDotOrParen p) eqn:Hp; [| discriminate].
      assert (Hn : n = strlen (d :: ds) + 1
                       + strlen (takeWhile isWhitespace rest))
        by congruence.
      clear En. exists ((d :: ds) ++ [p]), rest.
      split; [rewrite <- app_assoc; symmetry; exact Ht |].
      split; [discriminate |].
      split; [rewrite Hn, !strlen_app; unfold strlen; simpl length; lia |].
      split.
      { rewrite forallb_app. apply andb_true_iff. split.
        - clear - Hds. induction (d :: ds) as [| x u IH]; simpl in *;
            [reflexivity |].
          apply andb_true_iff in Hds. destruct Hds as [Hx Hu].
          rewrite (digit_not_whitespace x Hx). simpl. apply IH. exact Hu.
        - simpl. rewrite (dotOrParen_not_whitespace p Hp). reflexivity. }
      assert (Hd : isDigit d = true)
        by (simpl in Hds; apply andb_true_iff in Hds; tauto).
      rewrite <- Ht. unfold testBullet, testLettered. simpl.
      rewrite (digit_not_glyph d Hd), (digit_not_letter d Hd). simpl.
      replace (match ds ++ p :: rest with
               | [] => false | _ :: _ => false end) with false
        by (destruct (ds ++ p :: rest); reflexivity).
      replace (match ds ++ p :: rest with
               | [] => false | [_] => false | _ :: _ :: _ => false end)
        with false
        by (destruct (ds ++ p :: rest) as [| ? [| ? ?]]; reflexivity).
      simpl. destruct rest as [| w rest]; simpl;
        rewrite ?orb_false_r, ?andb_false_r; reflexivity.
    + intros El. unfold matchLettered in El.
      destruct t as [| l [| p rest]]; try discriminate.
      destruct (isLetter l) eqn:Hl; [| discriminate].
      destruct (isDotOrParen p) eqn:Hp; [| discriminate].
      simpl in El. inversion El; subst n. clear El.
      exists [l; p], rest.
      split; [reflexivity |]. split; [discriminate |].
      split; [reflexivity |]. split.
      { simpl. rewrite (letter_not_whitespace l Hl),
          (dotOrParen_not_whitespace p Hp). reflexivity. }
      unfold testBullet, testNumbered, testLettered. simpl.
      rewrite (letter_not_glyph l Hl), (letter_not_digit l Hl), Hl, Hp. simpl.
      destruct rest; reflexivity.
Qed.

Lemma markerMatch_length t n :
  markerMatch t = Some n -> 1 <= n <= strlen t.
Proof.
  intros H.
  destruct (markerMatch_cases _ _ H) as (pre & rest & -> & Hne & -> & _ & _).
  rewrite strlen_app. pose proof (strlen_pos _ Hne).
  pose proof (strlen_takeWhile_le isWhitespace rest).
  unfold strlen in *. lia.
Qed.

Lemma classifyMarker_tests text :
  fst (classifyMarker text) = None
  <-> testBullet (trimStart text) || testNumbered (trimStart text)
      || testLettered (trimStart text) = false.
Proof.
  unfold classifyMarker.
  destruct (testBullet _), (testNumbered _), (testLettered _); simpl;
    split; intros H; try reflexivity; discriminate.
Qed.

Lemma classifyMarker_markerMatch text preset n :
  classifyMarker text = (Some preset, n) ->
  markerMatch (trimStart text) = Some n.
Proof.
  intros H. apply classifyMarker_sound in H.
  destruct H as [g w rest Hg Hw | ds p w rest Hne Hds Hp Hw
                | l p w rest Hl Hp Hw].
  - unfold markerMatch, matchBullet. rewrite Hg. reflexivity.
  - destruct ds as [| d ds]; [congruence |].
    assert (Hd : isDigit d = true)
      by (simpl in Hds; apply andb_true_iff in Hds; tauto).
    unfold markerMatch.
    replace (matchBullet ((d :: ds) ++ p :: w :: rest)) with (@None Z)
      by (simpl; rewrite (digit_not_glyph d Hd); reflexivity).
    unfold matchNumbered.
    destruct (takeWhile_stop isDigit (d :: ds) p (w :: rest) Hds
                (dotOrParen_not_digit p Hp)) as [-> ->].
    rewrite Hp. reflexivity.
  - unfold markerMatch, matchBullet, matchNumbered, matchLettered.
    rewrite (letter_not_glyph l Hl). simpl.
    rewrite (letter_not_digit l Hl), Hl, Hp. reflexivity.
Qed.

(** X6: the marker pattern of the second pass matches every trimmed text
    that the first pass classifies, with the same marker length. It also
    matches markers that the first pass does not accept: a match of the
    pattern covers at least one code unit of the trimmed text, and the
    first pass rejects the text exactly when the marker covered holds no
    whitespace. *)
Theorem marker_passes text :
  (forall preset n,
      classifyMarker text = (Some preset, n) ->
      markerMatch (trimStart text) = Some n)
  /\ (forall n,
        markerMatch (trimStart text) = Some n ->
        1 <= n <= strlen (trimStart text)
        /\ (fst (classifyMarker text) = None
            <-> existsb isWhitespace (markerOf (trimStart text) n) = false)).
Proof.
  split; [apply classifyMarker_markerMatch |].
  intros n H. rewrite classifyMarker_tests.
  destruct (markerMatch_cases _ _ H) as (pre & rest & Et & Hne & En & Hpre & Ht).
  split; [exact (markerMatch_length _ _ H) |].
  rewrite Ht, Et, En, markerOf_app, (existsb_marker pre rest Hpre). tauto.
Qed.

Lemma marker_passes_witness :
  markerMatch (trimStart (str "  - item")) = Some 2
  /\ fst (classifyMarker (str "-item")) = None.
Proof.
  split.
  - apply (proj1 (marker_passes (str "  - item")) BULLET_DISC_CIRCLE_SQUARE 2).
    reflexivity.
  - apply (proj2 (marker_passes (str "-item")) 1); reflexivity.
Defined.

(** ** The marker deletions *)

Lemma spansWithin_weaken spans : forall lo lo' hi,
  lo' <= lo -> spansWithin lo hi spans -> spansWithin lo' hi spans.
Proof.
  induction spans as [| [[s e] |] t IH]; simpl; intros lo lo' hi Hlo H.
  - lia.
  - destruct H as (H1 & H2 & H3). repeat split; try lia. exact H3.
  - eapply IH; eauto.
Qed.

(** The deletion of a paragraph, if the second pass makes one: a
    non-empty range inside the paragraph. *)
Lemma markerDelete_within s e runs text tsi m :
  runsWithin s e runs ->
  markerScan s runs = (text, tsi) ->
  markerMatch (trimStart text) = Some m ->
  let deleteStart := tsi + (strlen text - strlen (trimStart text)) in
  s <= deleteStart /\ deleteStart < deleteStart + m /\ deleteStart + m <= e.
Proof.
  intros Hw Ef Em.
  pose proof (markerMatch_nonEmpty _ _ Em) as Htrim.
  assert (Htext : text <> []) by (intros ->; apply Htrim; reflexivity).
  destruct (markerScan_bound runs s e [] s Hw ltac:(congruence)
              text tsi Ef Htext) as (H1 & _ & H3).
  specialize (H1 eq_refl).
  pose proof (markerMatch_length _ _ Em) as Hm.
  pose proof (dropWhile_length isWhitespace text) as Hlen.
  assert (Hle : strlen (trimStart text) <= strlen text)
    by (unfold strlen, trimStart; lia).
  simpl. lia.
Qed.

Lemma markerDeletes_spans content : forall lo hi,
  wfContent lo hi content ->
  spansWithin lo hi (map targetOf (markerDeletes content)).
Proof.
  unfold wfContent.
  induction content as [| el rest IH]; intros lo hi [Hsp Hall]; simpl in *.
  - exact Hsp.
  - destruct Hall as [Hel Hrest].
    destruct el as [[s |] [e |] runs | [s |] [e |] rows | s e | s e];
      simpl in Hel; try contradiction; unfold el_span in Hsp; simpl in Hsp.
    + destruct Hsp as (Hlo & Hse & Hsp).
      specialize (IH e hi (conj Hsp Hrest)).
      destruct (markerScan s runs) as [text tsi] eqn:Ef.
      destruct (markerMatch (trimStart text)) as [m |] eqn:Em.
      * destruct (markerDelete_within _ _ _ _ _ _ Hel Ef Em) as (A & B & C).
        simpl. repeat split; try lia.
        eapply spansWithin_weaken; [| exact IH]. lia.
      * eapply spansWithin_weaken; [| exact IH]. lia.
    + destruct Hsp as (Hlo & Hse & Hsp).
      eapply spansWithin_weaken; [| apply (IH e hi (conj Hsp Hrest))]. lia.
    + destruct (spanOf s e) as [[a b] |]; simpl in Hsp.
      * destruct Hsp as (Hlo & Hse & Hsp).
        eapply spansWithin_weaken; [| apply (IH b hi (conj Hsp Hrest))]. lia.
      * apply IH. split; assumption.
    + destruct (spanOf s e) as [[a b] |]; simpl in Hsp.
      * destruct Hsp as (Hlo & Hse & Hsp).
        eapply spansWithin_weaken; [| apply (IH b hi (conj Hsp Hrest))]. lia.
      * apply IH. split; assumption.
Qed.

Lemma markerDeletes_deletesSome content :
  Forall deletesSome (markerDeletes content).
Proof.
  induction content as [| el rest IH]; simpl; [constructor |].
  destruct el as [[s |] e runs | | |]; try exact IH.
  destruct (markerScan s runs) as [text tsi].
  destruct (markerMatch (trimStart text)) as [m |] eqn:Em; [| exact IH].
  constructor; [| exact IH].
  pose proof (markerMatch_length _ _ Em).
  eexists _, _. split; [reflexivity | lia].
Qed.

Lemma markerDeletes_paragraph content : forall s e,
  All wfElement content ->
  In (DeleteContentRange s e) (markerDeletes content) ->
  exists ps pe runs,
    In (Paragraph (Some ps) (Some pe) runs) content /\ ps <= s /\ e <= pe.
Proof.
  induction content as [| el rest IH]; intros ds de Hall Hin; simpl in *;
    [contradiction |].
  destruct Hall as [Hel Hrest].
  assert (Hrec : In (DeleteContentRange ds de) (markerDeletes rest) ->
                 exists ps pe runs,
                   (el = Paragraph (Some ps) (Some pe) runs
                    \/ In (Paragraph (Some ps) (Some pe) runs) rest)
                   /\ ps <= ds /\ de <= pe).
  { intros H. destruct (IH _ _ Hrest H) as (ps & pe & runs & Hp & Hb).
    exists ps, pe, runs. auto. }
  destruct el as [[s |] [e |] runs | | |]; simpl in Hel; try contradiction;
    try (apply Hrec; exact Hin).
  destruct (markerScan s runs) as [text tsi] eqn:Ef.
  destruct (markerMatch (trimStart text)) as [m |] eqn:Em;
    [| apply Hrec; exact Hin].
  destruct Hin as [Hin | Hin]; [| apply Hrec; exact Hin].
  inversion Hin; subst ds de.
  destruct (markerDelete_within _ _ _ _ _ _ Hel Ef Em) as (A & B & C).
  exists s, e, runs. simpl in *. split; [left; reflexivity | lia].
Qed.

(** X7: the marker deletions of the second pass, on a well-formed body
    between [lo] and [hi]: every request is the deletion of a range that
    is not empty (on any body); the ranges lie between [lo] and [hi] in
    document order, each one ending before the next begins; and each
    range lies inside a top-level paragraph of the body. *)
Theorem markerDeletes_disjoint content lo hi :
  wfContent lo hi content ->
  Forall deletesSome (markerDeletes content)
  /\ spansWithin lo hi (map targetOf (markerDeletes content))
  /\ (forall s e,
        In (DeleteContentRange s e) (markerDeletes content) ->
        exists ps pe runs,
          In (Paragraph (Some ps) (Some pe) runs) content
          /\ ps <= s /\ e <= pe).
Proof.
  intros Hwf. split; [apply markerDeletes_deletesSome |].
  split; [apply markerDeletes_spans; exact Hwf |].
  intros s e. apply markerDeletes_paragraph. exact (proj2 Hwf).
Qed.

Lemma markerDeletes_disjoint_witness :
  wfContent 0 30 listBody
  /\ spansWithin 0 30 (map targetOf (markerDeletes listBody)).
Proof.
  assert (H : wfContent 0 30 listBody) by (cbv; repeat split; discriminate).
  split; [exact H |]. apply (markerDeletes_disjoint listBody 0 30 H).
Defined.

(** ** Termination of the search *)

(** For a needle that is not empty every iteration moves the search
    position forward: the loop returns within as many iterations as
    positions are left, whatever the segments are. *)
Lemma searchLoop_total fullText segs needle instance :
  needle <> [] ->
  forall fuel foundCount from,
    (from <= length fullText)%nat ->
    (length fullText - from < fuel)%nat ->
    exists r,
      searchLoop fuel fullText segs needle instance foundCount from
      = Returned r.
Proof.
  intros Hn. induction fuel as [| fuel IH]; intros foundCount from Hfrom Hfuel;
    [lia |].
  simpl. destruct (foundCount <? instance); [| eauto].
  pose proof (indexOf_step fullText needle from Hn Hfrom) as Hstep.
  destruct (indexOf fullText needle from) as [p |]; [| eauto].
  destruct Hstep as [Hp _].
  destruct (foundCount + 1 =? instance).
  - destruct (mapToDocument segs _ _ _ _ _) as [a b].
    destruct ((a =? -1) || (b =? -1)); [| eauto].
    apply IH; lia.
  - apply IH; lia.
Qed.

(** With the empty needle [indexOf] always finds a position, so the loop
    never leaves through its [break] or its condition. *)
Lemma searchLoop_empty_needle fullText segs instance :
  forall fuel foundCount from,
    foundCount < instance ->
    searchLoop fuel fullText segs [] instance foundCount from
    <> Returned None.
Proof.
  induction fuel as [| fuel IH]; intros foundCount from Hfc; [discriminate |].
  simpl. replace (foundCount <? instance) with true
    by (symmetry; apply Z.ltb_lt; exact Hfc).
  unfold indexOf. destruct (skipn from fullText); simpl;
    (destruct (Z.eqb_spec (foundCount + 1) instance) as [Heq | Hneq];
     [ destruct (mapToDocument segs _ _ _ _ _) as [a b];
       destruct ((a =? -1) || (b =? -1)); [apply IH; lia | discriminate]
     | apply IH; lia ]).
Qed.

Lemma searchLoop_no_text instance :
  forall fuel foundCount from,
    0 <= foundCount < instance ->
    searchLoop fuel [] [] [] instance foundCount from = OutOfFuel.
Proof.
  induction fuel as [| fuel IH]; intros foundCount from Hfc; [reflexivity |].
  simpl. replace (foundCount <? instance) with true
    by (symmetry; apply Z.ltb_lt; lia).
  unfold indexOf. rewrite skipn_nil. simpl.
  destruct (Z.eqb_spec (foundCount + 1) instance) as [Heq | Hneq];
    apply IH; lia.
Qed.

(** X8: for a needle that is not empty, the text search returns on every
    body, well-formed or not: the loop never needs more iterations than
    the text has positions. It returns no range when the instance asked
    for is less than 1. *)
Theorem findTextRangeIn_returns content needle k :
  needle <> [] ->
  exists r,
    findTextRangeIn content needle k = Returned r
    /\ (k < 1 -> r = None).
Proof.
  intros Hn. unfold findTextRangeIn, locateIn.
  destruct (searchLoop_total (fullTextOf (collectTextFromContent content))
              (sortSegments (collectTextFromContent content)) needle k Hn
              (S (length (fullTextOf (collectTextFromContent content)))) 0 0%nat
              ltac:(lia) ltac:(lia)) as [r Hr].
  exists r. split; [exact Hr |]. intros Hk.
  simpl in Hr. replace (0 <? k) with false in Hr
    by (symmetry; apply Z.ltb_ge; lia).
  congruence.
Qed.

Lemma findTextRangeIn_returns_witness :
  exists r,
    findTextRangeIn filledCellBody (str "zz") 1 = Returned r
    /\ (1 < 1 -> r = None).
Proof.
  apply (findTextRangeIn_returns filledCellBody (str "zz") 1). discriminate.
Defined.

(** X9: with the empty needle and an instance of 1 or more, the search
    loop never gives up: whatever the text and the segments, it does not
    return [null], since [indexOf] finds the empty needle at every
    position, also past the end of the text. On a body that holds no
    text no position can be mapped, so the loop returns nothing at all,
    however many iterations it is given. *)
Theorem empty_needle_search content k :
  1 <= k ->
  (forall fuel,
      searchLoop fuel (fullTextOf (collectTextFromContent content))
        (sortSegments (collectTextFromContent content)) [] k 0 0
      <> Returned None)
  /\ (collectTextFromContent content = [] ->
      forall fuel,
        searchLoop fuel (fullTextOf (collectTextFromContent content))
          (sortSegments (collectTextFromContent content)) [] k 0 0
        = OutOfFuel).
Proof.
  intros Hk. split.
  - intros fuel. apply searchLoop_empty_needle. lia.
  - intros -> fuel. apply searchLoop_no_text. lia.
Qed.

Lemma empty_needle_search_witness :
  searchLoop 1000 (fullTextOf (collectTextFromContent textlessBody))
    (sortSegments (collectTextFromContent textlessBody)) [] 1 0 0
  = OutOfFuel.
Proof.
  apply (proj2 (empty_needle_search textlessBody 1 ltac:(lia)));
    reflexivity.
Defined.

(** ** The conversions of the first pass *)

Lemma keptByRange_test startIndex endIndex ps pe :
  (match startIndex with Some s => pe <=? s | None => false end)
  || (match endIndex with Some e => e <=? ps | None => false end) = false
  <-> keptByRange startIndex endIndex ps pe.
Proof.
  unfold keptByRange. rewrite orb_false_iff. split.
  - intros [Hs He]. split.
    + intros s ->. apply Z.leb_gt in Hs. exact Hs.
    + intros e ->. apply Z.leb_gt in He. exact He.
  - intros [Hs He]. split.
    + destruct startIndex as [s |]; [| reflexivity].
      apply Z.leb_gt. apply Hs. reflexivity.
    + destruct endIndex as [e |]; [| reflexivity].
      apply Z.leb_gt. apply He. reflexivity.
Qed.

Lemma bulletRequests_In content startIndex endIndex ps pe preset :
  In (CreateParagraphBullets ps pe preset)
     (bulletRequests content startIndex endIndex)
  <-> exists runs,
        In (Paragraph (Some ps) (Some pe) runs) content
        /\ fst (classifyMarker (paragraphTextOf runs)) = Some preset
        /\ keptByRange startIndex endIndex ps pe.
Proof.
  induction content as [| el rest IH]; simpl.
  - split; [contradiction | intros (runs & [] & _)].
  - assert (Hrest :
      In (CreateParagraphBullets ps pe preset)
         (bulletRequests rest startIndex endIndex) ->
      exists runs,
        (el = Paragraph (Some ps) (Some pe) runs
         \/ In (Paragraph (Some ps) (Some pe) runs) rest)
        /\ fst (classifyMarker (paragraphTextOf runs)) = Some preset
        /\ keptByRange startIndex endIndex ps pe).
    { intros H. apply IH in H. destruct H as (runs & Hin & H).
      exists runs. auto. }
    assert (Hback : forall runs,
      In (Paragraph (Some ps) (Some pe) runs) rest ->
      fst (classifyMarker (paragraphTextOf runs)) = Some preset ->
      keptByRange startIndex endIndex ps pe ->
      In (CreateParagraphBullets ps pe preset)
         (bulletRequests rest startIndex endIndex)).
    { intros runs Hin Hc Hk. apply IH. exists runs. auto. }
    destruct el as [[s |] [e |] elements | | |];
      try (split; [exact Hrest
                  | intros (runs & [Heq | Hin] & Hc & Hk);
                    [discriminate | eapply Hback; eauto]]).
    pose proof (keptByRange_test startIndex endIndex s e) as Htest.
    destruct (_ || _).
    + split; [exact Hrest |].
      intros (runs & [Heq | Hin] & Hc & Hk); [| eapply Hback; eauto].
      inversion Heq; subst. apply Htest in Hk. discriminate.
    + destruct (fst (classifyMarker (paragraphTextOf elements)))
        as [found |] eqn:Ec.
      * split.
        -- intros [Heq | Hin]; [| apply Hrest; exact Hin].
           inversion Heq; subst. exists elements.
           split; [left; reflexivity |]. split; [exact Ec |].
           apply Htest. reflexivity.
        -- intros (runs & [Heq | Hin] & Hc & Hk).
           ++ inversion Heq; subst. left. congruence.
           ++ right. eapply Hback; eauto.
      * split; [exact Hrest |].
        intros (runs & [Heq | Hin] & Hc & Hk); [| eapply Hback; eauto].
        inversion Heq; subst. congruence.
Qed.

Lemma bulletRequests_bullets content startIndex endIndex :
  Forall (fun r => exists ps pe preset, r = CreateParagraphBullets ps pe preset)
         (bulletRequests content startIndex endIndex).
Proof.
  induction content as [| el rest IH]; simpl; [constructor |].
  destruct el as [[s |] [e |] elements | | |]; try exact IH.
  destruct (_ || _); [exact IH |].
  destruct (fst (classifyMarker (paragraphTextOf elements))); [| exact IH].
  constructor; [eauto | exact IH].
Qed.

(** X10: the first pass of the list conversion makes nothing but bullet
    requests, and it makes the request for the range [ps .. pe) with a
    preset exactly when the body has, at its top level, a paragraph with
    that range whose text is classified with that preset and which the
    range test keeps; a paragraph inside a table cell is not looked at.
    The range test is not an intersection test: a classified paragraph
    that holds the position [x] strictly inside is converted also for
    the empty range from [x] to [x]. *)
Theorem bulletRequests_targets content :
  (forall startIndex endIndex,
      Forall (fun r => exists ps pe preset,
                         r = CreateParagraphBullets ps pe preset)
             (bulletRequests content startIndex endIndex))
  /\ (forall startIndex endIndex ps pe preset,
        In (CreateParagraphBullets ps pe preset)
           (bulletRequests content startIndex endIndex)
        <-> exists runs,
              In (Paragraph (Some ps) (Some pe) runs) content
              /\ fst (classifyMarker (paragraphTextOf runs)) = Some preset
              /\ keptByRange startIndex endIndex ps pe)
  /\ (forall x ps pe runs preset,
        In (Paragraph (Some ps) (Some pe) runs) content ->
        fst (classifyMarker (paragraphTextOf runs)) = Some preset ->
        ps < x < pe ->
        In (CreateParagraphBullets ps pe preset)
           (bulletRequests content (Some x) (Some x))).
Proof.
  split; [intros; apply bulletRequests_bullets |].
  split; [intros; apply bulletRequests_In |].
  intros x ps pe runs preset Hin Hc Hx. apply bulletRequests_In.
  exists runs. split; [exact Hin |]. split; [exact Hc |].
  split; intros y Hy; inversion Hy; subst; lia.
Qed.

Lemma bulletRequests_targets_witness :
  In (CreateParagraphBullets 1 15 NUMBERED_DECIMAL_NESTED)
     (bulletRequests listBody (Some 5) (Some 5)).
Proof.
  destruct (bulletRequests_targets listBody) as (_ & _ & H).
  apply (H 5 1 15 [mkPE (Some 1) (Some 15) (Some (str "1. First item" ++ [LF]))]).
  - right. left. reflexivity.
  - reflexivity.
  - lia.
Defined.

(** ** The locators as remote operations *)

Lemma findTextRange_run textToFind instance c w :
  findTextRange textToFind instance c w
  = (match documentsGet c (remoteDoc w) with
     | inl err => Throw (translateSearchError (ApiFailure err))
     | inr view =>
         Ok (match body_content view with
             | None => Returned None
             | Some content => findTextRangeIn content textToFind instance
             end)
     end, afterRead w).
Proof.
  unfold findTextRange, rethrow, bind. rewrite getDocument_run.
  destruct (documentsGet c (remoteDoc w)) as [err | view]; [reflexivity |].
  destruct (body_content view); reflexivity.
Qed.

Lemma getParagraphRange_run indexWithin c w :
  getParagraphRange indexWithin c w
  = (match documentsGet c (remoteDoc w) with
     | inl err => Throw (translateParagraphError (ApiFailure err))
     | inr view =>
         Ok (match body_content view with
             | None => None
             | Some content => findParagraphInContent indexWithin content
             end)
     end, afterRead w).
Proof.
  unfold getParagraphRange, rethrow, bind. rewrite getDocument_run.
  destruct (documentsGet c (remoteDoc w)) as [err | view]; [reflexivity |].
  destruct (body_content view); reflexivity.
Qed.

Lemma findTableAtIndex_run tableStartIndex c w :
  findTableAtIndex tableStartIndex c w
  = (match documentsGet c (remoteDoc w) with
     | inl err => Throw (JsError "Failed to find table")
     | inr view =>
         Ok (match body_content view with
             | None => None
             | Some content => findTableAtIndexIn content tableStartIndex
             end)
     end, afterRead w).
Proof.
  unfold findTableAtIndex, rethrow, bind. rewrite getDocument_run.
  destruct (documentsGet c (remoteDoc w)) as [err | view]; [reflexivity |].
  destruct (body_content view); reflexivity.
Qed.

Lemma translateSearchError_translated e : translated (translateSearchError e).
Proof.
  destruct e as [m | m | err]; simpl; auto.
  destruct (err_code err =? 404); [exact I |].
  destruct (err_code err =? 403); exact I.
Qed.

Lemma translateParagraphError_translated e :
  translated (translateParagraphError e).
Proof.
  destruct e as [m | m | err]; simpl; auto.
  destruct (err_code err =? 404); [exact I |].
  destruct (err_code err =? 403); exact I.
Qed.

Lemma translateBatchError_translated err :
  translated (translateBatchError (ApiFailure err)).
Proof.
  simpl. destruct (_ && _); [exact I |].
  destruct (err_code err =? 404); [exact I |].
  destruct (err_code err =? 403); exact I.
Qed.

Lemma executeBatchUpdate_translated requests c w e :
  fst (executeBatchUpdate requests c w) = Throw e -> translated e.
Proof.
  destruct requests as [[| r rs] |]; try discriminate.
  rewrite executeBatchUpdate_run. cbn [fst].
  destruct (documentsBatchUpdate c (remoteDoc w) (r :: rs)) as [err | [d doc]];
    [| discriminate].
  intros H. injection H as <-. exact (translateBatchError_translated err).
Qed.

(** X12: the four locators only read: each makes exactly one read and no
    write, and leaves the remote document as it was, whether it returns
    or throws. *)
Theorem locators_read_once c w :
  (forall textToFind instance,
      snd (findTextRange textToFind instance c w) = afterRead w)
  /\ (forall indexWithin,
        snd (getParagraphRange indexWithin c w) = afterRead w)
  /\ (forall tableStartIndex,
        snd (findTableAtIndex tableStartIndex c w) = afterRead w)
  /\ (forall tableStartIndex rowIndex columnIndex,
        snd (getTableCellRange tableStartIndex rowIndex columnIndex c w)
        = afterRead w).
Proof.
  split; [intros; rewrite findTextRange_run; reflexivity |].
  split; [intros; rewrite getParagraphRange_run; reflexivity |].
  split; [intros; rewrite findTableAtIndex_run; reflexivity |].
  intros. rewrite getTableCellRange_run. reflexivity.
Qed.

(** X13: an error of the remote service never leaves the locators or
    [executeBatchUpdate], [insertText] and [createTable] as it came:
    what they throw is an exception made by this file. The list
    conversion has no handler around its read: a read that fails there
    is passed on raw. *)
Theorem remote_errors_are_translated c w e :
  (forall requests,
      fst (executeBatchUpdate requests c w) = Throw e -> translated e)
  /\ (forall text index,
        fst (insertText text index c w) = Throw e -> translated e)
  /\ (forall rows columns index,
        fst (createTable rows columns index c w) = Throw e -> translated e)
  /\ (forall textToFind instance,
        fst (findTextRange textToFind instance c w) = Throw e -> translated e)
  /\ (forall indexWithin,
        fst (getParagraphRange indexWithin c w) = Throw e -> translated e)
  /\ (forall tableStartIndex,
        fst (findTableAtIndex tableStartIndex c w) = Throw e ->
        e = JsError "Failed to find table")
  /\ (forall tableStartIndex rowIndex columnIndex,
        fst (getTableCellRange tableStartIndex rowIndex columnIndex c w)
        = Throw e ->
        e = cellRangeFailure)
  /\ (forall startIndex endIndex err,
        documentsGet c (remoteDoc w) = inl err ->
        fst (detectAndFormatLists startIndex endIndex c w)
        = Throw (ApiFailure err)).
Proof.
  split; [intros requests; apply executeBatchUpdate_translated |].
  split.
  { intros [| ch text] index; [discriminate |].
    apply executeBatchUpdate_translated. }
  split.
  { intros rows columns index. unfold createTable.
    destruct (_ || _); [| apply executeBatchUpdate_translated].
    intros H. inversion H. exact I. }
  split.
  { intros t k. rewrite findTextRange_run. cbn [fst].
    destruct (documentsGet c (remoteDoc w)) as [err | view]; [| discriminate].
    intros H. injection H as <-.
    exact (translateSearchError_translated (ApiFailure err)). }
  split.
  { intros i. rewrite getParagraphRange_run. cbn [fst].
    destruct (documentsGet c (remoteDoc w)) as [err | view]; [| discriminate].
    intros H. injection H as <-.
    exact (translateParagraphError_translated (ApiFailure err)). }
  split.
  { intros i. rewrite findTableAtIndex_run. cbn [fst].
    destruct (documentsGet c (remoteDoc w)); [| discriminate].
    intros H. inversion H. reflexivity. }
  split.
  { intros i r col. rewrite getTableCellRange_run. cbn [fst].
    destruct (documentsGet c (remoteDoc w)) as [err | view].
    - intros H. inversion H. reflexivity.
    - destruct (body_content view); [| discriminate].
      destruct (getTableCellRangeIn _ _ _ _); [discriminate |].
      intros H. inversion H. reflexivity. }
  intros s e' err Herr. unfold detectAndFormatLists, bind.
  rewrite getDocument_run, Herr. reflexivity.
Qed.

Lemma remote_errors_are_translated_witness :
  translated (JsError "Google API Error")
  /\ fst (detectAndFormatLists None None failingCollaborators twoByThreeWorld)
     = Throw (ApiFailure (mkApiError 404 [])).
Proof.
  destruct (remote_errors_are_translated failingCollaborators twoByThreeWorld
              (JsError "Google API Error"))
    as (H1 & _ & _ & _ & _ & _ & _ & H8).
  split.
  - apply (H1 (Some [InsertTable 1 1 1])). reflexivity.
  - apply H8. reflexivity.
Defined.

(** X14: [createTable] refuses a table with less than one row or less
    than one column before any remote call, and otherwise makes exactly
    one write, of the one table insertion, and no read. *)
Theorem createTable_validation rows columns index c w :
  (rows < 1 \/ columns < 1 ->
   createTable rows columns index c w
   = (Throw (UserError "Table must have at least 1 row and 1 column."), w))
  /\ (1 <= rows -> 1 <= columns ->
      trace (snd (createTable rows columns index c w))
      = trace w ++ [BatchUpdateCall [InsertTable rows columns index]]).
Proof.
  unfold createTable. split.
  - intros H. replace ((rows <? 1) || (columns <? 1)) with true; [reflexivity |].
    symmetry. apply orb_true_iff. rewrite !Z.ltb_lt. exact H.
  - intros Hr Hc. replace ((rows <? 1) || (columns <? 1)) with false.
    + rewrite executeBatchUpdate_run. reflexivity.
    + symmetry. apply orb_false_iff. rewrite !Z.ltb_ge. lia.
Qed.

Lemma createTable_validation_witness :
  createTable 0 3 1 idleCollaborators twoByThreeWorld
  = (Throw (UserError "Table must have at least 1 row and 1 column."),
     twoByThreeWorld)
  /\ trace (snd (createTable 2 3 1 idleCollaborators twoByThreeWorld))
     = trace twoByThreeWorld ++ [BatchUpdateCall [InsertTable 2 3 1]].
Proof.
  split.
  - apply (proj1 (createTable_validation 0 3 1 idleCollaborators
                    twoByThreeWorld)). lia.
  - apply (proj2 (createTable_validation 2 3 1 idleCollaborators
                    twoByThreeWorld)); lia.
Defined.

(** ** Remote calls of an operation *)

Lemma reads_app a b : reads (a ++ b) = (reads a + reads b)%nat.
Proof. unfold reads. rewrite filter_app, length_app. reflexivity. Qed.

Lemma writes_app a b : writes (a ++ b) = (writes a + writes b)%nat.
Proof. unfold writes. rewrite batchCalls_app, length_app. reflexivity. Qed.

Lemma Budget_ret {A} c (a : A) : Budget c 0 0 (ret a).
Proof. intros w. exists []. simpl. rewrite app_nil_r. split; [reflexivity | split; unfold reads, writes; simpl; lia]. Qed.

Lemma Budget_throw {A} c e : Budget c 0 0 (@throw A e).
Proof. intros w. exists []. simpl. rewrite app_nil_r. split; [reflexivity | split; unfold reads, writes; simpl; lia]. Qed.

Lemma Budget_liftRes {A} c (r : Res A) : Budget c 0 0 (liftRes r).
Proof. intros w. exists []. simpl. rewrite app_nil_r. split; [reflexivity | split; unfold reads, writes; simpl; lia]. Qed.

Lemma Budget_weaken {A} c r wr r' wr' (m : M A) :
  (r <= r')%nat -> (wr <= wr')%nat -> Budget c r wr m -> Budget c r' wr' m.
Proof.
  intros Hr Hw Hm w. destruct (Hm w) as (evs & E & H1 & H2).
  exists evs. split; [exact E | split; lia].
Qed.

Lemma Budget_bind {A B} c r1 w1 r2 w2 (m : M A) (k : A -> M B) :
  Budget c r1 w1 m -> (forall a, Budget c r2 w2 (k a)) ->
  Budget c (r1 + r2) (w1 + w2) (bind m k).
Proof.
  intros Hm Hk w. unfold bind. destruct (Hm w) as (evs1 & E1 & R1 & W1).
  destruct (m c w) as [[a | e] w'] eqn:Em; simpl in E1 |- *.
  - destruct (Hk a w') as (evs2 & E2 & R2 & W2).
    exists (evs1 ++ evs2). rewrite E2, E1, app_assoc, reads_app, writes_app.
    split; [reflexivity | split; lia].
  - exists evs1. split; [exact E1 | split; lia].
Qed.

Lemma Budget_rethrow {A} c r wr (m : M A) handler :
  Budget c r wr m -> Budget c r wr (rethrow m handler).
Proof.
  intros Hm w. unfold rethrow. destruct (Hm w) as (evs & E & H).
  destruct (m c w) as [[a | e] w']; simpl in *; exists evs; auto.
Qed.

Lemma Budget_getDocument c : Budget c 1 0 getDocument.
Proof.
  intros w. rewrite getDocument_run. exists [GetCall].
  split; [reflexivity | split; unfold reads, writes; simpl; lia].
Qed.

Lemma Budget_executeBatchUpdate c requests :
  Budget c 0 1 (executeBatchUpdate requests).
Proof.
  intros w. destruct requests as [[| r rs] |];
    try (exists []; simpl; rewrite app_nil_r; split; [reflexivity | split; unfold reads, writes; simpl; lia]).
  rewrite executeBatchUpdate_run. cbn [snd trace].
  eexists. split; [reflexivity |].
  rewrite reads_app, writes_app.
  destruct (MAX_BATCH_UPDATE_REQUESTS <? arrayLength (r :: rs)); simpl;
    split; cbv; lia.
Qed.

Lemma Budget_submitIfAny c requests : Budget c 0 1 (submitIfAny requests).
Proof.
  destruct requests as [| r rs].
  - apply (Budget_weaken c 0 0); [lia | lia | apply Budget_ret].
  - apply Budget_executeBatchUpdate.
Qed.

Lemma Budget_getTableCellRange c tableStartIndex rowIndex columnIndex :
  Budget c 1 0 (getTableCellRange tableStartIndex rowIndex columnIndex).
Proof.
  intros w. rewrite getTableCellRange_run. exists [GetCall].
  split; [reflexivity | split; unfold reads, writes; simpl; lia].
Qed.

(** X15: the number of remote calls of an operation does not depend on
    the document: the list conversion makes at most two reads and two
    writes, the table population at most two reads and three writes, the
    cell edit at most two reads and two writes, [createTable] and
    [insertText] at most one write and no read; and every operation only
    adds to the trace of calls made so far. *)
Theorem call_budget c :
  (forall startIndex endIndex,
      Budget c 2 2 (detectAndFormatLists startIndex endIndex))
  /\ (forall insertIndex headers rows boldHeaders boldTotalRow,
        Budget c 2 3
          (createTableWithData insertIndex headers rows boldHeaders
             boldTotalRow))
  /\ (forall tableStartIndex rowIndex columnIndex textContent textStyle
             paragraphStyle,
        Budget c 2 2
          (editTableCell tableStartIndex rowIndex columnIndex textContent
             textStyle paragraphStyle))
  /\ (forall rows columns index, Budget c 0 1 (createTable rows columns index))
  /\ (forall text index, Budget c 0 1 (insertText text index)).
Proof.
  split.
  { intros s e. unfold detectAndFormatLists.
    apply (Budget_bind c 1 0 1 2); [apply Budget_getDocument |].
    intros res. destruct (body_content res) as [content |];
      [| apply (Budget_weaken c 0 0); [lia | lia | apply Budget_throw]].
    destruct (bulletRequests content s e) as [| r rs];
      [apply (Budget_weaken c 0 0); [lia | lia | apply Budget_ret] |].
    apply (Budget_bind c 0 1 1 1); [apply Budget_executeBatchUpdate |].
    intros result.
    apply (Budget_bind c 1 0 0 1); [apply Budget_getDocument |].
    intros updatedDoc.
    apply (Budget_bind c 0 1 0 0); [| intros; apply Budget_ret].
    destruct (match body_content updatedDoc with
              | Some updated => markerDeletes updated
              | None => []
              end);
      [apply (Budget_weaken c 0 0); [lia | lia | apply Budget_ret]
      | apply Budget_executeBatchUpdate]. }
  split.
  { intros i headers rows bh bt. unfold createTableWithData.
    destruct (arrayLength headers =? 0);
      [apply (Budget_weaken c 0 0); [lia | lia | apply Budget_throw] |].
    apply (Budget_bind c 0 1 2 2); [apply Budget_executeBatchUpdate |].
    intros _. apply (Budget_bind c 1 0 1 2); [apply Budget_getDocument |].
    intros doc. destruct (body_content doc) as [content |];
      [| apply (Budget_weaken c 0 0); [lia | lia | apply Budget_throw]].
    destruct (findInsertedTable content i) as [[tableRows start] |];
      [| apply (Budget_weaken c 0 0); [lia | lia | apply Budget_throw]].
    apply (Budget_bind c 0 1 1 1); [apply Budget_submitIfAny |].
    intros _. apply (Budget_bind c 1 1 0 0); [| intros; apply Budget_ret].
    destruct (existsb ci_isBold _);
      [| apply (Budget_weaken c 0 0); [lia | lia | apply Budget_ret]].
    apply (Budget_bind c 1 0 0 1); [apply Budget_getDocument |].
    intros after. destruct (body_content after);
      [apply Budget_submitIfAny
      | apply (Budget_weaken c 0 0); [lia | lia | apply Budget_ret]]. }
  split.
  { intros tsi row col text ts ps. unfold editTableCell.
    apply (Budget_bind c 1 0 1 2); [apply Budget_getTableCellRange |].
    intros [cellRange |];
      [| apply (Budget_weaken c 0 0); [lia | lia | apply Budget_throw]].
    apply (Budget_bind c 0 1 1 1); [apply Budget_submitIfAny |].
    intros _. apply (Budget_bind c 1 1 0 0); [| intros; apply Budget_ret].
    destruct (_ && _);
      [| apply (Budget_weaken c 0 0); [lia | lia | apply Budget_ret]].
    apply (Budget_bind c 1 0 0 1); [apply Budget_getTableCellRange |].
    intros [updated |]; destruct text as [text |];
      try (apply (Budget_weaken c 0 0); [lia | lia | apply Budget_ret]).
    apply (Budget_bind c 0 0 0 1); [| intros; apply Budget_submitIfAny].
    intros w. exists []. simpl. rewrite app_nil_r. split; [reflexivity | split; unfold reads, writes; simpl; lia]. }
  split.
  { intros rows columns index. unfold createTable.
    destruct (_ || _);
      [apply (Budget_weaken c 0 0); [lia | lia | apply Budget_throw]
      | apply Budget_executeBatchUpdate]. }
  intros [| ch text] index; unfold insertText;
    [apply (Budget_weaken c 0 0); [lia | lia | apply Budget_ret]
    | apply Budget_executeBatchUpdate].
Qed.

(** ** The list conversion as a remote operation *)

Lemma detectAndFormatLists_converted
    startIndex endIndex c w view content r rs data doc1 :
  documentsGet c (remoteDoc w) = inr view ->
  body_content view = Some content ->
  bulletRequests content startIndex endIndex = r :: rs ->
  documentsBatchUpdate c (remoteDoc w) (r :: rs) = inr (data, doc1) ->
  exists w1,
    remoteDoc w1 = doc1
    /\ detectAndFormatLists startIndex endIndex c w
       = match documentsGet c doc1 with
         | inl err => (Throw (ApiFailure err), afterRead w1)
         | inr updatedDoc =>
             match
               match body_content updatedDoc with
               | Some updated => markerDeletes updated
               | None => []
               end
             with
             | [] => (Ok data, afterRead w1)
             | d :: ds =>
                 let after :=
                   executeBatchUpdate
                     (Some (markerDeleteBatchOf (d :: ds))) c (afterRead w1) in
                 (match fst after with
                  | Ok _ => Ok data
                  | Throw e => Throw e
                  end, snd after)
             end
         end.
Proof.
  intros Hview Hc Hb Hwrite.
  unfold detectAndFormatLists, bind at 1. rewrite getDocument_run, Hview, Hc, Hb.
  unfold bind at 1. rewrite executeBatchUpdate_run. cbn [remoteDoc trace].
  rewrite Hwrite.
  exists (mkWorld doc1
            ((trace w ++ [GetCall])
             ++ (if MAX_BATCH_UPDATE_REQUESTS <? arrayLength (r :: rs)
                 then [OversizeWarning (arrayLength (r :: rs))] else [])
             ++ [BatchUpdateCall (r :: rs)])).
  split; [| unfold bind at 1; rewrite getDocument_run; cbn [remoteDoc];
                     unfold afterRead; cbn [remoteDoc trace]].
  2:{ destruct (documentsGet c doc1) as [err | updatedDoc]; [reflexivity |].
      unfold bind.
      destruct (match body_content updatedDoc with
                | Some updated => markerDeletes updated
                | None => []
                end) as [| d ds]; [reflexivity |].
      destruct (executeBatchUpdate _ c _) as [[a | e] w2]; reflexivity. }
  reflexivity.
Qed.

(** X16: the list conversion as a remote operation. A document without a
    body is refused after the one read; when no paragraph is list-like
    the operation makes no write and returns the empty response. When
    paragraphs are converted and the first write succeeds, the response
    returned is that of the first write, whatever the deletions return;
    and when the second read then fails, the error is passed on as it
    came and the document stays as the first write left it: nothing is
    rolled back. *)
Theorem detectAndFormatLists_protocol startIndex endIndex c w :
  (forall view,
      documentsGet c (remoteDoc w) = inr view ->
      body_content view = None ->
      detectAndFormatLists startIndex endIndex c w
      = (Throw (UserError "Document has no content to format."), afterRead w))
  /\ (forall view content,
        documentsGet c (remoteDoc w) = inr view ->
        body_content view = Some content ->
        bulletRequests content startIndex endIndex = [] ->
        detectAndFormatLists startIndex endIndex c w
        = (Ok emptyResponse, afterRead w))
  /\ (forall view content r rs data doc1,
        documentsGet c (remoteDoc w) = inr view ->
        body_content view = Some content ->
        bulletRequests content startIndex endIndex = r :: rs ->
        documentsBatchUpdate c (remoteDoc w) (r :: rs) = inr (data, doc1) ->
        (forall a,
            fst (detectAndFormatLists startIndex endIndex c w) = Ok a ->
            a = data)
        /\ (forall err,
              documentsGet c doc1 = inl err ->
              fst (detectAndFormatLists startIndex endIndex c w)
              = Throw (ApiFailure err)
              /\ remoteDoc (snd (detectAndFormatLists startIndex endIndex c w))
                 = doc1)).
Proof.
  split.
  { intros view Hview Hc. unfold detectAndFormatLists, bind.
    rewrite getDocument_run, Hview, Hc. reflexivity. }
  split.
  { intros view content Hview Hc Hb. unfold detectAndFormatLists, bind.
    rewrite getDocument_run, Hview, Hc, Hb. reflexivity. }
  intros view content r rs data doc1 Hview Hc Hb Hwrite.
  destruct (detectAndFormatLists_converted startIndex endIndex c w view content
              r rs data doc1 Hview Hc Hb Hwrite) as (w1 & Hdoc & ->).
  split.
  - intros a. destruct (documentsGet c doc1) as [err | updatedDoc];
      [discriminate |].
    destruct (match body_content updatedDoc with
              | Some updated => markerDeletes updated
              | None => []
              end) as [| d ds]; cbn [fst].
    + congruence.
    + destruct (fst (executeBatchUpdate _ c _)); congruence.
  - intros err ->. split; [reflexivity | exact Hdoc].
Qed.

Lemma detectAndFormatLists_protocol_witness :
  detectAndFormatLists None None idleCollaborators twoByThreeWorld
  = (Ok emptyResponse, afterRead twoByThreeWorld)
  /\ remoteDoc
       (snd (detectAndFormatLists None None forgetfulCollaborators
               (mkWorld (mkDocument (Some listBody)) [])))
     = mkDocument None.
Proof.
  split.
  - apply (proj1 (proj2 (detectAndFormatLists_protocol None None
                           idleCollaborators twoByThreeWorld))
             (remoteDoc twoByThreeWorld) twoByThree); reflexivity.
  - apply (proj2 (proj2 (proj2 (detectAndFormatLists_protocol None None
                                  forgetfulCollaborators
                                  (mkWorld (mkDocument (Some listBody)) [])))
                    (mkDocument (Some listBody)) listBody
                    (CreateParagraphBullets 1 15 NUMBERED_DECIMAL_NESTED)
                    [CreateParagraphBullets 26 30 BULLET_DISC_CIRCLE_SQUARE]
                    emptyResponse (mkDocument None)
                    eq_refl eq_refl eq_refl eq_refl)
             (mkApiError 500 [])).
    reflexivity.
Defined.

(** ** The second pass on the body its read returns *)

Lemma markerScan_masked runs :
  Forall (fun pe => pe_startIndex pe = None) runs ->
  forall acc, fold_left markerScanStep runs acc = acc.
Proof.
  induction 1 as [| pe rest Hpe Hrest IH]; intros acc; [reflexivity |].
  cbn [fold_left]. rewrite <- (IH acc) at 2. f_equal.
  unfold markerScanStep. destruct acc as [text start]. rewrite Hpe.
  destruct (pe_content pe) as [[| c cs] |]; reflexivity.
Qed.

Lemma markerDeletes_masked content :
  Forall runsLackStart content -> markerDeletes content = [].
Proof.
  induction 1 as [| el rest Hel Hrest IH]; [reflexivity |].
  simpl. destruct el as [[s |] e runs | | |]; try exact IH.
  simpl in Hel. unfold markerScan. rewrite (markerScan_masked runs Hel).
  exact IH.
Qed.

Lemma Budget_getDocument_bind {B} c r wr (k : Document -> M B) :
  (forall doc view, documentsGet c doc = inr view -> Budget c r wr (k view)) ->
  Budget c (1 + r) wr (bind getDocument k).
Proof.
  intros Hk w. unfold bind. rewrite getDocument_run.
  destruct (documentsGet c (remoteDoc w)) as [err | view] eqn:E.
  - exists [GetCall]. split; [reflexivity |].
    split; unfold reads, writes; simpl; lia.
  - destruct (Hk _ _ E (mkWorld (remoteDoc w) (trace w ++ [GetCall])))
      as (evs & Ee & R & W).
    exists (GetCall :: evs). rewrite Ee. cbn [trace].
    rewrite <- app_assoc. split; [reflexivity |].
    change (GetCall :: evs) with ([GetCall] ++ evs).
    rewrite reads_app, writes_app. split; unfold reads, writes in *; simpl; lia.
Qed.

(** X11: the reads of the list conversion ask, of a paragraph, for the
    text of its runs only, so the bodies they return carry no start index
    on any run. On every such body the second pass builds no deletion:
    it skips every run, the paragraph text stays empty and the marker
    pattern does not match. With a collaborator that honours the field
    mask, the list conversion makes at most two reads and one write, and
    what it writes is the bullet batch of a body it fetched: no marker
    is deleted. *)
Theorem masked_read_deletes_nothing :
  (forall content,
      Forall runsLackStart content -> markerDeletes content = [])
  /\ (forall c startIndex endIndex,
        MaskedReads c ->
        Budget c 2 1 (detectAndFormatLists startIndex endIndex)
        /\ Sends c
             (fun requests =>
                exists content,
                  Fetched c content
                  /\ requests = bulletRequests content startIndex endIndex)
             (detectAndFormatLists startIndex endIndex)).
Proof.
  split; [exact markerDeletes_masked |].
  intros c s e Hmask. unfold detectAndFormatLists. split.
  - apply (Budget_bind c 1 0 1 1); [apply Budget_getDocument |].
    intros res. destruct (body_content res) as [content |];
      [| apply (Budget_weaken c 0 0); [lia | lia | apply Budget_throw]].
    destruct (bulletRequests content s e) as [| r rs];
      [apply (Budget_weaken c 0 0); [lia | lia | apply Budget_ret] |].
    apply (Budget_bind c 0 1 1 0); [apply Budget_executeBatchUpdate |].
    intros result. apply (Budget_getDocument_bind c 0 0).
    intros doc updatedDoc Hview.
    apply (Budget_bind c 0 0 0 0); [| intros; apply Budget_ret].
    destruct (body_content updatedDoc) as [updated |] eqn:Eu;
      [| apply Budget_ret].
    rewrite (markerDeletes_masked updated (Hmask _ _ _ Hview Eu)).
    apply Budget_ret.
  - apply Sends_getDocument. intros doc view Hview.
    destruct (body_content view) as [content |] eqn:Ec; [| apply Sends_throw].
    destruct (bulletRequests content s e) as [| r rs] eqn:Eb;
      [apply Sends_ret |].
    apply Sends_bind.
    { apply Sends_executeBatchUpdate. intros _. exists content.
      split; [exists doc, view; auto | symmetry; exact Eb]. }
    intros result. apply Sends_getDocument. intros doc' view' Hview'.
    apply Sends_bind; [| intros; apply Sends_ret].
    destruct (body_content view') as [updated |] eqn:Eu; [| apply Sends_ret].
    rewrite (markerDeletes_masked updated (Hmask _ _ _ Hview' Eu)).
    apply Sends_ret.
Qed.

Lemma masked_read_deletes_nothing_witness :
  markerDeletes maskedListBody = []
  /\ Budget (fixedReader maskedListBody) 2 1 (detectAndFormatLists None None).
Proof.
  assert (Hbody : Forall runsLackStart maskedListBody)
    by (repeat constructor).
  split.
  - apply (proj1 masked_read_deletes_nothing maskedListBody Hbody).
  - apply (proj2 masked_read_deletes_nothing (fixedReader maskedListBody)
             None None).
    intros doc view content Hview Hcontent.
    inversion Hview; subst view. inversion Hcontent; subst content.
    exact Hbody.
Defined.

(** ** The table population as a remote operation *)

(** X17: the table population refuses an empty header list before any
    remote call. Otherwise its first remote call is the write of the one
    table insertion, of at least one row and one column, whatever
    happens afterwards; and when the body read back holds no table at or
    after five positions before the insertion index, the operation
    throws after that write and that read: the empty table stays in the
    document. *)
Theorem createTableWithData_inserts_first
    insertIndex headers rows boldHeaders boldTotalRow c w :
  (headers = [] ->
   createTableWithData insertIndex headers rows boldHeaders boldTotalRow c w
   = (Throw (UserError "Headers array cannot be empty"), w))
  /\ (headers <> [] ->
      1 <= arrayLength rows + 1 /\ 1 <= arrayLength headers
      /\ exists rest,
           trace (snd (createTableWithData insertIndex headers rows
                         boldHeaders boldTotalRow c w))
           = trace w
             ++ BatchUpdateCall
                  [InsertTable (arrayLength rows + 1) (arrayLength headers)
                     insertIndex]
             :: rest)
  /\ (forall data doc1 view content,
        headers <> [] ->
        documentsBatchUpdate c (remoteDoc w)
          [InsertTable (arrayLength rows + 1) (arrayLength headers) insertIndex]
        = inr (data, doc1) ->
        documentsGet c doc1 = inr view ->
        body_content view = Some content ->
        findInsertedTable content insertIndex = None ->
        createTableWithData insertIndex headers rows boldHeaders boldTotalRow
          c w
        = (Throw (JsError "Could not find the inserted table"),
           mkWorld doc1
             (trace w
              ++ [BatchUpdateCall
                    [InsertTable (arrayLength rows + 1) (arrayLength headers)
                       insertIndex];
                  GetCall]))).
Proof.
  assert (Hlen : headers <> [] -> (arrayLength headers =? 0) = false).
  { intros H. apply Z.eqb_neq. unfold arrayLength.
    destruct headers; [congruence | simpl; lia]. }
  split; [intros ->; reflexivity |].
  split.
  - intros Hne. split; [unfold arrayLength; lia |].
    split; [unfold arrayLength; destruct headers; [congruence | simpl; lia] |].
    unfold createTableWithData. rewrite (Hlen Hne).
    unfold bind at 1. rewrite executeBatchUpdate_run.
    change (MAX_BATCH_UPDATE_REQUESTS <? arrayLength [_]) with false.
    cbn [app].
    destruct (documentsBatchUpdate c (remoteDoc w) _) as [err | [data doc1]].
    + exists []. reflexivity.
    + match goal with
      | |- context [snd (?k c ?w1)] =>
          assert (Hk : Budget c 2 2 k); [| destruct (Hk w1) as (evs & E & _)]
      end.
      * apply (Budget_bind c 1 0 1 2); [apply Budget_getDocument |].
        intros doc. destruct (body_content doc) as [content |];
          [| apply (Budget_weaken c 0 0); [lia | lia | apply Budget_throw]].
        destruct (findInsertedTable content insertIndex)
          as [[tableRows start] |];
          [| apply (Budget_weaken c 0 0); [lia | lia | apply Budget_throw]].
        apply (Budget_bind c 0 1 1 1); [apply Budget_submitIfAny |].
        intros _. apply (Budget_bind c 1 1 0 0); [| intros; apply Budget_ret].
        destruct (existsb ci_isBold _);
          [| apply (Budget_weaken c 0 0); [lia | lia | apply Budget_ret]].
        apply (Budget_bind c 1 0 0 1); [apply Budget_getDocument |].
        intros after. destruct (body_content after);
          [apply Budget_submitIfAny
          | apply (Budget_weaken c 0 0); [lia | lia | apply Budget_ret]].
      * exists evs. rewrite E. cbn [trace]. rewrite <- app_assoc. reflexivity.
  - intros data doc1 view content Hne Hwrite Hview Hc Hf.
    unfold createTableWithData. rewrite (Hlen Hne).
    unfold bind at 1. rewrite executeBatchUpdate_run, Hwrite.
    change (MAX_BATCH_UPDATE_REQUESTS <? arrayLength [_]) with false.
    unfold bind. rewrite getDocument_run. cbn [remoteDoc trace].
    rewrite Hview, Hc, Hf. cbn [app]. rewrite <- app_assoc. reflexivity.
Qed.

Lemma createTableWithData_inserts_first_witness :
  createTableWithData 100 [str "h"] [] true true idleCollaborators
    twoByThreeWorld
  = (Throw (JsError "Could not find the inserted table"),
     mkWorld (remoteDoc twoByThreeWorld)
       (trace twoByThreeWorld
        ++ [BatchUpdateCall [InsertTable 1 1 100]; GetCall])).
Proof.
  apply (proj2 (proj2 (createTableWithData_inserts_first 100 [str "h"] []
                         true true idleCollaborators twoByThreeWorld))
           emptyResponse (remoteDoc twoByThreeWorld)
           (remoteDoc twoByThreeWorld) twoByThree);
    try reflexivity.
  discriminate.
Defined.

(** ** Failures of the cell lookup *)




(** ** The two table lookups *)

Lemma findTargetTable_near content anchor rows :
  Forall tableHasEnd content ->
  findTargetTable content anchor = Some rows ->
  exists s e,
    findTableNear content anchor = Some (mkFoundTable rows s e)
    /\ Z.abs (s - anchor) <= 10.
Proof.
  induction 1 as [| el rest Hel Hrest IH]; simpl; [discriminate |].
  destruct el as [s e runs | [s |] [e |] trows | s e | s e]; simpl in Hel;
    try contradiction; try exact IH.
  destruct (Z.leb_spec (Z.abs (s - anchor)) 10) as [Hin | Hout].
  - intros Hfound. inversion Hfound; subst. exists s, e.
    replace ((anchor - 10 <=? s) && (s <=? anchor + 10)) with true
      by (symmetry; apply andb_true_iff; rewrite !Z.leb_le; lia).
    auto.
  - replace ((anchor - 10 <=? s) && (s <=? anchor + 10)) with false
      by (symmetry; apply andb_false_iff; rewrite !Z.leb_gt; lia).
    replace (s =? anchor) with false by (symmetry; apply Z.eqb_neq; lia).
    exact IH.
Qed.

Lemma findTargetTable_none_near content anchor :
  findTargetTable content anchor = None -> findTableNear content anchor = None.
Proof.
  induction content as [| el rest IH]; simpl; [reflexivity |].
  destruct el as [s e runs | [s |] [e |] trows | s e | s e]; try exact IH.
  - destruct (Z.leb_spec (Z.abs (s - anchor)) 10); [discriminate |].
    replace ((anchor - 10 <=? s) && (s <=? anchor + 10)) with false
      by (symmetry; apply andb_false_iff; rewrite !Z.leb_gt; lia).
    replace (s =? anchor) with false by (symmetry; apply Z.eqb_neq; lia).
    exact IH.
  - destruct (Z.abs (s - anchor) <=? 10); [discriminate | exact IH].
Qed.

Lemma findTableAfter_after content anchor t :
  findTableAfter content anchor = Some t -> anchor <= ft_startIndex t.
Proof.
  induction content as [| el rest IH]; simpl; [discriminate |].
  destruct el as [s e runs | [s |] [e |] trows | s e | s e]; try exact IH.
  destruct (Z.leb_spec anchor s) as [Hle | Hgt]; [| exact IH].
  intros Hfound. inversion Hfound; subst. exact Hle.
Qed.

(** X19: the two table lookups agree where both apply. When every table
    of the body carries its end index, the table that the cell lookup
    takes is the one [findTableAtIndex] returns, and it starts within 10
    of the anchor. When the cell lookup finds no table, a table that
    [findTableAtIndex] still returns starts more than 10 after the
    anchor. *)
Theorem table_lookups_agree content anchor :
  (forall rows,
      Forall tableHasEnd content ->
      findTargetTable content anchor = Some rows ->
      exists s e,
        findTableAtIndexIn content anchor = Some (mkFoundTable rows s e)
        /\ Z.abs (s - anchor) <= 10)
  /\ (forall t,
        findTargetTable content anchor = None ->
        findTableAtIndexIn content anchor = Some t ->
        anchor + 10 < ft_startIndex t).
Proof.
  split.
  - intros rows Hend H.
    destruct (findTargetTable_near _ _ _ Hend H) as (s & e & Hn & Hs).
    exists s, e. unfold findTableAtIndexIn. rewrite Hn. auto.
  - intros t Hnone. unfold findTableAtIndexIn.
    rewrite (findTargetTable_none_near _ _ Hnone). intros Ht.
    pose proof (findTableAfter_after _ _ _ Ht) as Hafter.
    rewrite findTableAfter_find in Ht.
    destruct (find (tableAtOrAfter anchor) content) as [el |] eqn:Ef;
      [| discriminate].
    apply find_some in Ef. destruct Ef as [Hin _].
    rewrite findTargetTable_find in Hnone.
    destruct (find (tableInWindow anchor) content) eqn:Ew; [discriminate |].
    pose proof (find_none _ _ Ew el Hin) as Hw.
    destruct el as [s e runs | [s |] [e |] trows | s e | s e];
      simpl in Ht; try discriminate.
    inversion Ht; subst. simpl in *. apply Z.leb_gt in Hw. lia.
Qed.

Lemma table_lookups_agree_witness :
  exists s e,
    findTableAtIndexIn twoByThree 45
    = Some (mkFoundTable twoByThreeRows s e)
    /\ Z.abs (s - 45) <= 10.
Proof.
  apply (proj1 (table_lookups_agree twoByThree 45) twoByThreeRows).
  - repeat constructor.
  - reflexivity.
Defined.

(** ** The content batch of a cell edit *)

Lemma last_indep {A} (l : list A) d d' : l <> [] -> last l d = last l d'.
Proof.
  induction l as [| x t IH]; [congruence |]. intros _.
  destruct t as [| y u]; [reflexivity |].
  change (last (y :: u) d = last (y :: u) d'). apply IH. discriminate.
Qed.

Lemma spans_first_last rest : forall first lo hi,
  spansWithin lo hi (map el_span (first :: rest)) ->
  Forall (fun el => el_span el <> None) (first :: rest) ->
  exists s0 eL,
    el_startIndex first = Some s0
    /\ el_endIndex (last (first :: rest) first) = Some eL
    /\ lo <= s0 /\ s0 <= eL /\ eL <= hi.
Proof.
  induction rest as [| second rest IH]; intros first lo hi Hsp Hall;
    inversion Hall as [| ? ? Hfirst Hrest]; subst;
    simpl in Hsp; unfold el_span at 1, spanOf in Hsp;
    unfold el_span, spanOf in Hfirst;
    destruct (el_startIndex first) as [s |] eqn:Es;
    destruct (el_endIndex first) as [e |] eqn:Ee; try congruence;
    destruct Hsp as (H1 & H2 & H3).
  - exists s, e. simpl in *. rewrite Ee. repeat split; auto.
  - destruct (IH second e hi H3 Hrest) as (s1 & eL & Hs1 & HeL & A & B & C).
    exists s, eL. split; [reflexivity |]. split; [| lia].
    change (last (first :: second :: rest) first)
      with (last (second :: rest) first).
    rewrite (last_indep _ first second) by discriminate. exact HeL.
Qed.

(** X20: the content batch of a cell edit stays inside the cell. For a
    cell from [cs] to [ce] whose content elements carry their indices
    and lie inside it in order, every request of the batch touches that
    cell only: the deletion starts at or after [cs] and ends before the
    last position of the cell, so the closing newline is kept, and the
    insertion, of a text that is not empty, goes to a position of the
    cell. *)
Theorem edit_stays_in_cell cell cs ce textContent :
  cell_span cell = Some (cs, ce) ->
  spansWithin cs ce (map el_span (cell_content cell)) ->
  Forall (fun el => el_span el <> None) (cell_content cell) ->
  Forall (insideCell cs ce) (editRequests (cellRangeOf cell) textContent).
Proof.
  intros Hspan Hsp Hall. destruct cell as [cstart cend content].
  unfold cell_span, spanOf in Hspan. simpl in Hspan, Hsp, Hall.
  destruct cstart as [cs' |], cend as [ce' |]; try discriminate.
  inversion Hspan; subst cs' ce'. clear Hspan.
  unfold editRequests. destruct textContent as [text |]; [| constructor].
  unfold cellRangeOf. simpl cell_content. simpl cell_startIndex.
  simpl cell_endIndex.
  destruct content as [| first rest].
  - simpl in Hsp. simpl. destruct text as [| ch text]; [constructor |].
    constructor; [| constructor]. simpl. split; [lia | discriminate].
  - destruct (spans_first_last rest first cs ce Hsp Hall)
      as (s0 & eL & Hs0 & HeL & A & B & C).
    cbn [contentStartIndex contentEndIndex hasContent].
    rewrite Hs0, HeL. simpl orElse.
    apply Forall_app. split.
    + destruct (existsb elementHasText (first :: rest)); [| constructor].
      destruct (Z.ltb_spec s0 (eL - 1)); [| constructor].
      constructor; [| constructor]. simpl. lia.
    + destruct text as [| ch text]; [constructor |].
      constructor; [| constructor]. simpl. split; [lia | discriminate].
Qed.

Lemma edit_stays_in_cell_witness :
  Forall (insideCell 6 10)
         (editRequests (cellRangeOf filledCell) (Some (str "new"))).
Proof.
  apply (edit_stays_in_cell filledCell 6 10 (Some (str "new"))).
  - reflexivity.
  - cbv. repeat split; discriminate.
  - repeat constructor. discriminate.
Defined.

(** ** The table population without bold *)

Lemma collectCellInsertions_plain tableRows headers rows :
  Forall (fun ci => ci_isBold ci = false)
         (collectCellInsertions tableRows headers rows false false).
Proof.
  unfold collectCellInsertions. apply forIndexed_Forall. intros rowIdx row.
  apply forIndexed_Forall. intros colIdx cell. unfold cellInsertionOf.
  destruct (cell_content cell) as [| firstContent others]; [constructor |].
  destruct rowIdx as [| dataRowIdx]; simpl;
    match goal with
    | |- context [match ?t with [] => _ | _ :: _ => _ end] => destruct t
    end; try constructor;
    destruct (cellInsertionIndex firstContent); repeat constructor.
Qed.

Lemma plain_no_bold tableRows headers rows :
  existsb ci_isBold
    (sortCellInsertions
       (collectCellInsertions tableRows headers rows false false)) = false.
Proof.
  destruct (existsb _ _) eqn:E; [| reflexivity].
  apply existsb_exists in E. destruct E as (ci & Hin & Hb).
  unfold sortCellInsertions in Hin.
  apply (Permutation_in _ (sortBy_perm _ _)) in Hin.
  pose proof (collectCellInsertions_plain tableRows headers rows) as H.
  rewrite Forall_forall in H. rewrite (H ci Hin) in Hb. discriminate.
Qed.

(** X21: with both bold options off, the table population makes at most
    one read and two writes, and none of the requests it sends is a
    style request: the body is not read again for the bold pass. *)
Theorem createTableWithData_plain insertIndex headers rows c :
  Budget c 1 2 (createTableWithData insertIndex headers rows false false)
  /\ Sends c (Forall (fun r => isStyleRequest r = false))
       (createTableWithData insertIndex headers rows false false).
Proof.
  unfold createTableWithData. split.
  - destruct (arrayLength headers =? 0);
      [apply (Budget_weaken c 0 0); [lia | lia | apply Budget_throw] |].
    apply (Budget_bind c 0 1 1 1); [apply Budget_executeBatchUpdate |].
    intros _. apply (Budget_bind c 1 0 0 1); [apply Budget_getDocument |].
    intros doc. destruct (body_content doc) as [content |];
      [| apply (Budget_weaken c 0 0); [lia | lia | apply Budget_throw]].
    destruct (findInsertedTable content insertIndex) as [[tableRows start] |];
      [| apply (Budget_weaken c 0 0); [lia | lia | apply Budget_throw]].
    apply (Budget_bind c 0 1 0 0); [apply Budget_submitIfAny |].
    intros _. rewrite plain_no_bold.
    apply (Budget_bind c 0 0 0 0); intros; apply Budget_ret.
  - destruct (arrayLength headers =? 0); [apply Sends_throw |].
    apply Sends_bind.
    { apply Sends_executeBatchUpdate. intros _. repeat constructor. }
    intros _. apply Sends_getDocument. intros doc view _.
    destruct (body_content view) as [content |]; [| apply Sends_throw].
    destruct (findInsertedTable content insertIndex) as [[tableRows start] |];
      [| apply Sends_throw].
    apply Sends_bind.
    { apply Sends_submitIfAny. intros _. unfold textRequestsOf.
      apply Forall_map. apply Forall_forall. intros ci _. reflexivity. }
    intros _. rewrite plain_no_bold.
    apply Sends_bind; intros; apply Sends_ret.
Qed.

(** ** The cell edit as a remote operation *)

Lemma editRequests_nonEmpty cellRange text :
  text <> [] -> editRequests cellRange (Some text) <> [].
Proof.
  intros Hne. unfold editRequests. destruct text as [| ch text]; [congruence |].
  intros H. apply app_eq_nil in H. destruct H as [_ H]. discriminate.
Qed.

(** X22: the cell edit as a remote operation. When the lookup finds no
    cell the edit throws after the one read, before any write. When the
    text is replaced and styles were asked for, but the second lookup no
    longer finds the cell, the styles are dropped without a word: the
    edit reports success, and its only write is the content batch. *)
Theorem editTableCell_protocol
    tableStartIndex rowIndex columnIndex textContent textStyle paragraphStyle
    c w :
  (fst (getTableCellRange tableStartIndex rowIndex columnIndex c w) = Ok None ->
   editTableCell tableStartIndex rowIndex columnIndex textContent textStyle
     paragraphStyle c w
   = (Throw (UserError "Could not find cell"), afterRead w))
  /\ (forall cellRange text data doc1 view,
        fst (getTableCellRange tableStartIndex rowIndex columnIndex c w)
        = Ok (Some cellRange) ->
        textContent = Some text -> text <> [] ->
        isDefined textStyle || isDefined paragraphStyle = true ->
        documentsBatchUpdate c (remoteDoc w)
          (editRequests cellRange textContent) = inr (data, doc1) ->
        documentsGet c doc1 = inr view ->
        (forall content,
            body_content view = Some content ->
            getTableCellRangeIn content tableStartIndex rowIndex columnIndex
            = Ok None) ->
        fst (editTableCell tableStartIndex rowIndex columnIndex textContent
               textStyle paragraphStyle c w)
        = Ok (mkEditResult true)
        /\ batchCalls
             (trace (snd (editTableCell tableStartIndex rowIndex columnIndex
                            textContent textStyle paragraphStyle c w)))
           = batchCalls (trace w) ++ [editRequests cellRange textContent]).
Proof.
  assert (Hsnd : snd (getTableCellRange tableStartIndex rowIndex columnIndex
                        c w) = afterRead w)
    by (rewrite getTableCellRange_run; reflexivity).
  split.
  - intros Hnone. unfold editTableCell, bind at 1.
    destruct (getTableCellRange tableStartIndex rowIndex columnIndex c w)
      as [res w0].
    simpl in Hnone, Hsnd. subst res w0. reflexivity.
  - intros cellRange text data doc1 view Hfound -> Hne Hstyle Hwrite Hview Hgone.
    pose proof (editRequests_nonEmpty cellRange text Hne) as Hreq.
    destruct (editRequests cellRange (Some text)) as [| r rs] eqn:Er;
      [exfalso; apply Hreq; exact Er |].
    assert (Hrun : exists tr,
               editTableCell tableStartIndex rowIndex columnIndex (Some text)
                 textStyle paragraphStyle c w
               = (Ok (mkEditResult true), mkWorld doc1 tr)
               /\ batchCalls tr = batchCalls (trace w) ++ [r :: rs]).
    { eexists. split.
      - unfold editTableCell, bind at 1.
        destruct (getTableCellRange tableStartIndex rowIndex columnIndex c w)
          as [res w0].
        simpl in Hfound, Hsnd. subst res w0. rewrite Er.
        unfold bind at 1. unfold submitIfAny at 1.
        rewrite executeBatchUpdate_run. unfold afterRead at 1 2.
        cbn [remoteDoc]. rewrite Hwrite. rewrite Hstyle.
        replace (isNonEmpty (Some text)) with true
          by (destruct text; [congruence | reflexivity]).
        cbn [andb]. unfold bind at 1. unfold bind at 1.
        rewrite getTableCellRange_run. cbn [remoteDoc]. rewrite Hview.
        assert (Hres : match body_content view with
                       | Some content =>
                           match getTableCellRangeIn content tableStartIndex
                                   rowIndex columnIndex with
                           | Ok found => Ok found
                           | Throw _ => Throw cellRangeFailure
                           end
                       | None => Ok None
                       end = Ok None).
        { destruct (body_content view) as [content |]; [| reflexivity].
          rewrite (Hgone content eq_refl). reflexivity. }
        rewrite Hres. reflexivity.
      - cbn [afterRead trace]. rewrite !batchCalls_app.
        destruct (MAX_BATCH_UPDATE_REQUESTS <? arrayLength (r :: rs)); simpl;
          rewrite ?app_nil_r; reflexivity. }
    destruct Hrun as (tr & -> & Htr). split; [reflexivity | exact Htr].
Qed.

Lemma editTableCell_protocol_witness :
  fst (editTableCell 50 0 0 (Some (str "x")) (Some boldOnly) None
         erasingCollaborators twoByThreeWorld)
  = Ok (mkEditResult true)
  /\ batchCalls
       (trace (snd (editTableCell 50 0 0 (Some (str "x")) (Some boldOnly) None
                      erasingCollaborators twoByThreeWorld)))
     = batchCalls (trace twoByThreeWorld)
       ++ [editRequests
             (mkTableCellRange (Some 52) (Some 54) (Some 53) (Some 54) false)
             (Some (str "x"))].
Proof.
  apply (proj2 (editTableCell_protocol 50 0 0 (Some (str "x")) (Some boldOnly)
                  None erasingCollaborators twoByThreeWorld)
           (mkTableCellRange (Some 52) (Some 54) (Some 53) (Some 54) false)
           (str "x") emptyResponse (mkDocument (Some []))
           (mkDocument (Some [])));
    try reflexivity.
  - discriminate.
  - intros content H. inversion H. reflexivity.
Defined.
